(** * AcquisitionAI voice-call pipeline: a shallow embedding

    The development follows two source files:
    - [ai-caller/deepgramService.js]: the module-level caches, [manageCache],
      [generateTTS] and [processTranscript];
    - the telephony controller: [handleWebSocket] with its closures
      [sendAudioFrames] and [sendBufferedAudio].

    JavaScript values are modelled by small inductive types, a [Map] by an
    association list in insertion order, exceptions by a sum type, the
    module-level state by a record threaded through a state-and-exception
    monad, and the event-driven controller by a deterministic step function
    over the events the event loop can deliver. *)

From Stdlib Require Import ZArith Lia Ascii String Sorted.
From Stdlib Require Init.Byte.
From stdpp Require Import base list strings.

Set Warnings "-register-all".

Local Open Scope string_scope.

(** ** JavaScript values and exceptions *)

Module Js.

Inductive error : Type :=
| TypeError (msg : string)
| SyntaxError (msg : string)
| ReferenceError (msg : string)
| Error (msg : string).

(** Outcome of evaluating something that may throw. *)
Inductive exc (A : Type) : Type :=
| Ok (a : A)
| Throw (e : error).
Arguments Ok {A} a.
Arguments Throw {A} e.

(** The values that travel through the code under study: the parsed
    arguments of a function call, identifiers, replies. Numbers are the
    integers; nothing below depends on a fractional number. *)
Inductive value : Type :=
| VUndefined
| VNull
| VBool (b : bool)
| VNum (n : Z)
| VStr (s : string)
| VArr (items : list value)
| VObj (fields : list (string * value)).

(** [ToBoolean]. *)
Definition truthy (v : value) : bool :=
  match v with
  | VUndefined | VNull => false
  | VBool b => b
  | VNum n => negb (n =? 0)%Z
  | VStr s => negb (String.eqb s EmptyString)
  | VArr _ | VObj _ => true
  end.

Fixpoint lookup_field (k : string) (fields : list (string * value)) : value :=
  match fields with
  | [] => VUndefined
  | (k', v) :: rest => if String.eqb k k' then v else lookup_field k rest
  end.

(** [v.k] for a data property [k] that no prototype defines: reading it off
    [undefined] or [null] throws, off an object finds the field, off any
    other value gives [undefined]. *)
Definition get_prop (v : value) (k : string) : exc value :=
  match v with
  | VUndefined => Throw (TypeError "Cannot read properties of undefined")
  | VNull => Throw (TypeError "Cannot read properties of null")
  | VObj fields => Ok (lookup_field k fields)
  | _ => Ok VUndefined
  end.

(** White space of [String.prototype.trim] among the code units below 256. *)
Definition is_space (c : ascii) : bool :=
  let n := nat_of_ascii c in
  (Nat.eqb n 9 || Nat.eqb n 10 || Nat.eqb n 11 || Nat.eqb n 12
   || Nat.eqb n 13 || Nat.eqb n 32 || Nat.eqb n 160)%bool.

Fixpoint trim_start (s : string) : string :=
  match s with
  | String c r => if is_space c then trim_start r else s
  | EmptyString => EmptyString
  end.

Fixpoint trim_end (s : string) : string :=
  match s with
  | String c r =>
      match trim_end r with
      | EmptyString => if is_space c then EmptyString else String c EmptyString
      | r' => String c r'
      end
  | EmptyString => EmptyString
  end.

Definition trim (s : string) : string := trim_end (trim_start s).

(** [v.trim()]: only strings have the method. *)
Definition call_trim (v : value) : exc string :=
  match v with
  | VStr s => Ok (trim s)
  | VUndefined => Throw (TypeError "Cannot read properties of undefined")
  | VNull => Throw (TypeError "Cannot read properties of null")
  | _ => Throw (TypeError "trim is not a function")
  end.

(** Decimal text of an integer, for template literals. *)
Fixpoint digits (fuel : nat) (n : N) (acc : string) : string :=
  match fuel with
  | O => acc
  | S fuel' =>
      let d := ascii_of_nat (48 + N.to_nat (n mod 10)) in
      let acc' := String d acc in
      if (n / 10 =? 0)%N then acc' else digits fuel' (n / 10)%N acc'
  end.

Definition show_Z (z : Z) : string :=
  let body := digits (S (N.to_nat (N.log2 (Z.abs_N z)))) (Z.abs_N z) EmptyString in
  if (z <? 0)%Z then "-" ++ body else body.

Fixpoint join (sep : string) (parts : list string) : string :=
  match parts with
  | [] => EmptyString
  | [p] => p
  | p :: rest => p ++ sep ++ join sep rest
  end.

(** [ToString], as a template literal [`${v}`] applies it. *)
Fixpoint to_string (v : value) : string :=
  match v with
  | VUndefined => "undefined"
  | VNull => "null"
  | VBool true => "true"
  | VBool false => "false"
  | VNum n => show_Z n
  | VStr s => s
  | VArr items =>
      join "," (map (fun x => match x with
                              | VUndefined | VNull => EmptyString
                              | _ => to_string x
                              end) items)
  | VObj _ => "[object Object]"
  end.

End Js.

Import Js.

(** ** A [Map]: entries in insertion order *)

Module JsMap.
Section map.
Context {K V : Type} `{EqDecision K}.

Definition t := list (K * V).

Definition keys (m : t) : list K := m.*1.

Definition size (m : t) : nat := length m.

Fixpoint get (k : K) (m : t) : option V :=
  match m with
  | [] => None
  | (k', v) :: rest => if decide (k = k') then Some v else get k rest
  end.

(** [m.set(k, v)]: a present key keeps its place, a new key goes last. *)
Fixpoint set (k : K) (v : V) (m : t) : t :=
  match m with
  | [] => [(k, v)]
  | (k', v') :: rest =>
      if decide (k = k') then (k', v) :: rest else (k', v') :: set k v rest
  end.

Fixpoint delete (k : K) (m : t) : t :=
  match m with
  | [] => []
  | (k', v') :: rest =>
      if decide (k = k') then rest else (k', v') :: delete k rest
  end.

(** [m.keys().next().value]. *)
Definition first_key (m : t) : option K := head (keys m).
End map.
Arguments t : clear implicits.
End JsMap.

(** ** deepgramService.js: configuration and the size cap *)

Module CACHE_CONFIG.
Definition MAX_SIZE : nat := 1000.
Definition TTL : Z := (1000 * 60 * 60)%Z.
Definition MAX_HISTORY : nat := 10.
End CACHE_CONFIG.

Arguments CACHE_CONFIG.MAX_SIZE : simpl never.
Arguments CACHE_CONFIG.TTL : simpl never.
Arguments CACHE_CONFIG.MAX_HISTORY : simpl never.

Section manage.
Context {K V : Type} `{EqDecision K}.

(** [manageCache]: one entry, the first in iteration order, goes when the
    size is over the cap. *)
Definition manageCache (cache : JsMap.t K V) : JsMap.t K V :=
  if decide (CACHE_CONFIG.MAX_SIZE < JsMap.size cache) then
    match JsMap.first_key cache with
    | Some oldestKey => JsMap.delete oldestKey cache
    | None => cache
    end
  else cache.
End manage.

Arguments manageCache : simpl never.

(** ** A state-and-exception monad

    A computation reads and writes a state [S] and either returns or throws.
    What was written before a [throw] stays written, as in JavaScript. *)

Definition M (S A : Type) : Type := S -> exc A * S.

#[global] Instance M_ret {S} : MRet (M S) := fun A a s => (Ok a, s).

#[global] Instance M_bind {S} : MBind (M S) := fun A B f m s =>
  match m s with
  | (Ok a, s') => f a s'
  | (Throw e, s') => (Throw e, s')
  end.

Definition throw {S A} (e : error) : M S A := fun s => (Throw e, s).

(** [try { body } catch (error) { handler }]. *)
Definition try_catch {S A} (body : M S A) (handler : error -> M S A) : M S A :=
  fun s =>
    match body s with
    | (Ok a, s') => (Ok a, s')
    | (Throw e, s') => handler e s'
    end.

Definition gets {S A} (f : S -> A) : M S A := fun s => (Ok (f s), s).

Definition modify {S} (f : S -> S) : M S () := fun s => (Ok (), f s).

Definition lift_exc {S A} (r : exc A) : M S A := fun s => (r, s).

(** ** deepgramService.js: module state and its collaborators *)

Module Service.

Definition buffer := list Byte.byte.

Record tts_entry := { data : buffer; timestamp : Z }.

Inductive role := system | user | assistant.

Record chat_message := { msg_role : role; content : option string }.

(** A session id as the callers pass it: nothing, a boolean or a string. A
    [Map] compares such keys by value. *)
Inductive key := KUndefined | KBool (b : bool) | KStr (s : string).

#[global] Instance key_eq_dec : EqDecision key.
Proof. solve_decision. Defined.

#[global] Instance role_eq_dec : EqDecision role.
Proof. solve_decision. Defined.

(** The [function_call] option of the chat request. *)
Inductive function_choice := Auto | Forced (name : string).

(** Requests that leave the process, in the order they are made. *)
Inductive request :=
| ReqSpeak (text : string)
| ReqChat (messages : list chat_message) (functions : list string)
    (function_call : function_choice)
| ReqCheckAvailability (time : value)
| ReqNextTime (time : value)
| ReqCreateAppointment (name phone time : value).

(** The module-level state, with the clock [Date.now()] reads and the log
    of requests made so far. *)
Record state := {
  now : Z;
  ttsCache : JsMap.t string tts_entry;
  conversationCache : JsMap.t key (list chat_message);
  requests : list request
}.

Definition initial : state :=
  {| now := 0; ttsCache := []; conversationCache := []; requests := [] |}.

Definition set_now (f : Z -> Z) (s : state) : state :=
  {| now := f (now s); ttsCache := ttsCache s;
     conversationCache := conversationCache s; requests := requests s |}.

Definition set_ttsCache (f : JsMap.t string tts_entry -> JsMap.t string tts_entry)
    (s : state) : state :=
  {| now := now s; ttsCache := f (ttsCache s);
     conversationCache := conversationCache s; requests := requests s |}.

Definition set_conversationCache
    (f : JsMap.t key (list chat_message) -> JsMap.t key (list chat_message))
    (s : state) : state :=
  {| now := now s; ttsCache := ttsCache s;
     conversationCache := f (conversationCache s); requests := requests s |}.

Definition log (r : request) (s : state) : state :=
  {| now := now s; ttsCache := ttsCache s;
     conversationCache := conversationCache s; requests := (requests s ++ [r])%list |}.

(** Time passing between two calls. *)
Definition elapse (dt : Z) (s : state) : state := set_now (fun t => (t + dt)%Z) s.

(** *** What the outside answers

    The speech service, the language model and the appointment store are
    not part of the module: each call takes the answer it will get. *)

Inductive speak_result :=
| SpeakRejects (e : error)
| SpeakResponds (status : Z) (body : buffer).

Record speak_outcome := { speak_latency : Z; speak_result_of : speak_result }.

Record function_call := {
  fc_name : string;
  (** what [JSON.parse] makes of the [arguments] text *)
  fc_arguments : exc value
}.

Record llm_message := {
  llm_content : option string;
  llm_function_call : option function_call
}.

Inductive llm_result :=
| LlmRejects (e : error)
| LlmResponds (choices : list llm_message).

Record llm_outcome := { llm_latency : Z; llm_result_of : llm_result }.

(** [checkAvailability], [nextTime] and [createAppointment] of
    [auth-service/db.js]: a value, or a rejection. *)
Record appointment_store := {
  checkAvailability : value -> exc value;
  nextTime : value -> exc value;
  createAppointment : value -> value -> value -> exc value
}.

(** *** [generateTTS] *)

Definition empty_text : error := Error "Text for TTS cannot be null or empty".

(** The [try] block of [generateTTS]: the request to the speech service,
    the store under the exact text and the size cap. Its [catch] logs and
    throws the error again. *)
Definition request_speech (text : string) (out : speak_outcome) : M state buffer :=
  try_catch
    (modify (log (ReqSpeak text));;
     modify (elapse (speak_latency out));;
     match speak_result_of out with
     | SpeakRejects e => throw e
     | SpeakResponds status body =>
         if negb (status =? 200)%Z then throw (Error "TTS generation failed")
         else
           t ← gets now;
           modify (set_ttsCache (JsMap.set text {| data := body; timestamp := t |}));;
           modify (set_ttsCache manageCache);;
           mret body
     end)
    (fun error => throw error).

Definition generateTTS (text : value) (out : speak_outcome) : M state buffer :=
  match text with
  | VUndefined | VNull => throw empty_text
  | VStr text =>
      if String.eqb (trim text) EmptyString then throw empty_text
      else
        cached ← gets (fun s => JsMap.get text (ttsCache s));
        t ← gets now;
        match cached with
        | Some c =>
            if (t - timestamp c <? CACHE_CONFIG.TTL)%Z then mret (data c)
            else request_speech text out
        | None => request_speech text out
        end
  | _ => throw (TypeError "text.trim is not a function")
  end.

(** *** [processTranscript] *)

Definition prompt : string :=
"You are a professional and friendly AI dental receptionist for [Dental Office Name]. Your primary role is to:

- Assist patients with scheduling appointments: Provide available dates and times, and help with rescheduling or canceling appointments.
- Provide office information: Share details about office hours, location, contact information, services offered, insurance accepted, and pricing.
- Onboard new patients: Collect necessary information such as name and contact details, and explain the onboarding process.
- Respond to general inquiries: Answer questions about dental procedures, office policies, and staff. Direct complex queries to the appropriate team member.
- Handle patient information with confidentiality: Comply with HIPAA regulations and ensure all sensitive information is processed securely.

Communication Style:

- Friendly and Approachable: Greet patients warmly with a positive tone.
- Clear and Concise: Provide easy-to-understand information without unnecessary jargon.
- Patient and Understanding: Show empathy, especially with anxious or upset patients.
- Professional: Reflect the values and standards of [Dental Office Name] in all interactions.".

Definition newline : string := String (ascii_of_nat 10) EmptyString.

Definition ask_for_name : string :=
  newline ++ "IMPORTANT: We don't have the caller's name yet. Please ask for their name if they haven't provided it.".

Definition function_names : list string :=
  ["extractName"; "extractAppointmentTime"; "scheduleAppointment"].

Record reply := { response : option string; extractedName : option string }.

(** [conversationHistory] is a reference: to the array the cache holds for
    the session, or to an array of the call's own. *)
Inductive array_ref :=
| Cached (sessionId : key)
| Fresh (items : list chat_message).

(** The state a call of [processTranscript] works on: the module state and
    the local variables that are assigned more than once. *)
Record frame := {
  global : state;
  conversationHistory : array_ref;
  aiResponse : option string;
  extractedName_var : option string
}.

Definition on_global (f : state -> state) (fr : frame) : frame :=
  {| global := f (global fr); conversationHistory := conversationHistory fr;
     aiResponse := aiResponse fr; extractedName_var := extractedName_var fr |}.

Definition assign_conversationHistory (r : array_ref) : M frame () :=
  modify (fun fr =>
    {| global := global fr; conversationHistory := r;
       aiResponse := aiResponse fr; extractedName_var := extractedName_var fr |}).

Definition assign_aiResponse (v : option string) : M frame () :=
  modify (fun fr =>
    {| global := global fr; conversationHistory := conversationHistory fr;
       aiResponse := v; extractedName_var := extractedName_var fr |}).

Definition assign_extractedName (v : option string) : M frame () :=
  modify (fun fr =>
    {| global := global fr; conversationHistory := conversationHistory fr;
       aiResponse := aiResponse fr; extractedName_var := v |}).

Definition items_of (r : array_ref) (s : state) : list chat_message :=
  match r with
  | Cached sessionId => default [] (JsMap.get sessionId (conversationCache s))
  | Fresh items => items
  end.

Definition history : M frame (list chat_message) :=
  gets (fun fr => items_of (conversationHistory fr) (global fr)).

(** [conversationHistory.push(m)] writes through the reference. *)
Definition push (m : chat_message) : M frame () :=
  r ← gets conversationHistory;
  match r with
  | Cached sessionId =>
      old ← history;
      modify (on_global (set_conversationCache (JsMap.set sessionId (old ++ [m])%list)))
  | Fresh items => assign_conversationHistory (Fresh (items ++ [m])%list)
  end.

(** [a.slice(-n)]: a new array of the last [n] items. *)
Definition slice_last {A} (n : nat) (a : list A) : list A :=
  drop (length a - n) a.

(** A string or [null] as a condition. *)
Definition nonempty (v : option string) : bool :=
  match v with
  | Some s => negb (String.eqb s EmptyString)
  | None => false
  end.

Definition name_value (currentName : option string) : value :=
  match currentName with
  | Some s => VStr s
  | None => VNull
  end.

(** [v === s] for a string literal [s]. *)
Definition is_string (v : value) (s : string) : bool :=
  match v with
  | VStr s' => String.eqb s' s
  | _ => false
  end.

(** Names bound at the top level of the module. *)
Definition module_bindings : list string :=
  ["axios"; "LiveTranscriptionEvents"; "createClient"; "OpenAI"; "dotenv";
   "deepgram"; "checkAvailability"; "nextTime"; "createAppointment";
   "connectToMongoDB"; "openai"; "prompt"; "CACHE_CONFIG"; "ttsCache";
   "responseCache"; "manageCache"; "withTimeout"; "initializeDeepgram";
   "generateTTS"; "conversationCache"; "nameExtractionFunction";
   "appointmentTimeExtractionFunction"; "scheduleAppointmentFunction";
   "processTranscript"].

(** Names the runtime provides to every module. *)
Definition runtime_bindings : list string :=
  ["require"; "module"; "exports"; "__filename"; "__dirname"; "console";
   "process"; "Buffer"; "Promise"; "JSON"; "Date"; "Error"; "Map";
   "setTimeout"; "clearTimeout"; "undefined"].

(** Bindings whose value plays no part in what follows. *)
Definition opaque (names : list string) : list (string * value) :=
  (fun x => (x, VObj [])) <$> names.

(** What an identifier can resolve to inside the ["schedule"] branch of
    [processTranscript], innermost bindings first. *)
Definition scope_in_schedule (transcript : string) (currentName : option string)
    (args appointmentTime action isAvailable : value) : list (string * value) :=
  ([("isAvailable", isAvailable); ("appointmentTime", appointmentTime);
    ("action", action); ("args", args)]
   ++ opaque ["message"; "aiResponse"; "extractedName"; "response"; "messages";
              "userMessage"; "conversationHistory"; "sessionId"]
   ++ [("transcript", VStr transcript); ("currentName", name_value currentName)]
   ++ opaque module_bindings ++ opaque runtime_bindings)%list.

(** Reading an identifier: a name no scope binds is a [ReferenceError]. *)
Fixpoint identifier (x : string) (scope : list (string * value)) : exc value :=
  match scope with
  | [] => Throw (ReferenceError (x ++ " is not defined"))
  | (y, v) :: rest => if String.eqb x y then Ok v else identifier x rest
  end.

(** A call to the appointment store: logged, then answered. *)
Definition ask (r : request) (answer : exc value) : M frame value :=
  modify (on_global (log r));;
  lift_exc answer.

(** [withTimeout(openai.chat.completions.create(...), 10000, ...)]: the
    answer when it comes before the timer, the timer's error otherwise. *)
Definition chat_with_timeout (messages : list chat_message)
    (choice : function_choice) (out : llm_outcome) : M frame (list llm_message) :=
  modify (on_global (log (ReqChat messages function_names choice)));;
  if (llm_latency out <? 10000)%Z then
    modify (on_global (elapse (llm_latency out)));;
    match llm_result_of out with
    | LlmRejects e => throw e
    | LlmResponds choices => mret choices
    end
  else
    modify (on_global (elapse 10000));;
    throw (Error "OpenAI API request timed out").

Definition apology : string :=
  "I apologize, but I'm having trouble processing your appointment request. Could you please try again?".

Definition unable : string :=
  "Sorry, I am unable to process your request at the moment.".

Definition not_caught : string :=
  "I did not catch that. Could you please repeat?".

(** The body of [if (message.function_call.name === "scheduleAppointment")]. *)
Definition schedule_appointment (transcript : string) (currentName : option string)
    (args : value) (db : appointment_store) : M frame () :=
  appointmentTime ← lift_exc (get_prop args "appointmentTime");
  action ← lift_exc (get_prop args "action");
  let time := to_string appointmentTime in
  if is_string action "check" then
    isAvailable ← ask (ReqCheckAvailability appointmentTime)
                      (checkAvailability db appointmentTime);
    assign_aiResponse (Some (
      if truthy isAvailable
      then "Yes, " ++ time ++ " is available. Would you like me to schedule this appointment for you?"
      else "I apologize, but " ++ time ++ " is not available. Would you like me to find the next available time?"))
  else if is_string action "suggest_next" then
    nextAvailableTime ← ask (ReqNextTime appointmentTime) (nextTime db appointmentTime);
    assign_aiResponse (Some (
      if truthy nextAvailableTime
      then "The next available appointment time is " ++ to_string nextAvailableTime ++ ". Would you like to schedule this time instead?"
      else "I'm having trouble finding the next available appointment time. Could you please try a different date or time?"))
  else if is_string action "schedule" then
    isAvailable ← ask (ReqCheckAvailability appointmentTime)
                      (checkAvailability db appointmentTime);
    if truthy isAvailable then
      let scope := scope_in_schedule transcript currentName args appointmentTime
                     action isAvailable in
      a1 ← lift_exc (identifier "currentName" scope);
      a2 ← lift_exc (identifier "phoneNumber" scope);
      a3 ← lift_exc (identifier "appointmentTime" scope);
      appointmentCreated ← ask (ReqCreateAppointment a1 a2 a3)
                               (createAppointment db a1 a2 a3);
      if truthy appointmentCreated then
        assign_aiResponse (Some (
          "Perfect! I've scheduled your appointment for " ++ time ++ ". You'll receive a confirmation shortly. Is there anything else I can help you with?"))
      else
        assign_aiResponse (Some
          "I apologize, but I encountered an error while scheduling your appointment. Could you please try again?")
    else
      nextAvailableTime ← ask (ReqNextTime appointmentTime) (nextTime db appointmentTime);
      assign_aiResponse (Some (
        if truthy nextAvailableTime
        then "I apologize, but that time was just taken. The next available time is " ++ to_string nextAvailableTime ++ ". Would you like this time instead?"
        else "I apologize, but that time is no longer available. Could you please provide another preferred time?"))
  else mret ().

(** The [try] block under [if (message.function_call)]. *)
Definition interpret_function_call (transcript : string) (currentName : option string)
    (fc : function_call) (db : appointment_store) : M frame () :=
  args ← lift_exc (fc_arguments fc);
  (if String.eqb (fc_name fc) "extractName" then
     confidence ← lift_exc (get_prop args "confidence");
     if truthy confidence then
       name ← lift_exc (get_prop args "name");
       trimmed ← lift_exc (call_trim name);
       assign_extractedName (Some trimmed);;
       assign_aiResponse (Some
         ("Nice to meet you, " ++ trimmed ++ "! How can I assist you today?"))
     else mret ()
   else mret ());;
  if String.eqb (fc_name fc) "scheduleAppointment" then
    schedule_appointment transcript currentName args db
  else mret ().

(** The conversation record of the session is loaded, or begun, and the
    caller's words appended. *)
Definition open_history (transcript : string) (sessionId : key) : M frame () :=
  cached ← gets (fun fr => JsMap.get sessionId (conversationCache (global fr)));
  assign_conversationHistory
    (match cached with Some _ => Cached sessionId | None => Fresh [] end);;
  push {| msg_role := user; content := Some (trim transcript) |}.

(** The request to the model and [response.choices[0].message]. *)
Definition ask_model (currentName : option string) (llm : llm_outcome)
    : M frame llm_message :=
  h ← history;
  let messages :=
    {| msg_role := system;
       content := Some (if nonempty currentName then prompt
                        else prompt ++ ask_for_name) |}
    :: List.filter (fun msg => bool_decide (content msg ≠ None)) h in
  choices ← chat_with_timeout messages
    (if nonempty currentName then Auto else Forced "extractName") llm;
  match choices with
  | m :: _ => mret m
  | [] => throw (TypeError "Cannot read properties of undefined")
  end.

(** From [let aiResponse = message.content] to the end of
    [if (message.function_call)], inner [catch] included. *)
Definition interpret (transcript : string) (currentName : option string)
    (message : llm_message) (db : appointment_store) : M frame () :=
  assign_aiResponse (llm_content message);;
  assign_extractedName None;;
  match llm_function_call message with
  | Some fc =>
      try_catch (interpret_function_call transcript currentName fc db)
                (fun error => assign_aiResponse (Some apology))
  | None => mret ()
  end.

(** The fallback reply, the assistant's turn, the trim to [MAX_HISTORY] and
    the write to the cache. *)
Definition close_history (sessionId : key) (message : llm_message) : M frame reply :=
  ai ← gets aiResponse;
  (if nonempty ai then mret ()
   else assign_aiResponse
          (if nonempty (llm_content message) then llm_content message
           else Some "How can I assist you today?"));;
  ai ← gets aiResponse;
  push {| msg_role := assistant; content := ai |};;
  h ← history;
  (if decide (CACHE_CONFIG.MAX_HISTORY < length h)
   then assign_conversationHistory (Fresh (slice_last CACHE_CONFIG.MAX_HISTORY h))
   else mret ());;
  h ← history;
  modify (on_global (set_conversationCache (JsMap.set sessionId h)));;
  modify (on_global (set_conversationCache manageCache));;
  name ← gets extractedName_var;
  mret {| response := ai; extractedName := name |}.

(** The outer [try] block of [processTranscript]. *)
Definition process_body (transcript : string) (sessionId : key)
    (currentName : option string) (llm : llm_outcome) (db : appointment_store)
    : M frame reply :=
  open_history transcript sessionId;;
  message ← ask_model currentName llm;
  interpret transcript currentName message db;;
  close_history sessionId message.

(** Running a body on fresh local variables, keeping the module state. *)
Definition call {A} (body : M frame A) : M state A :=
  fun s =>
    let '(r, fr) := body {| global := s; conversationHistory := Fresh [];
                            aiResponse := None; extractedName_var := None |} in
    (r, global fr).

(** [transcript] is a string, or [None] for [null] and [undefined]. *)
Definition processTranscript (transcript : option string) (sessionId : key)
    (currentName : option string) (llm : llm_outcome) (db : appointment_store)
    : M state reply :=
  match transcript with
  | None => mret {| response := Some not_caught; extractedName := None |}
  | Some transcript =>
      if String.eqb (trim transcript) EmptyString then
        mret {| response := Some not_caught; extractedName := None |}
      else
        call (try_catch
                (process_body transcript sessionId currentName llm db)
                (fun error => mret {| response := Some unable; extractedName := None |}))
  end.

End Service.

Local Close Scope string_scope.

(** ** The caches as accessed over time

    Both caches are written by the pair [cache.set(k, v); manageCache(cache)]
    and read by [cache.get(k)]. A history of such accesses is replayed from
    the empty cache; alongside, the moment each key entered the cache is
    recorded, to say which entry is the least recently inserted. *)

Section accesses.
Context {K V : Type} `{EqDecision K}.

Inductive access :=
| Put (k : K) (v : V)
| Get (k : K).

Definition put (k : K) (v : V) (cache : JsMap.t K V) : JsMap.t K V :=
  manageCache (JsMap.set k v cache).

(** A read hands out the value and leaves the cache as it is. *)
Definition apply_access (a : access) (cache : JsMap.t K V) : JsMap.t K V :=
  match a with
  | Put k v => put k v cache
  | Get k => cache
  end.

Definition replay (accs : list access) (cache : JsMap.t K V) : JsMap.t K V :=
  fold_left (fun c a => apply_access a c) accs cache.

Definition is_put (a : access) : bool :=
  match a with Put _ _ => true | Get _ => false end.

(** The access that inserts a key (a [Put] of a key the cache does not
    hold) stamps the key with its position in the history; overwriting a
    key that is present is not an insertion. *)
Definition stamp (a : access) (n : nat) (cache : JsMap.t K V) (times : K → nat)
    : K → nat :=
  match a with
  | Put k _ =>
      if decide (k ∈ JsMap.keys cache) then times
      else fun k' => if decide (k' = k) then n else times k'
  | Get _ => times
  end.

Fixpoint insertion_times (n : nat) (accs : list access) (cache : JsMap.t K V)
    (times : K → nat) : K → nat :=
  match accs with
  | [] => times
  | a :: rest =>
      insertion_times (S n) rest (apply_access a cache) (stamp a n cache times)
  end.

Definition inserted_at (accs : list access) : K → nat :=
  insertion_times 0 accs [] (fun _ => 0).

(** Entries lie in the order of their insertion, all inserted before [n],
    and the cache is within its cap. *)
Definition ordered (times : K → nat) (n : nat) (cache : JsMap.t K V) : Prop :=
  StronglySorted lt (times <$> JsMap.keys cache)
  ∧ Forall (fun t => t < n) (times <$> JsMap.keys cache)
  ∧ JsMap.size cache ≤ CACHE_CONFIG.MAX_SIZE.
End accesses.

Arguments access : clear implicits.

(** ** The telephony controller: [handleWebSocket]

    One call of [handleWebSocket] owns the variables below; the event loop
    delivers socket messages, socket and transcription events, timers and
    the continuations of [await]s one at a time, in any order. [step] is
    what each delivery does. *)

Module Controller.
Import Service.

(** [ws.readyState]. *)
Inductive ready_state := CONNECTING | OPEN | CLOSING | CLOSED.

#[global] Instance ready_state_eq_dec : EqDecision ready_state.
Proof. solve_decision. Defined.

(** The transcription connection [dgLive]: what [getReadyState()] answers
    (1 is open), the chunks handed to [send], and whether [finish] was
    called. *)
Record connection := {
  readyState : nat;
  received : list buffer;
  finished : bool
}.

(** What [ws.send] is given. The payload is the frame before its base64
    encoding; the random label of a mark is left out. *)
Inductive message_out :=
| Media (streamSid : option string) (payload : buffer)
| Mark (streamSid : option string).

(** A call of [sendAudioFrames] that passed its test and has not finished:
    [offset] is the loop variable [i] of [sendBufferedAudio], [returned]
    says that [sendBufferedAudio] is done and the [await] in
    [sendAudioFrames] has yet to resume. [turn] numbers the calls of
    [sendAudioFrames] in the order they are made. *)
Record transmission := {
  turn : nat;
  index : nat;
  audioBuffer : buffer;
  to_stream : option string;
  offset : nat;
  returned : bool
}.

Record session := {
  streamSid : option string;
  callSid : option string;
  dgLive : option connection;
  audioBufferQueue : list buffer;
  phoneNumber : option string;
  interactionCount : nat;
  ws_readyState : ready_state;
  (** every message given to [ws.send], with the turn it belongs to *)
  sent : list (nat * message_out);
  transmissions : list transmission;
  (** calls of [sendAudioFrames] so far *)
  turns : nat
}.

Definition initial : session :=
  {| streamSid := None; callSid := None; dgLive := None; audioBufferQueue := [];
     phoneNumber := None; interactionCount := 0; ws_readyState := OPEN;
     sent := []; transmissions := []; turns := 0 |}.

Definition set_dgLive (d : option connection) (s : session) : session :=
  {| streamSid := streamSid s; callSid := callSid s; dgLive := d;
     audioBufferQueue := audioBufferQueue s; phoneNumber := phoneNumber s;
     interactionCount := interactionCount s; ws_readyState := ws_readyState s;
     sent := sent s; transmissions := transmissions s; turns := turns s |}.

Definition set_audioBufferQueue (q : list buffer) (s : session) : session :=
  {| streamSid := streamSid s; callSid := callSid s; dgLive := dgLive s;
     audioBufferQueue := q; phoneNumber := phoneNumber s;
     interactionCount := interactionCount s; ws_readyState := ws_readyState s;
     sent := sent s; transmissions := transmissions s; turns := turns s |}.

Definition set_interactionCount (n : nat) (s : session) : session :=
  {| streamSid := streamSid s; callSid := callSid s; dgLive := dgLive s;
     audioBufferQueue := audioBufferQueue s; phoneNumber := phoneNumber s;
     interactionCount := n; ws_readyState := ws_readyState s;
     sent := sent s; transmissions := transmissions s; turns := turns s |}.

Definition set_ws_readyState (r : ready_state) (s : session) : session :=
  {| streamSid := streamSid s; callSid := callSid s; dgLive := dgLive s;
     audioBufferQueue := audioBufferQueue s; phoneNumber := phoneNumber s;
     interactionCount := interactionCount s; ws_readyState := r;
     sent := sent s; transmissions := transmissions s; turns := turns s |}.

Definition set_transmissions (l : list transmission) (s : session) : session :=
  {| streamSid := streamSid s; callSid := callSid s; dgLive := dgLive s;
     audioBufferQueue := audioBufferQueue s; phoneNumber := phoneNumber s;
     interactionCount := interactionCount s; ws_readyState := ws_readyState s;
     sent := sent s; transmissions := l; turns := turns s |}.

Definition set_turns (n : nat) (s : session) : session :=
  {| streamSid := streamSid s; callSid := callSid s; dgLive := dgLive s;
     audioBufferQueue := audioBufferQueue s; phoneNumber := phoneNumber s;
     interactionCount := interactionCount s; ws_readyState := ws_readyState s;
     sent := sent s; transmissions := transmissions s; turns := n |}.

(** [ws.send(m)] from the transmission of turn [n]. *)
Definition ws_send (n : nat) (m : message_out) (s : session) : session :=
  {| streamSid := streamSid s; callSid := callSid s; dgLive := dgLive s;
     audioBufferQueue := audioBufferQueue s; phoneNumber := phoneNumber s;
     interactionCount := interactionCount s; ws_readyState := ws_readyState s;
     sent := sent s ++ [(n, m)]; transmissions := transmissions s;
     turns := turns s |}.

Definition is_open (s : session) : bool := bool_decide (ws_readyState s = OPEN).

(** [ws.close()]: an open socket starts closing. *)
Definition ws_close (s : session) : session :=
  if is_open s then set_ws_readyState CLOSING s else s.

(** [if (dgLive) { dgLive.finish(); }]. *)
Definition finish_dgLive (s : session) : session :=
  match dgLive s with
  | Some d =>
      set_dgLive (Some {| readyState := readyState d; received := received d;
                          finished := true |}) s
  | None => s
  end.

Definition frameSize : nat := 160.

Definition with_offset (i : nat) (t : transmission) : transmission :=
  {| turn := turn t; index := index t; audioBuffer := audioBuffer t;
     to_stream := to_stream t; offset := i; returned := returned t |}.

Definition mark_returned (t : transmission) : transmission :=
  {| turn := turn t; index := index t; audioBuffer := audioBuffer t;
     to_stream := to_stream t; offset := offset t; returned := true |}.

Definition other_transmissions (n : nat) (s : session) : list transmission :=
  List.filter (fun t => negb (Nat.eqb (turn t) n)) (transmissions s).

(** The transmission [t] goes on waiting, for its timer or to resume. *)
Definition suspend (t : transmission) (s : session) : session :=
  set_transmissions (other_transmissions (turn t) s ++ [t]) s.

(** [sendBufferedAudio] after its loop: the mark, if the socket is open,
    and the return. *)
Definition after_loop (t : transmission) (s : session) : session :=
  suspend (mark_returned t)
    (if is_open s then ws_send (turn t) (Mark (to_stream t)) s else s).

(** [sendBufferedAudio] from the loop test at [i = offset t] to the next
    [await]: the test of the socket, one frame, and the timer; or the end
    of the loop. *)
Definition sendBufferedAudio (t : transmission) (s : session) : session :=
  if decide (offset t < length (audioBuffer t)) then
    if is_open s then
      let frame := take frameSize (drop (offset t) (audioBuffer t)) in
      suspend t (ws_send (turn t) (Media (to_stream t) frame) s)
    else after_loop t s
  else after_loop t s.

(** [sendAudioFrames(audioBuffer, ws, streamSid, index)] up to its first
    [await]. *)
Definition sendAudioFrames (audio : buffer) (stream : option string) (i : nat)
    (s : session) : session :=
  let s' := set_turns (S (turns s)) s in
  if decide (i = interactionCount s) then
    if is_open s then
      sendBufferedAudio
        {| turn := turns s; index := i; audioBuffer := audio;
           to_stream := stream; offset := 0; returned := false |} s'
    else s'
  else s'.

Definition find_transmission (n : nat) (s : session) : option transmission :=
  List.find (fun t => Nat.eqb (turn t) n) (transmissions s).

(** Names bound where the handlers of [handleWebSocket] run: the top level
    of the controller's file, the variables and functions of
    [handleWebSocket], the parameters and locals of its handlers, and what
    the runtime provides. *)
Definition controller_bindings : list string :=
  ["twilio"; "generateTTS"; "processTranscript"; "uuidv4"; "createClient";
   "LiveTranscriptionEvents"; "MongoClient"; "dotenv"; "TWILIO_ACCOUNT_SID";
   "TWILIO_AUTH_TOKEN"; "TWILIO_PHONE_NUMBER"; "twilioClient"; "client";
   "twilioStreamWebhook"; "handleWebSocket";
   "ws"; "req"; "streamSid"; "callSid"; "dgLive"; "audioBufferQueue";
   "phoneNumber"; "interactionCount"; "callerName"; "pingInterval";
   "sendAudioFrames"; "sendBufferedAudio";
   "message"; "data"; "transcription"; "alternatives"; "transcript";
   "extractedName"; "leadInfo"; "initialMessage"; "ttsAudioBuffer";
   "setInterval"; "clearInterval"]%string.

Definition controller_scope : list (string * value) :=
  opaque (controller_bindings ++ runtime_bindings).

Inductive event :=
(** socket messages *)
| MsgStart (streamSid callSid : string) (phoneNumber : option string)
| MsgMedia (payload : buffer)
| MsgStop
(** socket events: ['stop'], the closing handshake begun by the peer,
    ['close'] *)
| WsStop
| WsClosing
| WsClose
(** transcription connection events *)
| DgOpen
| DgClose
(** a handler of the transcription connection has its audio and calls
    [sendAudioFrames(audio, ws, streamSid, interactionCount)] *)
| AudioReady (audio : buffer)
(** the 20 ms timer of a transmission fires *)
| Timer (turn : nat)
(** the [await sendBufferedAudio(...)] of a transmission resumes *)
| Resume (turn : nat).

(** The [start] branch assigns [streamSid], [callSid] and [phoneNumber]
    and goes on to [deepgram.listen.live(...)]. The controller's file binds
    no [deepgram] (its sibling module declares one of its own), so reading
    the identifier throws a [ReferenceError]: the run of the handler ends
    there, [dgLive] keeps its value and no handler of a connection is
    registered. The events of a connection and [AudioReady] act on a
    session that has one. *)
Definition step (ev : event) (s : session) : session :=
  match ev with
  | MsgStart stream call phone =>
      let s' :=
        {| streamSid := Some stream; callSid := Some call; dgLive := dgLive s;
           audioBufferQueue := audioBufferQueue s;
           phoneNumber := (if nonempty phone then phone else phoneNumber s);
           interactionCount := interactionCount s;
           ws_readyState := ws_readyState s; sent := sent s;
           transmissions := transmissions s; turns := turns s |} in
      match identifier "deepgram" controller_scope with
      | Ok _ =>
          set_dgLive (Some {| readyState := 0; received := []; finished := false |}) s'
      | Throw _ => s'
      end
  | MsgMedia payload =>
      match dgLive s with
      | Some d =>
          if decide (readyState d = 1) then
            set_dgLive (Some {| readyState := readyState d;
                                received := received d ++ [payload];
                                finished := finished d |}) s
          else set_audioBufferQueue (audioBufferQueue s ++ [payload]) s
      | None => set_audioBufferQueue (audioBufferQueue s ++ [payload]) s
      end
  | MsgStop => ws_close (finish_dgLive s)
  | WsStop => ws_close (finish_dgLive s)
  | WsClosing => ws_close s
  | WsClose =>
      set_audioBufferQueue [] (finish_dgLive (set_ws_readyState CLOSED s))
  | DgOpen =>
      match dgLive s with
      | Some d =>
          if decide (readyState d = 0) then
            set_dgLive (Some {| readyState := 1; received := received d;
                                finished := finished d |}) s
          else s
      | None => s
      end
  | DgClose =>
      match dgLive s with
      | Some d =>
          set_dgLive (Some {| readyState := 3; received := received d;
                              finished := finished d |}) s
      | None => s
      end
  | AudioReady audio =>
      match dgLive s with
      | Some _ => sendAudioFrames audio (streamSid s) (interactionCount s) s
      | None => s
      end
  | Timer n =>
      match find_transmission n s with
      | Some t =>
          if returned t then s
          else sendBufferedAudio (with_offset (offset t + frameSize) t) s
      | None => s
      end
  | Resume n =>
      match find_transmission n s with
      | Some t =>
          if returned t then
            set_interactionCount (S (interactionCount s))
              (set_transmissions (other_transmissions n s) s)
          else s
      | None => s
      end
  end.

Definition run (evs : list event) (s : session) : session :=
  fold_left (fun s ev => step ev s) evs s.

(** *** The transcript handler, up to its call of [sendAudioFrames] *)

(** [callerName]: the empty string at first, then what [processTranscript]
    returned. *)
Inductive caller_name :=
| NameText (s : string)
| NameReply (r : reply).

Definition name_set (c : caller_name) : bool :=
  match c with
  | NameText s => negb (String.eqb s EmptyString)
  | NameReply _ => true
  end.

(** [`${callerName}`]. *)
Definition name_text (c : caller_name) : string :=
  match c with
  | NameText s => s
  | NameReply _ => "[object Object]"%string
  end.

Definition text_value (v : option string) : value :=
  match v with
  | Some s => VStr s
  | None => VNull
  end.

(** The object [processTranscript] returns, as a value. *)
Definition reply_value (r : reply) : value :=
  VObj [("response"%string, text_value (response r));
        ("extractedName"%string, text_value (extractedName r))].

(** The arguments of one call of [processTranscript]. *)
Record invocation := {
  inv_transcript : option string;
  inv_sessionId : key;
  inv_currentName : option string
}.

Record handler_state := {
  service : Service.state;
  callerName : caller_name;
  invocations : list invocation
}.

Definition handler_initial : handler_state :=
  {| service := Service.initial; callerName := NameText EmptyString;
     invocations := [] |}.

(** A call into [deepgramService.js]. *)
Definition in_service {A} (m : M Service.state A) : M handler_state A :=
  fun h =>
    let '(r, s') := m (service h) in
    (r, {| service := s'; callerName := callerName h;
           invocations := invocations h |}).

Definition invoke (transcript : option string) (sessionId : key)
    (currentName : option string) (llm : llm_outcome) (db : appointment_store)
    : M handler_state reply :=
  modify (fun h =>
    {| service := service h; callerName := callerName h;
       invocations := invocations h
                      ++ [{| inv_transcript := transcript;
                             inv_sessionId := sessionId;
                             inv_currentName := currentName |}] |});;
  in_service (processTranscript transcript sessionId currentName llm db).

Definition assign_callerName (c : caller_name) : M handler_state () :=
  modify (fun h =>
    {| service := service h; callerName := c; invocations := invocations h |}).

(** The handler of [LiveTranscriptionEvents.Transcript]: the audio it goes
    on to pass to [sendAudioFrames], or [None] when it has nothing to say.
    [processTranscript(transcript, true)] binds [sessionId] to [true] and
    leaves [currentName] to its default; [processTranscript(transcript)]
    leaves both. Nothing in scope binds [updateLeadInfo]: the call of it
    throws a [ReferenceError] once [callerName] is assigned. *)
Definition on_transcript (is_final : bool) (transcript : string)
    (llm : llm_outcome) (db : appointment_store) (speak : speak_outcome)
    : M handler_state (option buffer) :=
  if is_final then
    if negb (String.eqb (trim transcript) EmptyString) then
      known ← gets (fun h => name_set (callerName h));
      if negb known then
        extractedName ← invoke (Some transcript) (KBool true) None llm db;
        if truthy (reply_value extractedName) then
          assign_callerName (NameReply extractedName);;
          updateLeadInfo ← lift_exc (identifier "updateLeadInfo" controller_scope);
          name ← gets (fun h => name_text (callerName h));
          let responseMessage :=
            ("Nice to meet you, " ++ name ++ ". How can I assist you today?")%string in
          ttsAudioBuffer ← in_service (generateTTS (VStr responseMessage) speak);
          mret (Some ttsAudioBuffer)
        else
          assistantResponse ← invoke (Some transcript) KUndefined None llm db;
          ttsAudioBuffer ← in_service (generateTTS (reply_value assistantResponse) speak);
          mret (Some ttsAudioBuffer)
      else
        assistantResponse ← invoke (Some transcript) KUndefined None llm db;
        ttsAudioBuffer ← in_service (generateTTS (reply_value assistantResponse) speak);
        mret (Some ttsAudioBuffer)
    else mret None
  else mret None.

End Controller.

(** ** Vocabulary of the statements

    Predicates the theorems are stated with, and the concrete calls,
    answers and event histories they are tried on. *)

Import Service.
Import Controller.

(** *** The caches *)

(** The state a successful request leaves behind. *)
Definition stored (text : string) (out : speak_outcome) (body : buffer)
    (s : state) : state :=
  let t := (now s + speak_latency out)%Z in
  {| now := t;
     ttsCache := manageCache (JsMap.set text {| data := body; timestamp := t |} (ttsCache s));
     conversationCache := conversationCache s;
     requests := requests s ++ [ReqSpeak text] |}.


(** The same frame, [dt] later. *)
Definition later (dt : Z) (fr : frame) : frame := on_global (elapse dt) fr.

(** A computation is timeless when running it later gives the same result
    and the same state, later. *)
Definition timeless {A} (m : M frame A) : Prop :=
  ∀ dt fr, m (later dt fr) = ((m fr).1, later dt (m fr).2).

(** *** Frames of [processTranscript] *)

(** The frame a call starts from. *)
Definition fresh_frame (s : state) : frame :=
  {| global := s; conversationHistory := Fresh [];
     aiResponse := None; extractedName_var := None |}.

(** The turns the local [conversationHistory] refers to. *)
Definition record_of (fr : frame) : list chat_message :=
  items_of (conversationHistory fr) (global fr).

(** A reference into the cache is to the record of this session. *)
Definition tied (sid : key) (fr : frame) : Prop :=
  match conversationHistory fr with
  | Cached k => k = sid ∧ sid ∈ JsMap.keys (conversationCache (global fr))
  | Fresh _ => True
  end.

(** The turn pushed for the caller's words. *)
Definition caller_turn (transcript : string) : chat_message :=
  {| msg_role := user; content := Some (trim transcript) |}.

(** What [conversationCache.get(sessionId) || []] finds. *)
Definition stored_history (sid : key) (s : state) : list chat_message :=
  default [] (JsMap.get sid (conversationCache s)).

(** The reply after the fallback of [if (!aiResponse)]. *)
Definition final_reply (ai : option string) (message : llm_message) : option string :=
  if nonempty ai then ai
  else if nonempty (llm_content message) then llm_content message
       else Some "How can I assist you today?"%string.

(** The history after [if (length > MAX_HISTORY) slice(-MAX_HISTORY)]. *)
Definition capped (h : list chat_message) : list chat_message :=
  if decide (CACHE_CONFIG.MAX_HISTORY < length h)
  then slice_last CACHE_CONFIG.MAX_HISTORY h else h.

(** The model answers in time with [message] as its first choice. *)
Definition answers (llm : llm_outcome) (message : llm_message) : Prop :=
  (llm_latency llm < 10000)%Z
  ∧ ∃ rest, llm_result_of llm = LlmResponds (message :: rest).

(** The interpretation of the function call throws. *)
Definition interpretation_throws (transcript : string) (currentName : option string)
    (fc : function_call) (db : appointment_store) : Prop :=
  ∃ fr e fr',
    interpret_function_call transcript currentName fc db fr = (Throw e, fr').

(** The model does not answer: it is late, it rejects, or it sends no
    choice. *)
Definition model_fails (llm : llm_outcome) : Prop :=
  (10000 ≤ llm_latency llm)%Z
  ∨ (∃ e, llm_result_of llm = LlmRejects e)
  ∨ llm_result_of llm = LlmResponds [].

(** A computation keeps the relation [R] between the frame it starts from
    and the frame it ends in. *)
Definition preserves (R : relation frame) {A} (m : M frame A) : Prop :=
  ∀ fr, R fr (m fr).2.

(** The conversation record is left alone: same reference, same cache. *)
Definition same_record (fr fr' : frame) : Prop :=
  conversationHistory fr' = conversationHistory fr
  ∧ conversationCache (global fr') = conversationCache (global fr).

(** The result of a computation does not depend on the frame it runs on. *)
Definition oblivious {A} (m : M frame A) : Prop :=
  ∀ fr1 fr2, (m fr1).1 = (m fr2).1.

Definition is_create (r : request) : Prop :=
  match r with
  | ReqCreateAppointment _ _ _ => True
  | _ => False
  end.

(** No request to create an appointment is added. *)
Definition no_create (fr fr' : frame) : Prop :=
  ∀ r, r ∈ requests (global fr') → is_create r → r ∈ requests (global fr).

(** *** The controller *)

(** A frame loop is between two frames. *)
Definition in_progress (s : session) : bool :=
  existsb (fun t => negb (returned t)) (transmissions s).



(** The chunks handed to the transcription connection, none when there
    is no connection. *)
Definition relayed (s : session) : list buffer :=
  default [] (received <$> dgLive s).

(** *** Answers of the outside *)

Definition greeting_text : string := "Hello! May I know your name, please?".

Definition greeting_audio : buffer :=
  [Byte.x7f; Byte.xff; Byte.x7e; Byte.xfe].

Definition speak_ok (body : buffer) : speak_outcome :=
  {| speak_latency := 350; speak_result_of := SpeakResponds 200 body |}.

Definition speak_unavailable : speak_outcome :=
  {| speak_latency := 120;
     speak_result_of := SpeakRejects (Error "Request failed with status code 503") |}.

(** A model that answers in plain text. *)
Definition llm_says (text : string) : llm_outcome :=
  {| llm_latency := 800;
     llm_result_of :=
       LlmResponds [{| llm_content := Some text; llm_function_call := None |}] |}.

(** A model that asks for a function with the given arguments. *)
Definition llm_calls (name : string) (arguments : exc value) : llm_outcome :=
  {| llm_latency := 1200;
     llm_result_of :=
       LlmResponds [{| llm_content := None;
                       llm_function_call :=
                         Some {| fc_name := name; fc_arguments := arguments |} |}] |}.

Definition malformed : exc value :=
  Throw (SyntaxError "Unexpected end of JSON input").

Definition llm_times_out : llm_outcome :=
  {| llm_latency := 12000;
     llm_result_of :=
       LlmResponds [{| llm_content := Some "Too late";
                       llm_function_call := None |}] |}.

Definition alex_introduces : llm_outcome :=
  llm_calls "extractName"
    (Ok (VObj [("name"%string, VStr "Alex"); ("confidence"%string, VBool true)])).

Definition schedule_request : value :=
  VObj [("appointmentTime"%string, VStr "2025-03-03T10:00:00Z");
        ("action"%string, VStr "schedule")].

(** An appointment store with every slot free. *)
Definition open_calendar : appointment_store :=
  {| checkAvailability := fun _ => Ok (VBool true);
     nextTime := fun _ => Ok (VStr "2025-03-04T09:00:00Z");
     createAppointment := fun _ _ _ => Ok (VBool true) |}.

(** An appointment store where the slot asked for is taken and [next] is
    what the search for another slot returns. *)
Definition taken_calendar (next : value) : appointment_store :=
  {| checkAvailability := fun _ => Ok (VBool false);
     nextTime := fun _ => Ok next;
     createAppointment := fun _ _ _ => Ok (VBool true) |}.

(** *** States and histories *)

(** A history of 1000 insertions, each followed by a read of the oldest
    key; one more insertion evicts key 0. *)
Definition thousand_puts : list (access N nat) :=
  flat_map (fun i => [Put (N.of_nat i) i; Get 0%N]) (seq 0 1000).

Definition stale_greeting : state :=
  {| now := 3600000;
     ttsCache := [(greeting_text, {| data := greeting_audio; timestamp := 0 |})];
     conversationCache := [];
     requests := [] |}.

Definition after_first_turn : state :=
  (processTranscript (Some "Hi there") (KStr "MZ0001") (Some "Alex")
     (llm_says "Hello Alex, how can I help?") open_calendar Service.initial).2.

(** Five exchanges fill the history of a session to the cap. *)
Fixpoint converse (n : nat) (s : state) : state :=
  match n with
  | O => s
  | S n' =>
      (processTranscript (Some "And then?") (KStr "MZ0001") (Some "Alex")
         (llm_says "Let me check.") open_calendar (converse n' s)).2
  end.

(** Five frames of audio. *)
Definition five_frames : buffer :=
  repeat Byte.x11 160 ++ repeat Byte.x22 160 ++ repeat Byte.x33 160
  ++ repeat Byte.x44 160 ++ repeat Byte.x55 160.

(** A session in which the transcription connection exists and is open.
    The code as written brings no session there, since its [start] branch
    throws; it is the state in which [sendAudioFrames] and
    [sendBufferedAudio] have something to do, given as it would be. *)
Definition connected_session : session :=
  {| streamSid := Some "MZ0001"%string; callSid := Some "CA0001"%string;
     dgLive := Some {| readyState := 1; received := []; finished := false |};
     audioBufferQueue := []; phoneNumber := Some "+15551234567"%string;
     interactionCount := 0; ws_readyState := OPEN; sent := [];
     transmissions := []; turns := 0 |}.

(** The same, with the connection not open yet. *)
Definition awaiting_open : session :=
  set_dgLive (Some {| readyState := 0; received := []; finished := false |})
    connected_session.

(** The audio of a greeting is ready and its loop sends three frames. *)
Definition three_frames_out : list event :=
  [AudioReady five_frames; Timer 0; Timer 0].

Definition one_frame : buffer := repeat Byte.xaa 160.


Definition chunk1 : buffer := [Byte.x7f; Byte.x7e; Byte.x7d].
Definition chunk2 : buffer := [Byte.xff; Byte.xfe; Byte.xfd].
Definition chunk3 : buffer := [Byte.x55; Byte.x54; Byte.x53].

(** A call as the code receives it: start, then two chunks of audio. *)
Definition call_begins : list event :=
  [MsgStart "MZ0001" "CA0001" (Some "+15551234567"%string);
   MsgMedia chunk1; MsgMedia chunk2].


(** ** Further vocabulary: the service over many calls *)

(** The text is white space from end to end. *)
Fixpoint all_space (s : string) : bool :=
  match s with
  | EmptyString => true
  | String c r => Js.is_space c && all_space r
  end.

(** A call into [deepgramService.js], or time passing between two calls. *)
Inductive service_call :=
| Synthesize (text : value) (out : speak_outcome)
| Utter (transcript : option string) (sessionId : key)
    (currentName : option string) (llm : llm_outcome) (db : appointment_store)
| Wait (dt : Z).

Definition serve (c : service_call) (s : state) : state :=
  match c with
  | Synthesize text out => (generateTTS text out s).2
  | Utter transcript sessionId currentName llm db =>
      (processTranscript transcript sessionId currentName llm db s).2
  | Wait dt => elapse dt s
  end.

Definition serve_all (cs : list service_call) (s : state) : state :=
  fold_left (fun s c => serve c s) cs s.

(** The synthesized-audio cache is left alone. *)
Definition same_ttsCache (fr fr' : frame) : Prop :=
  ttsCache (global fr') = ttsCache (global fr).

(** The messages [processTranscript] sends to the model for a session
    whose record holds [old]. *)
Definition prompt_context (currentName : option string)
    (turns : list chat_message) : list chat_message :=
  {| msg_role := system;
     content := Some (if nonempty currentName then prompt
                      else (prompt ++ ask_for_name)%string) |}
  :: List.filter (fun msg => bool_decide (content msg ≠ None)) turns.

(** The frame in which the model's message is interpreted: the request is
    logged, the answer has taken its time, the caller's turn is in the
    record. *)
Definition frame_at_answer (transcript : string) (sid : key)
    (currentName : option string) (llm : llm_outcome) (s : state) : frame :=
  let turns := stored_history sid s ++ [caller_turn transcript] in
  let present := bool_decide (is_Some (JsMap.get sid (conversationCache s))) in
  {| global :=
       elapse (llm_latency llm)
         (log (ReqChat (prompt_context currentName turns) function_names
                 (if nonempty currentName then Auto else Forced "extractName"))
            (if present
             then set_conversationCache (JsMap.set sid turns) s
             else s));
     conversationHistory := if present then Cached sid else Fresh turns;
     aiResponse := None;
     extractedName_var := None |}.

(** The frame after the interpretation. *)
Definition frame_interpreted (transcript : string) (sid : key)
    (currentName : option string) (llm : llm_outcome) (db : appointment_store)
    (message : llm_message) (s : state) : frame :=
  (interpret transcript currentName message db
     (frame_at_answer transcript sid currentName llm s)).2.

(** The requests made between two frames all satisfy [P]. *)
Definition adds_only (P : request → Prop) (fr fr' : frame) : Prop :=
  ∃ more, requests (global fr') = requests (global fr) ++ more ∧ Forall P more.

(** A request to the appointment store. *)
Definition is_store (r : request) : Prop :=
  match r with
  | ReqCheckAvailability _ | ReqNextTime _ | ReqCreateAppointment _ _ _ => True
  | _ => False
  end.

Definition is_speak (r : request) : Prop :=
  match r with
  | ReqSpeak _ => True
  | _ => False
  end.

(** What [if (!text?.trim())] lets through: a string with something other
    than white space in it. *)
Definition speakable (text : value) : bool :=
  match text with
  | VStr t => negb (all_space t)
  | _ => false
  end.

(** [null], [undefined] and strings: the values on which [text?.trim()]
    does not throw. *)
Definition trimmable (text : value) : bool :=
  match text with
  | VUndefined | VNull | VStr _ => true
  | _ => false
  end.

(** What [if (!transcript?.trim())] catches. *)
Definition blank_transcript (transcript : option string) : bool :=
  match transcript with
  | Some t => all_space t
  | None => true
  end.

(** The chat request of a call. *)
Definition chat_request (transcript : string) (sid : key)
    (currentName : option string) (s : state) : request :=
  ReqChat
    (prompt_context currentName (stored_history sid s ++ [caller_turn transcript]))
    function_names
    (if nonempty currentName then Auto else Forced "extractName").

(** A second of silence between two calls, a greeting synthesized twice
    and two utterances of one session. *)
Definition busy_hour : list service_call :=
  [Synthesize (VStr greeting_text) (speak_ok greeting_audio);
   Wait 1000;
   Utter (Some "Hi there") (KStr "MZ0001") None alex_introduces open_calendar;
   Synthesize (VStr greeting_text) speak_unavailable;
   Utter (Some "Book me in") (KStr "MZ0001") (Some "Alex")
     (llm_calls "scheduleAppointment" (Ok schedule_request)) open_calendar].

(** The error of a refused text. *)
Definition refusal (text : value) : error :=
  if trimmable text then empty_text else TypeError "text.trim is not a function".

Definition llm_silent : llm_outcome :=
  {| llm_latency := 400; llm_result_of := LlmResponds [] |}.

(** The model asks for the function [name] with arguments that parse to
    [args]. *)
Definition asks_for (message : llm_message) (name : string) (args : value) : Prop :=
  llm_function_call message = Some {| fc_name := name; fc_arguments := Ok args |}.

Definition check_request : value :=
  VObj [("appointmentTime"%string, VStr "2025-03-03T10:00:00Z");
        ("action"%string, VStr "check")].

Definition suggest_request : value :=
  VObj [("appointmentTime"%string, VStr "2025-03-03T10:00:00Z");
        ("action"%string, VStr "suggest_next")].

Definition unsure_of_name : value :=
  VObj [("name"%string, VStr "Al"); ("confidence"%string, VBool false)].

Definition time_request : value :=
  VObj [("appointmentTime"%string, VStr "2025-03-03T10:00:00Z");
        ("confidence"%string, VBool true)].

(** The turn pushed for the reply. *)
Definition reply_turn (r : reply) : chat_message :=
  {| msg_role := assistant; content := response r |}.


(** *** A full cache *)




(** ** Further vocabulary: the controller *)

(** The two ways the handler calls [processTranscript]. *)
Definition first_call (transcript : string) : invocation :=
  {| inv_transcript := Some transcript; inv_sessionId := KBool true;
     inv_currentName := None |}.

Definition later_call (transcript : string) : invocation :=
  {| inv_transcript := Some transcript; inv_sessionId := KUndefined;
     inv_currentName := None |}.

(** The handler after a caller has given the name Alex. *)
Definition alex_known : handler_state :=
  (on_transcript true "My name is Alex" alex_introduces open_calendar
     (speak_ok greeting_audio) handler_initial).2.

(** The audio sent so far for turn [n]: the payloads of its media
    messages, in the order they were sent. *)
Definition frames_of (n : nat) (out : list (nat * message_out)) : buffer :=
  flat_map (fun km =>
    match km.2 with
    | Media _ payload => if Nat.eqb km.1 n then payload else []
    | Mark _ => []
    end) out.

(** The mark of turn [n] has been sent. *)
Definition marked (n : nat) (out : list (nat * message_out)) : Prop :=
  ∃ stream, (n, Mark stream) ∈ out.


(** What has been sent for turn [n] is the beginning of [audio], and all
    of it if the mark has gone out. *)
Definition sent_from (audio : buffer) (n : nat) (out : list (nat * message_out))
    : Prop :=
  frames_of n out `prefix_of` audio ∧ (marked n out → frames_of n out = audio).

(** A transmission between two frames has sent its audio up to the frame
    at its offset, and no mark. *)
Definition on_track (out : list (nat * message_out)) (t : transmission) : Prop :=
  returned t = false →
  offset t < length (audioBuffer t)
  ∧ frames_of (turn t) out = take (offset t + frameSize) (audioBuffer t)
  ∧ ¬ marked (turn t) out.

(** The audio the delivery of [ev] hands to [sendAudioFrames]: that of an
    [AudioReady] in a session that has a connection. *)
Definition call_of (ev : event) (s : session) : list buffer :=
  match ev, dgLive s with
  | AudioReady audio, Some _ => [audio]
  | _, _ => []
  end.

(** The audio of every call of [sendAudioFrames] made while [evs] are
    delivered to [s], in the order of the calls. In a session that has
    made no call before, the audio of turn [n] is at position [n]. *)
Fixpoint handed (evs : list event) (s : session) : list buffer :=
  match evs with
  | [] => []
  | ev :: rest => call_of ev s ++ handed rest (step ev s)
  end.

(** No call of [sendAudioFrames] has been made yet. *)
Definition fresh (s : session) : Prop :=
  turns s = 0 ∧ transmissions s = [] ∧ sent s = [].

(** What holds of a session in which the calls of [sendAudioFrames] so
    far were handed the audio [h]: the turns are numbered by the calls,
    every transmission carries the audio of its turn and is on track, and
    what was sent for a turn comes from the audio of that turn. *)
Definition coherent (h : list buffer) (s : session) : Prop :=
  turns s = length h
  ∧ Forall (fun km => km.1 < turns s) (sent s)
  ∧ Forall (fun t => h !! turn t = Some (audioBuffer t) ∧ on_track (sent s) t)
      (transmissions s)
  ∧ ∀ n audio, h !! n = Some audio → sent_from audio n (sent s).


(** Audio of 400 bytes: two full frames and a short one. *)
Definition short_tail : buffer :=
  repeat Byte.x11 160 ++ repeat Byte.x22 160 ++ repeat Byte.x33 80.

(** Two turns whose frames interleave: the audio of the second is ready
    while the first is between its frames; the second sends its frame and
    its mark, the first goes on. *)
Definition two_turns : list event :=
  [AudioReady short_tail; AudioReady one_frame; Timer 1; Timer 0; Timer 0;
   Timer 0; Resume 1; Resume 0].

(** ** The review page

    [ReviewPage.js] keeps the reviews, the filter and the sort order in
    the state of the page, and the draft of a review in the state of the
    form. What the components compute from them is below; the markup is
    left out. *)

Module ReviewPage.

Local Open Scope string_scope.

Record review := {
  id : nat;
  author : string;
  rating : nat;
  date : string;
  text : string
}.

Definition initialReviews : list review :=
  [ {| id := 1; author := "John Doe"; rating := 5; date := "2023-05-15";
       text := "Excellent product! Exceeded my expectations." |};
    {| id := 2; author := "Jane Smith"; rating := 4; date := "2023-05-10";
       text := "Great product, but could use some minor improvements." |};
    {| id := 3; author := "Mike Johnson"; rating := 5; date := "2023-05-05";
       text := "Absolutely love it! Will definitely buy again." |};
    {| id := 4; author := "Emily Brown"; rating := 3; date := "2023-04-30";
       text := "Decent product, but not as good as I hoped." |};
    {| id := 5; author := "Chris Lee"; rating := 2; date := "2023-04-25";
       text := "Disappointed with the quality. Expected better." |} ].

(** *** [ReviewSummary] *)

Definition totalReviews (reviews : list review) : nat := length reviews.

(** The object the [reduce] builds, read with [ratingCounts[star] || 0]. *)
Definition ratingCounts (reviews : list review) : nat → nat :=
  fold_left
    (fun acc review star =>
       if Nat.eqb star (rating review) then acc star + 1 else acc star)
    reviews (fun _ => 0).

(** *** [ReviewList]

    [parseInt] and the time value of [new Date(date)] belong to the
    runtime and are taken as given. Every date on the page parses: the
    initial ones are written out above, the others come from
    [toISOString]. *)

Section runtime.
Variable parseInt : string → option Z.
Variable time_of : string → Z.

(** The callback of [filter]. *)
Definition shown (filter : string) (r : review) : bool :=
  String.eqb filter "all"
  || match parseInt filter with
     | Some n => (Z.of_nat (rating r) =? n)%Z
     | None => false
     end.

(** The callback of [sort]. *)
Definition by_date (sort : string) (a b : review) : Z :=
  if String.eqb sort "newest" then (time_of (date b) - time_of (date a))%Z
  else (time_of (date a) - time_of (date b))%Z.

(** [Array.prototype.sort] is stable; with a comparator that orders the
    elements its result is the one of a stable insertion sort. *)
Fixpoint insert (cmp : review → review → Z) (x : review) (l : list review)
    : list review :=
  match l with
  | [] => [x]
  | y :: l' => if (cmp x y <=? 0)%Z then x :: l else y :: insert cmp x l'
  end.

Definition sorted_by (cmp : review → review → Z) (l : list review) : list review :=
  foldr (insert cmp) [] l.

Definition ReviewList (reviews : list review) (filter sort : string) : list review :=
  sorted_by (by_date sort) (List.filter (shown filter) reviews).
End runtime.

(** *** [ReviewForm] and [ReviewPage] *)

(** The state of the form. *)
Record draft := {
  draft_author : string;
  draft_rating : nat;
  draft_text : string
}.

Definition empty_draft : draft :=
  {| draft_author := EmptyString; draft_rating := 0; draft_text := EmptyString |}.

(** [setReviews([{ id: reviews.length + 1, ...newReview }, ...reviews])]. *)
Definition handleNewReview (author : string) (rating : nat) (text date : string)
    (reviews : list review) : list review :=
  {| id := length reviews + 1; author := author; rating := rating;
     date := date; text := text |} :: reviews.

(** [handleSubmit] on the day [today]. *)
Definition handleSubmit (today : string) (d : draft) (reviews : list review)
    : draft * list review :=
  if negb (String.eqb (draft_author d) EmptyString)
     && negb (Nat.eqb (draft_rating d) 0)
     && negb (String.eqb (draft_text d) EmptyString)
  then (empty_draft,
        handleNewReview (draft_author d) (draft_rating d) (draft_text d) today
          reviews)
  else (d, reviews).

(** What a visitor does: types into a field, clicks the star with index
    [i], of which there are five, or submits the form. *)
Inductive action :=
| TypeAuthor (s : string)
| ClickStar (i : nat)
| TypeText (s : string)
| Submit (today : string).

Definition act (a : action) (st : draft * list review) : draft * list review :=
  let '(d, reviews) := st in
  match a with
  | TypeAuthor s =>
      ({| draft_author := s; draft_rating := draft_rating d;
          draft_text := draft_text d |}, reviews)
  | ClickStar i =>
      if Nat.ltb i 5
      then ({| draft_author := draft_author d; draft_rating := i + 1;
               draft_text := draft_text d |}, reviews)
      else st
  | TypeText s =>
      ({| draft_author := draft_author d; draft_rating := draft_rating d;
          draft_text := s |}, reviews)
  | Submit today => handleSubmit today d reviews
  end.

Definition visit (actions : list action) : draft * list review :=
  fold_left (fun st a => act a st) actions (empty_draft, initialReviews).

End ReviewPage.

(** The bars of [ReviewSummary], one for each of [[5, 4, 3, 2, 1]]. *)
Definition bars (reviews : list ReviewPage.review) : list nat :=
  ReviewPage.ratingCounts reviews <$> [5; 4; 3; 2; 1].

(** A review is complete: one to five stars, an author and a text. *)
Definition rated (r : ReviewPage.review) : Prop :=
  1 ≤ ReviewPage.rating r ≤ 5
  ∧ ReviewPage.author r ≠ EmptyString ∧ ReviewPage.text r ≠ EmptyString.

(** Two reviews are in the order the sort option asks for. *)
Definition in_order (time_of : string → Z) (sort : string)
    (a b : ReviewPage.review) : Prop :=
  if String.eqb sort "newest"
  then (time_of (ReviewPage.date b) ≤ time_of (ReviewPage.date a))%Z
  else (time_of (ReviewPage.date a) ≤ time_of (ReviewPage.date b))%Z.

(** The reviews of one day. *)
Definition of_day (time_of : string → Z) (t : Z) (r : ReviewPage.review) : bool :=
  (time_of (ReviewPage.date r) =? t)%Z.

(** What every sequence of actions keeps: the draft has at most five
    stars, the ids are the numbers from one to the number of reviews, and
    every review is complete. *)
Definition page_ok (st : ReviewPage.draft * list ReviewPage.review) : Prop :=
  ReviewPage.draft_rating st.1 ≤ 5
  ∧ ReviewPage.id <$> st.2 ≡ₚ seq 1 (length st.2)
  ∧ Forall rated st.2.
(** ** Facts about [Map] and the size cap *)

Section map_facts.
Context {K V : Type} `{EqDecision K}.
Implicit Types (m : JsMap.t K V) (k : K) (v : V).

Lemma get_set_same k v m : JsMap.get k (JsMap.set k v m) = Some v.
Proof.
  induction m as [|[k' v'] m IH]; simpl.
  - by rewrite decide_True.
  - destruct (decide (k = k')) as [->|Hne]; simpl.
    + by rewrite decide_True.
    + by rewrite decide_False.
Qed.

Lemma get_None_keys k m : JsMap.get k m = None ↔ k ∉ JsMap.keys m.
Proof.
  unfold JsMap.keys. induction m as [|[k0 v0] m IH]; simpl.
  - split; [intros _; apply not_elem_of_nil | done].
  - rewrite not_elem_of_cons. destruct (decide (k = k0)) as [->|Hk].
    + split; [done | intros [? _]; done].
    + rewrite IH. tauto.
Qed.

Lemma keys_set_present k v m :
  k ∈ JsMap.keys m → JsMap.keys (JsMap.set k v m) = JsMap.keys m.
Proof.
  unfold JsMap.keys. induction m as [|[k0 v0] m IH]; simpl.
  - by intros ?%elem_of_nil.
  - intros Hin. destruct (decide (k = k0)) as [->|Hk]; simpl; [done|].
    f_equal. apply IH. apply elem_of_cons in Hin.
    destruct Hin as [->|Hin]; [done | exact Hin].
Qed.

Lemma set_absent k v m :
  k ∉ JsMap.keys m → JsMap.set k v m = (m ++ [(k, v)])%list.
Proof.
  unfold JsMap.keys. induction m as [|[k0 v0] m IH]; simpl; [done|].
  rewrite not_elem_of_cons. intros [Hk Hin].
  rewrite decide_False by done. by rewrite IH.
Qed.

Lemma size_set_present k v m :
  k ∈ JsMap.keys m → JsMap.size (JsMap.set k v m) = JsMap.size m.
Proof.
  intros Hin.
  pose proof (keys_set_present k v m) as Hk.
  unfold JsMap.size, JsMap.keys in *.
  rewrite <- (length_fmap fst), <- (length_fmap fst m).
  rewrite Hk; [done|]. exact Hin.
Qed.

Lemma size_set_le k v m : JsMap.size (JsMap.set k v m) ≤ S (JsMap.size m).
Proof.
  destruct (decide (k ∈ JsMap.keys m)) as [Hin|Hin].
  - rewrite size_set_present by done. lia.
  - rewrite set_absent by done. unfold JsMap.size.
    rewrite length_app. simpl. lia.
Qed.

(** The cap keeps the size within bounds: one eviction is enough after
    one [set]. *)
Lemma manageCache_size m :
  JsMap.size m ≤ S CACHE_CONFIG.MAX_SIZE →
  JsMap.size (manageCache m) ≤ CACHE_CONFIG.MAX_SIZE.
Proof.
  unfold manageCache. intros Hle. case_decide; [|lia].
  destruct m as [|[k v] m]; simpl in *; [lia|].
  rewrite decide_True by done. unfold JsMap.size in *. simpl in *. lia.
Qed.

Lemma manageCache_within m :
  JsMap.size m ≤ CACHE_CONFIG.MAX_SIZE → manageCache m = m.
Proof. unfold manageCache. intros Hle. case_decide; [lia | done]. Qed.

Lemma manageCache_over k v m :
  CACHE_CONFIG.MAX_SIZE < JsMap.size ((k, v) :: m) →
  manageCache ((k, v) :: m) = m.
Proof.
  unfold manageCache. intros Hlt. rewrite decide_True by done.
  simpl. by rewrite decide_True.
Qed.

(** A key just stored survives the cap when the cache was within bounds
    before the [set]. *)
Lemma get_after_store k v m :
  JsMap.size m ≤ CACHE_CONFIG.MAX_SIZE →
  JsMap.get k (manageCache (JsMap.set k v m)) = Some v.
Proof.
  intros Hle. destruct (decide (k ∈ JsMap.keys m)) as [Hin|Hin].
  - rewrite manageCache_within; [apply get_set_same|].
    rewrite size_set_present by done. done.
  - rewrite set_absent by done.
    destruct m as [|[k0 v0] m].
    + rewrite manageCache_within.
      * simpl. by rewrite decide_True.
      * unfold JsMap.size, CACHE_CONFIG.MAX_SIZE. simpl. lia.
    + assert (k ≠ k0) as Hne.
      { intros ->. apply Hin. unfold JsMap.keys. simpl. apply list_elem_of_here. }
      change (((k0, v0) :: m) ++ [(k, v)])%list
        with ((k0, v0) :: (m ++ [(k, v)]))%list.
      destruct (decide (CACHE_CONFIG.MAX_SIZE
                        < JsMap.size ((k0, v0) :: (m ++ [(k, v)])%list))).
      * rewrite manageCache_over by done.
        rewrite <- set_absent.
        -- apply get_set_same.
        -- unfold JsMap.keys in *. simpl in Hin.
           rewrite not_elem_of_cons in Hin. tauto.
      * rewrite manageCache_within by lia.
        simpl. rewrite decide_False by done.
        rewrite <- set_absent.
        -- apply get_set_same.
        -- unfold JsMap.keys in *. simpl in Hin.
           rewrite not_elem_of_cons in Hin. tauto.
Qed.

Lemma store_size k v m :
  JsMap.size m ≤ CACHE_CONFIG.MAX_SIZE →
  JsMap.size (manageCache (JsMap.set k v m)) ≤ CACHE_CONFIG.MAX_SIZE.
Proof.
  intros Hle. apply manageCache_size.
  pose proof (size_set_le k v m). lia.
Qed.
End map_facts.

Section access_facts.
Context {K V : Type} `{EqDecision K}.

Lemma sorted_snoc (l : list nat) (n : nat) :
  StronglySorted lt l → Forall (fun t => t < n) l → StronglySorted lt (l ++ [n]).
Proof.
  induction 1 as [|x l Hs IH Hx]; intros Hall; simpl.
  - repeat constructor.
  - apply Forall_cons in Hall as [Hxn Hall]. constructor; [by apply IH|].
    apply Forall_app. split; [done|]. by constructor.
Qed.

Lemma stamp_old_keys k n (times : K → nat) (keys : list K) :
  k ∉ keys →
  (fun k' => if decide (k' = k) then n else times k') <$> keys = times <$> keys.
Proof.
  induction keys as [|k0 keys IH]; [done|].
  rewrite !fmap_cons, not_elem_of_cons. intros [Hne Hin]. cbn beta.
  rewrite decide_False by done. by rewrite IH.
Qed.

Lemma keys_snoc (cache : JsMap.t K V) k v :
  JsMap.keys (cache ++ [(k, v)]) = JsMap.keys cache ++ [k].
Proof. unfold JsMap.keys. by rewrite fmap_app. Qed.

Lemma manageCache_ordered times n (cache : JsMap.t K V) :
  StronglySorted lt (times <$> JsMap.keys cache) →
  Forall (fun t => t < n) (times <$> JsMap.keys cache) →
  JsMap.size cache ≤ S CACHE_CONFIG.MAX_SIZE →
  ordered times n (manageCache cache).
Proof.
  intros Hs Hall Hsz.
  destruct (decide (CACHE_CONFIG.MAX_SIZE < JsMap.size cache)) as [Hover|Hin].
  - destruct cache as [|[k0 v0] rest].
    { unfold JsMap.size in Hover. simpl in Hover. lia. }
    rewrite manageCache_over by done.
    unfold JsMap.keys in *. simpl in Hs, Hall.
    apply StronglySorted_inv in Hs as [Hs _].
    apply Forall_cons in Hall as [_ Hall].
    split_and!; [done.. |].
    unfold JsMap.size in *. simpl in Hsz. lia.
  - rewrite manageCache_within by lia. split_and!; [done.. | lia].
Qed.

Lemma apply_access_ordered (a : access K V) times n cache :
  ordered times n cache →
  ordered (stamp a n cache times) (S n) (apply_access a cache).
Proof.
  intros (Hs & Hall & Hsz). destruct a as [k v|k]; simpl.
  - unfold put. destruct (decide (k ∈ JsMap.keys cache)) as [Hin|Hin].
    + apply manageCache_ordered.
      * by rewrite keys_set_present.
      * rewrite keys_set_present by done.
        eapply Forall_impl; [exact Hall|]. simpl. lia.
      * rewrite size_set_present by done. lia.
    + rewrite set_absent by done. apply manageCache_ordered.
      * rewrite keys_snoc, fmap_app. simpl. rewrite decide_True by done.
        rewrite stamp_old_keys by done. by apply sorted_snoc.
      * rewrite keys_snoc, fmap_app. simpl. rewrite decide_True by done.
        rewrite stamp_old_keys by done. apply Forall_app. split.
        -- eapply Forall_impl; [exact Hall|]. simpl. lia.
        -- constructor; [lia | constructor].
      * unfold JsMap.size in *. rewrite length_app. simpl. lia.
  - split_and!; [done | | done].
    eapply Forall_impl; [exact Hall|]. simpl. lia.
Qed.

Lemma replay_ordered (accs : list (access K V)) : ∀ times n cache,
  ordered times n cache →
  ordered (insertion_times n accs cache times) (n + length accs) (replay accs cache).
Proof.
  induction accs as [|a accs IH]; intros times n cache Hord; simpl.
  - by rewrite Nat.add_0_r.
  - replace (n + S (length accs)) with (S n + length accs) by lia.
    apply IH. by apply apply_access_ordered.
Qed.

Lemma replay_app (accs1 accs2 : list (access K V)) cache :
  replay (accs1 ++ accs2) cache = replay accs2 (replay accs1 cache).
Proof. unfold replay. by rewrite fold_left_app. Qed.

Lemma insertion_times_app (accs1 accs2 : list (access K V)) : ∀ n cache times,
  insertion_times n (accs1 ++ accs2) cache times
  = insertion_times (n + length accs1) accs2 (replay accs1 cache)
      (insertion_times n accs1 cache times).
Proof.
  induction accs1 as [|a accs1 IH]; intros n cache times; simpl.
  - by rewrite Nat.add_0_r.
  - rewrite IH. by replace (S n + length accs1) with (n + S (length accs1)) by lia.
Qed.

(** Reads change nothing: the cache after a history is the cache after
    its writes alone. *)
Lemma replay_puts_only (accs : list (access K V)) : ∀ cache,
  replay (List.filter is_put accs) cache = replay accs cache.
Proof.
  induction accs as [|[k v|k] accs IH]; intros cache; simpl; [done | apply IH..].
Qed.
End access_facts.

(** ** The size cap evicts the least recently inserted entry *)

Section eviction.
Context {K V : Type} `{EqDecision K}.

Lemma MAX_SIZE_positive : 0 < CACHE_CONFIG.MAX_SIZE.
Proof. unfold CACHE_CONFIG.MAX_SIZE. lia. Qed.

Lemma empty_ordered : ordered (K:=K) (V:=V) (fun _ => 0) 0 [].
Proof.
  split_and!; [constructor | constructor |].
  unfold JsMap.size. simpl. lia.
Qed.

(** C7. Whatever reads and writes came before, a [put] that drives the
    cache over [MAX_SIZE] evicts exactly one entry, the first of the cache,
    and that entry entered the cache before every entry that stays,
    the new one included. Reads play no part: the cache is the one its
    writes alone produce. *)
Theorem put_evicts_least_recently_inserted
    (accs : list (access K V)) (k : K) (v : V) :
  let cache := replay accs [] in
  let after := replay (accs ++ [Put k v]) [] in
  let time_of := inserted_at (accs ++ [Put k v]) in
  CACHE_CONFIG.MAX_SIZE < JsMap.size (JsMap.set k v cache) →
  ∃ oldest rest,
    cache = oldest :: rest
    ∧ after = rest ++ [(k, v)]
    ∧ Forall (fun e => time_of oldest.1 < time_of e.1) after
    ∧ replay (List.filter is_put accs) [] = cache.
Proof.
  intros cache after time_of Hover.
  destruct (replay_ordered accs _ _ _ empty_ordered) as (Hs & Hall & Hsz).
  fold cache in Hs, Hall, Hsz. simpl in Hall.
  assert (k ∉ JsMap.keys cache) as Hnew.
  { intros Hin. rewrite size_set_present in Hover by done. lia. }
  rewrite set_absent in Hover by done.
  destruct cache as [|[k0 v0] rest] eqn:Hcache.
  { unfold JsMap.size in Hover. simpl in Hover.
    pose proof MAX_SIZE_positive. lia. }
  exists (k0, v0), rest.
  assert (after = rest ++ [(k, v)]) as Hafter.
  { unfold after. rewrite replay_app. fold cache. rewrite Hcache.
    simpl. unfold put. rewrite set_absent by done.
    by apply manageCache_over. }
  assert (k0 ≠ k) as Hk0.
  { intros ->. apply Hnew. unfold JsMap.keys. simpl. apply list_elem_of_here. }
  assert (∀ k', k' ≠ k → time_of k' = inserted_at accs k') as Hold.
  { intros k' Hne. unfold time_of, inserted_at.
    rewrite insertion_times_app. simpl. fold cache. rewrite Hcache.
    rewrite decide_False by done. by rewrite decide_False. }
  assert (time_of k = length accs) as Hk.
  { unfold time_of, inserted_at.
    rewrite insertion_times_app. simpl. fold cache. rewrite Hcache.
    rewrite decide_False by done. by rewrite decide_True. }
  split_and!; [done | done | | rewrite replay_puts_only; exact Hcache].
  rewrite Hafter. simpl. rewrite (Hold k0 Hk0).
  unfold JsMap.keys in Hs, Hall, Hnew. simpl in Hs, Hall, Hnew.
  apply StronglySorted_inv in Hs as [_ Hlt].
  apply Forall_cons in Hall as [Hk0n _].
  apply not_elem_of_cons in Hnew as [_ Hnew].
  apply Forall_app. split.
  - apply Forall_forall. intros [k' v'] Hin. simpl.
    assert (k' ∈ rest.*1) as Hin' by (apply (list_elem_of_fmap_2 fst _ _ Hin)).
    rewrite Hold by (intros ->; done).
    rewrite Forall_forall in Hlt. apply Hlt.
    by apply list_elem_of_fmap_2.
  - constructor; [|constructor]. simpl. rewrite Hk. exact Hk0n.
Qed.
End eviction.

(** The theorem on a cache filled by 1000 insertions, with a read after
    each: the insertion of key 1000 evicts key 0. *)
Lemma put_evicts_least_recently_inserted_witness :
  ∃ oldest rest,
    replay thousand_puts [] = oldest :: rest
    ∧ replay (thousand_puts ++ [Put 1000%N 7]) [] = rest ++ [(1000%N, 7)]
    ∧ Forall (fun e => inserted_at (thousand_puts ++ [Put 1000%N 7]) oldest.1
                       < inserted_at (thousand_puts ++ [Put 1000%N 7]) e.1)
        (replay (thousand_puts ++ [Put 1000%N 7]) [])
    ∧ replay (List.filter is_put thousand_puts) [] = replay thousand_puts [].
Proof.
  apply (put_evicts_least_recently_inserted thousand_puts 1000%N 7).
  apply Nat.ltb_lt. vm_compute. reflexivity.
Defined.

(** ** [generateTTS]: hits, misses and failures *)

Lemma trim_nonempty (text : string) :
  trim text ≠ EmptyString → String.eqb (trim text) EmptyString = false.
Proof. intros Hne. by apply String.eqb_neq. Qed.

Lemma request_speech_ok text out body s :
  speak_result_of out = SpeakResponds 200 body →
  request_speech text out s = (Ok body, stored text out body s).
Proof.
  intros Hres. unfold request_speech, try_catch, mbind, M_bind, modify, gets,
    mret, M_ret. simpl. by rewrite Hres.
Qed.



Lemma generateTTS_miss text out s :
  trim text ≠ EmptyString →
  (∀ c, JsMap.get text (ttsCache s) = Some c →
        (CACHE_CONFIG.TTL ≤ now s - timestamp c)%Z) →
  generateTTS (VStr text) out s = request_speech text out s.
Proof.
  intros Htext Hstale. unfold generateTTS.
  rewrite trim_nonempty by done.
  unfold mbind, M_bind, gets. simpl.
  destruct (JsMap.get text (ttsCache s)) as [c|] eqn:Hget; [|done].
  specialize (Hstale c eq_refl). apply Z.ltb_ge in Hstale. by rewrite Hstale.
Qed.

(** Either the cache answers and nothing changes, or the speech service is
    asked, or the text is refused before anything happens. *)
Lemma generateTTS_cases text out s :
  generateTTS text out s = ((generateTTS text out s).1, s)
  ∨ ∃ t, text = VStr t ∧ generateTTS text out s = request_speech t out s.
Proof.
  unfold generateTTS. destruct text as [| |b|n|t|l|l]; simpl; try by left.
  destruct (String.eqb (trim t) EmptyString); [by left|].
  unfold mbind, M_bind, gets, mret, M_ret. simpl.
  destruct (JsMap.get t (ttsCache s)) as [c|]; [|right; by exists t].
  destruct (now s - timestamp c <? CACHE_CONFIG.TTL)%Z;
    [by left | right; by exists t].
Qed.

(** The invariant of the synthesized-audio cache: it stays within the cap. *)
Lemma generateTTS_size text out s :
  JsMap.size (ttsCache s) ≤ CACHE_CONFIG.MAX_SIZE →
  JsMap.size (ttsCache (generateTTS text out s).2) ≤ CACHE_CONFIG.MAX_SIZE.
Proof.
  intros Hsz. destruct (generateTTS_cases text out s) as [->|(t & -> & ->)]; [done|].
  unfold request_speech, try_catch, mbind, M_bind, modify, gets, throw,
    mret, M_ret. simpl.
  destruct (speak_result_of out) as [e|status body]; simpl; [done|].
  destruct (status =? 200)%Z; simpl; [|done].
  by apply store_size.
Qed.

(** ** [processTranscript] never reads the clock

    A computation is timeless when running it later gives the same result
    and the same state, later. *)

Lemma timeless_ret {A} (a : A) : timeless (mret a).
Proof. by intros dt fr. Qed.

Lemma timeless_throw {A} (e : error) : timeless (throw (A:=A) e).
Proof. by intros dt fr. Qed.

Lemma timeless_lift_exc {A} (r : exc A) : timeless (lift_exc r).
Proof. by intros dt fr. Qed.

Lemma timeless_bind {A B} (m : M frame A) (f : A → M frame B) :
  timeless m → (∀ a, timeless (f a)) → timeless (m ≫= f).
Proof.
  intros Hm Hf dt fr. unfold mbind, M_bind. rewrite Hm.
  destruct (m fr) as [[a|e] fr']; simpl; [apply Hf | done].
Qed.

Lemma timeless_try_catch {A} (m : M frame A) (h : error → M frame A) :
  timeless m → (∀ e, timeless (h e)) → timeless (try_catch m h).
Proof.
  intros Hm Hh dt fr. unfold try_catch. rewrite Hm.
  destruct (m fr) as [[a|e] fr']; simpl; [done | apply Hh].
Qed.

Lemma timeless_gets {A} (f : frame → A) :
  (∀ dt fr, f (later dt fr) = f fr) → timeless (gets f).
Proof. intros Hf dt fr. unfold gets. simpl. by rewrite Hf. Qed.

Lemma timeless_modify (f : frame → frame) :
  (∀ dt fr, f (later dt fr) = later dt (f fr)) → timeless (modify f).
Proof. intros Hf dt fr. unfold modify. simpl. by rewrite Hf. Qed.

Lemma elapse_elapse dt dt' s : elapse dt' (elapse dt s) = elapse dt (elapse dt' s).
Proof. unfold elapse, set_now. simpl. f_equal. lia. Qed.

Lemma timeless_elapse dt' : timeless (modify (on_global (elapse dt'))).
Proof.
  apply timeless_modify. intros dt fr. unfold later, on_global. simpl.
  by rewrite elapse_elapse.
Qed.

Lemma timeless_log r : timeless (modify (on_global (log r))).
Proof. by apply timeless_modify. Qed.

Lemma timeless_set_cache f :
  timeless (modify (on_global (set_conversationCache f))).
Proof. by apply timeless_modify. Qed.

Lemma timeless_assign_conversationHistory r :
  timeless (assign_conversationHistory r).
Proof. by apply timeless_modify. Qed.

Lemma timeless_assign_aiResponse v : timeless (assign_aiResponse v).
Proof. by apply timeless_modify. Qed.

Lemma timeless_assign_extractedName v : timeless (assign_extractedName v).
Proof. by apply timeless_modify. Qed.

Lemma timeless_history : timeless history.
Proof. by apply timeless_gets. Qed.

Create HintDb timeless.

#[local] Hint Resolve timeless_ret timeless_throw timeless_lift_exc
  timeless_elapse timeless_log timeless_set_cache
  timeless_assign_conversationHistory timeless_assign_aiResponse
  timeless_assign_extractedName timeless_history : timeless.

(** One step through a computation built from the pieces above. *)
Ltac timeless_step :=
  match goal with
  | |- timeless (mbind _ _) => apply timeless_bind; [|intros]
  | |- timeless (try_catch _ _) => apply timeless_try_catch; [|intros]
  | |- timeless (gets _) => by apply timeless_gets
  | |- timeless (if ?b then _ else _) => destruct b
  | |- timeless (match ?x with _ => _ end) => destruct x
  | |- timeless _ => solve [auto with timeless]
  end.

Lemma timeless_push m : timeless (push m).
Proof. unfold push. repeat timeless_step. Qed.

Lemma timeless_ask r answer : timeless (ask r answer).
Proof. unfold ask. repeat timeless_step. Qed.

Lemma timeless_chat messages choice llm :
  timeless (chat_with_timeout messages choice llm).
Proof. unfold chat_with_timeout. repeat timeless_step. Qed.

#[local] Hint Resolve timeless_push timeless_ask timeless_chat : timeless.

Lemma timeless_schedule transcript currentName args db :
  timeless (schedule_appointment transcript currentName args db).
Proof. unfold schedule_appointment. repeat timeless_step. Qed.

#[local] Hint Resolve timeless_schedule : timeless.

Lemma timeless_interpret transcript currentName fc db :
  timeless (interpret_function_call transcript currentName fc db).
Proof. unfold interpret_function_call. repeat timeless_step. Qed.

#[local] Hint Resolve timeless_interpret : timeless.

Lemma timeless_process_body transcript sessionId currentName llm db :
  timeless (process_body transcript sessionId currentName llm db).
Proof.
  unfold process_body, open_history, ask_model, interpret, close_history.
  repeat timeless_step.
Qed.

(** The orchestrator answers and stores the same whatever the hour. *)
Lemma processTranscript_timeless transcript sessionId currentName llm db dt s :
  processTranscript transcript sessionId currentName llm db (elapse dt s)
  = ((processTranscript transcript sessionId currentName llm db s).1,
     elapse dt (processTranscript transcript sessionId currentName llm db s).2).
Proof.
  unfold processTranscript. destruct transcript as [transcript|]; [|done].
  destruct (String.eqb (trim transcript) EmptyString); [done|].
  unfold call.
  set (fr0 := {| global := s; conversationHistory := Fresh [];
                 aiResponse := None; extractedName_var := None |}).
  change {| global := elapse dt s; conversationHistory := Fresh [];
            aiResponse := None; extractedName_var := None |}
    with (later dt fr0).
  rewrite (timeless_try_catch _ _
    (timeless_process_body transcript sessionId currentName llm db)
    (fun _ => timeless_ret
       {| response := Some unable; extractedName := None |}) dt fr0).
  by destruct (try_catch _ _ fr0) as [r fr].
Qed.

Lemma request_speech_requests text out s :
  requests (request_speech text out s).2 = requests s ++ [ReqSpeak text].
Proof.
  unfold request_speech, try_catch, mbind, M_bind, modify, gets, throw,
    mret, M_ret. simpl.
  destruct (speak_result_of out) as [e|status body]; simpl; [done|].
  by destruct (status =? 200)%Z.
Qed.

(** ** Running [processTranscript] piece by piece *)

Lemma bind_ok {S A B} (m : M S A) (f : A → M S B) s a s' :
  m s = (Ok a, s') → (m ≫= f) s = f a s'.
Proof. intros Hm. unfold mbind, M_bind. by rewrite Hm. Qed.

Lemma bind_throw {S A B} (m : M S A) (f : A → M S B) s e s' :
  m s = (Throw e, s') → (m ≫= f) s = (Throw e, s').
Proof. intros Hm. unfold mbind, M_bind. by rewrite Hm. Qed.

(** *** Computations that keep a relation between the frame before and
    the frame after *)

Section preserves.
Context (R : relation frame) `{!Reflexive R, !Transitive R}.

Lemma preserves_ret {A} (a : A) : preserves R (mret a).
Proof. intros fr. simpl. reflexivity. Qed.

Lemma preserves_throw {A} (e : error) : preserves R (throw (A:=A) e).
Proof. intros fr. simpl. reflexivity. Qed.

Lemma preserves_lift_exc {A} (r : exc A) : preserves R (lift_exc r).
Proof. intros fr. simpl. reflexivity. Qed.

Lemma preserves_gets {A} (f : frame → A) : preserves R (gets f).
Proof. intros fr. simpl. reflexivity. Qed.

Lemma preserves_modify (f : frame → frame) :
  (∀ fr, R fr (f fr)) → preserves R (modify f).
Proof. intros Hf fr. simpl. apply Hf. Qed.

Lemma preserves_bind {A B} (m : M frame A) (f : A → M frame B) :
  preserves R m → (∀ a, preserves R (f a)) → preserves R (m ≫= f).
Proof.
  intros Hm Hf fr. unfold mbind, M_bind. specialize (Hm fr).
  destruct (m fr) as [[a|e] fr']; simpl in *; [|done].
  etransitivity; [exact Hm | apply Hf].
Qed.

Lemma preserves_try_catch {A} (m : M frame A) (h : error → M frame A) :
  preserves R m → (∀ e, preserves R (h e)) → preserves R (try_catch m h).
Proof.
  intros Hm Hh fr. unfold try_catch. specialize (Hm fr).
  destruct (m fr) as [[a|e] fr']; simpl in *; [done|].
  etransitivity; [exact Hm | apply Hh].
Qed.
End preserves.

Ltac preserves_step :=
  match goal with
  | |- preserves _ (mbind _ _) => apply preserves_bind; [apply _ | | intros]
  | |- preserves _ (try_catch _ _) => apply preserves_try_catch; [apply _ | | intros]
  | |- preserves _ (mret _) => apply preserves_ret; apply _
  | |- preserves _ (throw _) => apply preserves_throw; apply _
  | |- preserves _ (lift_exc _) => apply preserves_lift_exc; apply _
  | |- preserves _ (gets _) => apply preserves_gets; apply _
  | |- preserves _ (if ?b then _ else _) => destruct b
  | |- preserves _ (match ?x with _ => _ end) => destruct x
  end.

#[local] Instance same_record_refl : Reflexive same_record.
Proof. by intros fr. Qed.

#[local] Instance same_record_trans : Transitive same_record.
Proof. intros a b c [H1 H2] [H3 H4]. split; congruence. Qed.

Lemma ask_same_record r answer : preserves same_record (ask r answer).
Proof.
  unfold ask. preserves_step; [|preserves_step].
  by apply preserves_modify.
Qed.

Lemma assign_aiResponse_same_record v : preserves same_record (assign_aiResponse v).
Proof. by apply preserves_modify. Qed.

Lemma assign_extractedName_same_record v :
  preserves same_record (assign_extractedName v).
Proof. by apply preserves_modify. Qed.

Ltac same_record_step :=
  first [ preserves_step
        | apply ask_same_record
        | apply assign_aiResponse_same_record
        | apply assign_extractedName_same_record ].

Lemma schedule_same_record transcript currentName args db :
  preserves same_record (schedule_appointment transcript currentName args db).
Proof. unfold schedule_appointment. repeat same_record_step. Qed.

Lemma interpret_function_call_same_record transcript currentName fc db :
  preserves same_record (interpret_function_call transcript currentName fc db).
Proof.
  unfold interpret_function_call.
  repeat first [apply schedule_same_record | same_record_step].
Qed.

Lemma interpret_same_record transcript currentName message db :
  preserves same_record (interpret transcript currentName message db).
Proof.
  unfold interpret.
  repeat first [apply interpret_function_call_same_record | same_record_step].
Qed.

(** *** Whether the interpretation throws does not depend on the frame *)

Lemma oblivious_ret {A} (a : A) : oblivious (mret a).
Proof. by intros fr1 fr2. Qed.

Lemma oblivious_throw {A} (e : error) : oblivious (throw (A:=A) e).
Proof. by intros fr1 fr2. Qed.

Lemma oblivious_lift_exc {A} (r : exc A) : oblivious (lift_exc r).
Proof. by intros fr1 fr2. Qed.

Lemma oblivious_modify f : oblivious (modify f).
Proof. by intros fr1 fr2. Qed.

Lemma oblivious_bind {A B} (m : M frame A) (f : A → M frame B) :
  oblivious m → (∀ a, oblivious (f a)) → oblivious (m ≫= f).
Proof.
  intros Hm Hf fr1 fr2. unfold mbind, M_bind. specialize (Hm fr1 fr2).
  destruct (m fr1) as [[a1|e1] fr1'], (m fr2) as [[a2|e2] fr2'];
    simpl in *; simplify_eq; [apply Hf | done].
Qed.

Ltac oblivious_step :=
  match goal with
  | |- oblivious (mbind _ _) => apply oblivious_bind; [|intros]
  | |- oblivious (mret _) => apply oblivious_ret
  | |- oblivious (throw _) => apply oblivious_throw
  | |- oblivious (lift_exc _) => apply oblivious_lift_exc
  | |- oblivious (modify _) => apply oblivious_modify
  | |- oblivious (if ?b then _ else _) => destruct b
  | |- oblivious (match ?x with _ => _ end) => destruct x
  end.

Lemma interpret_function_call_oblivious transcript currentName fc db :
  oblivious (interpret_function_call transcript currentName fc db).
Proof.
  unfold interpret_function_call, schedule_appointment, ask,
    assign_aiResponse, assign_extractedName.
  repeat oblivious_step.
Qed.

(** *** The pieces of [process_body] *)

Lemma close_history_run sid message fr :
  tied sid fr →
  JsMap.size (conversationCache (global fr)) ≤ CACHE_CONFIG.MAX_SIZE →
  let ai := final_reply (aiResponse fr) message in
  let h := capped (record_of fr ++ [{| msg_role := assistant; content := ai |}]) in
  ∃ fr',
    close_history sid message fr
    = (Ok {| response := ai; extractedName := extractedName_var fr |}, fr')
    ∧ JsMap.get sid (conversationCache (global fr')) = Some h
    ∧ JsMap.size (conversationCache (global fr')) ≤ CACHE_CONFIG.MAX_SIZE.
Proof.
  intros Htied Hsz ai h.
  unfold close_history, push, history, assign_aiResponse, assign_conversationHistory,
    gets, modify, mbind, M_bind, mret, M_ret.
  destruct fr as [g r a n]. unfold tied, record_of in *. simpl in *.
  unfold final_reply in ai. simpl in ai.
  assert (∀ (x : list chat_message) c, sid ∈ JsMap.keys c →
          JsMap.size (JsMap.set sid x c) = JsMap.size c) as Hsame.
  { intros x c Hc. by apply size_set_present. }
  unfold capped in h.
  destruct (nonempty a) eqn:Ha; simpl;
    (destruct r as [k|l]; simpl;
     [ destruct Htied as [-> Hin]; rewrite get_set_same; simpl | ]);
    (destruct (decide (CACHE_CONFIG.MAX_HISTORY < _)) as [Hlong|Hshort] in h |- *;
     simpl; eexists; (split; [reflexivity|]); simpl;
     rewrite ?get_set_same; simpl;
     (split; [apply get_after_store | apply store_size]);
     rewrite ?Hsame by done; done).
Qed.

Lemma get_Some_keys {K V} `{EqDecision K} (k : K) (v : V) (m : JsMap.t K V) :
  JsMap.get k m = Some v → k ∈ JsMap.keys m.
Proof.
  intros Hget. destruct (decide (k ∈ JsMap.keys m)) as [|Hnot]; [done|].
  apply get_None_keys in Hnot. congruence.
Qed.

Lemma open_history_run transcript sid s :
  ∃ fr,
    open_history transcript sid (fresh_frame s) = (Ok (), fr)
    ∧ record_of fr = stored_history sid s ++ [caller_turn transcript]
    ∧ tied sid fr
    ∧ JsMap.size (conversationCache (global fr)) = JsMap.size (conversationCache s)
    ∧ aiResponse fr = None ∧ extractedName_var fr = None.
Proof.
  unfold open_history, push, history, assign_conversationHistory, gets, modify,
    mbind, M_bind, mret, M_ret, fresh_frame, record_of, tied, stored_history,
    caller_turn.
  simpl. destruct (JsMap.get sid (conversationCache s)) as [old|] eqn:Hget; simpl.
  - rewrite Hget. simpl. eexists. split; [reflexivity|]. simpl.
    pose proof (get_Some_keys _ _ _ Hget) as Hin.
    rewrite get_set_same. simpl. split_and!; try done.
    + by rewrite keys_set_present.
    + by apply size_set_present.
  - eexists. split; [reflexivity|]. simpl. done.
Qed.

Lemma ask_model_run currentName llm message fr :
  answers llm message →
  ∃ fr', ask_model currentName llm fr = (Ok message, fr')
         ∧ same_record fr fr'
         ∧ aiResponse fr' = aiResponse fr
         ∧ extractedName_var fr' = extractedName_var fr.
Proof.
  intros [Hlat [rest Hres]]. apply Z.ltb_lt in Hlat.
  unfold ask_model, chat_with_timeout, history, gets, modify, mbind, M_bind,
    mret, M_ret. simpl. rewrite Hlat. simpl. rewrite Hres. simpl.
  eexists. split; [reflexivity|]. done.
Qed.

(** [interpret] always completes: its only [throw]s are caught. *)
Lemma interpret_completes transcript currentName message db fr :
  (interpret transcript currentName message db fr).1 = Ok ().
Proof.
  unfold interpret, assign_aiResponse, assign_extractedName, modify, try_catch,
    mbind, M_bind, mret, M_ret. simpl.
  destruct (llm_function_call message) as [fc|]; [|done].
  by destruct (interpret_function_call _ _ _ _ _) as [[[]|e] fr'].
Qed.

Lemma interpret_apologizes transcript currentName message fc db fr :
  llm_function_call message = Some fc →
  interpretation_throws transcript currentName fc db →
  aiResponse (interpret transcript currentName message db fr).2 = Some apology.
Proof.
  intros Hfc (fr0 & e & fr0' & Hthrow).
  unfold interpret, assign_aiResponse, assign_extractedName, modify, try_catch,
    mbind, M_bind, mret, M_ret. simpl. rewrite Hfc.
  match goal with
  | |- context [interpret_function_call _ _ _ _ ?fr1] =>
      pose proof (interpret_function_call_oblivious transcript currentName fc db
                    fr1 fr0) as Hsame
  end.
  rewrite Hthrow in Hsame. simpl in Hsame. clear Hthrow.
  destruct (interpret_function_call _ _ _ _ _) as [r fr1'].
  simpl in Hsame. by subst r.
Qed.

(** When the model answers, the call returns a reply and the session's
    record holds the earlier turns, the caller's turn and the reply, cut
    to the cap. *)
Lemma processTranscript_answered transcript sid currentName llm db s message :
  trim transcript ≠ EmptyString →
  answers llm message →
  JsMap.size (conversationCache s) ≤ CACHE_CONFIG.MAX_SIZE →
  ∃ fr s',
    (∃ fr2, fr = (interpret transcript currentName message db fr2).2
            ∧ aiResponse fr2 = None ∧ extractedName_var fr2 = None)
    ∧ let ai := final_reply (aiResponse fr) message in
      processTranscript (Some transcript) sid currentName llm db s
      = (Ok {| response := ai; extractedName := extractedName_var fr |}, s')
      ∧ JsMap.get sid (conversationCache s')
        = Some (capped (stored_history sid s ++ [caller_turn transcript]
                        ++ [{| msg_role := assistant; content := ai |}]))
      ∧ JsMap.size (conversationCache s') ≤ CACHE_CONFIG.MAX_SIZE.
Proof.
  intros Htext Hllm Hsz.
  destruct (open_history_run transcript sid s)
    as (fr1 & Hopen & Hrec1 & Htied1 & Hsz1 & Hai1 & Hname1).
  destruct (ask_model_run currentName llm message fr1 Hllm)
    as (fr2 & Hask & [Hh2 Hc2] & Hai2 & Hname2).
  pose proof (interpret_completes transcript currentName message db fr2) as Hint.
  pose proof (interpret_same_record transcript currentName message db fr2)
    as [Hh3 Hc3].
  destruct (interpret transcript currentName message db fr2) as [r3 fr3] eqn:Hrun.
  simpl in Hint, Hh3, Hc3. subst r3.
  assert (tied sid fr3) as Htied3.
  { unfold tied in *. rewrite Hh3, Hh2, Hc3, Hc2. exact Htied1. }
  assert (record_of fr3 = record_of fr1) as Hrec3.
  { unfold record_of, items_of. by rewrite Hh3, Hh2, Hc3, Hc2. }
  assert (JsMap.size (conversationCache (global fr3)) ≤ CACHE_CONFIG.MAX_SIZE)
    as Hsz3.
  { rewrite Hc3, Hc2, Hsz1. exact Hsz. }
  destruct (close_history_run sid message fr3 Htied3 Hsz3)
    as (fr4 & Hclose & Hget & Hsz4).
  exists fr3, (global fr4). split.
  { exists fr2. rewrite Hrun. simpl. split; [done|]. split; congruence. }
  simpl. split; [|split; [|exact Hsz4]].
  - unfold processTranscript. rewrite trim_nonempty by done.
    unfold call, try_catch, process_body. fold (fresh_frame s).
    rewrite (bind_ok _ _ _ _ _ Hopen).
    rewrite (bind_ok _ _ _ _ _ Hask).
    rewrite (bind_ok _ _ _ _ _ Hrun).
    by rewrite Hclose.
  - rewrite Hget, Hrec3, Hrec1. by rewrite <- app_assoc.
Qed.

Lemma processTranscript_returns transcript sid currentName llm db s :
  ∃ r s', processTranscript transcript sid currentName llm db s = (Ok r, s').
Proof.
  unfold processTranscript. destruct transcript as [transcript|]; [|by eexists _, _].
  destruct (String.eqb (trim transcript) EmptyString); [by eexists _, _|].
  unfold call, try_catch.
  destruct (process_body _ _ _ _ _ _) as [[r|e] fr]; by eexists _, _.
Qed.

Lemma caller_turn_kept (old : list chat_message) (u a : chat_message) :
  u ∈ capped (old ++ [u] ++ [a]).
Proof.
  unfold capped, slice_last. case_decide.
  - rewrite drop_app_le.
    + apply elem_of_app. right. apply list_elem_of_here.
    + rewrite length_app. unfold CACHE_CONFIG.MAX_HISTORY. simpl. lia.
  - apply elem_of_app. right. apply list_elem_of_here.
Qed.

(** C9. When interpreting the model's function call throws, the call
    returns the fixed apology, and afterwards the session's record in the
    cache contains the caller's utterance. No call of [processTranscript]
    throws, whatever the model, the store or the transcript do. *)
Theorem interpretation_failure_gives_apology_and_keeps_utterance :
  (∀ transcript sid currentName llm db s message fc,
     trim transcript ≠ EmptyString →
     answers llm message →
     llm_function_call message = Some fc →
     interpretation_throws transcript currentName fc db →
     JsMap.size (conversationCache s) ≤ CACHE_CONFIG.MAX_SIZE →
     ∃ r s' h,
       processTranscript (Some transcript) sid currentName llm db s = (Ok r, s')
       ∧ response r = Some apology
       ∧ JsMap.get sid (conversationCache s') = Some h
       ∧ caller_turn transcript ∈ h)
  ∧ (∀ transcript sid currentName llm db s,
       ∃ r s', processTranscript transcript sid currentName llm db s = (Ok r, s')).
Proof.
  split; [|apply processTranscript_returns].
  intros transcript sid currentName llm db s message fc Htext Hllm Hfc Hthrow Hsz.
  destruct (processTranscript_answered transcript sid currentName llm db s message
              Htext Hllm Hsz) as (fr & s' & (fr2 & -> & _ & _) & Hrun & Hget & _).
  rewrite (interpret_apologizes _ _ _ fc) in Hrun, Hget by done.
  change (final_reply (Some apology) message) with (Some apology) in Hrun, Hget.
  eexists _, s', _. split_and!; [exact Hrun | done | exact Hget |].
  apply caller_turn_kept.
Qed.

(** The model asks to schedule with arguments that are not JSON. *)
Lemma interpretation_failure_witness :
  ∃ r s' h,
    processTranscript (Some "Book me in for Tuesday") (KStr "MZ0001") (Some "Alex")
      (llm_calls "scheduleAppointment" malformed) open_calendar Service.initial = (Ok r, s')
    ∧ response r = Some apology
    ∧ JsMap.get (KStr "MZ0001") (conversationCache s') = Some h
    ∧ caller_turn "Book me in for Tuesday" ∈ h.
Proof.
  apply (proj1 interpretation_failure_gives_apology_and_keeps_utterance
           "Book me in for Tuesday" (KStr "MZ0001") (Some "Alex")
           (llm_calls "scheduleAppointment" malformed) open_calendar Service.initial
           {| llm_content := None;
              llm_function_call :=
                Some {| fc_name := "scheduleAppointment"; fc_arguments := malformed |} |}
           {| fc_name := "scheduleAppointment"; fc_arguments := malformed |}).
  - vm_compute. discriminate.
  - split; [reflexivity | by exists []].
  - reflexivity.
  - exists (fresh_frame Service.initial). eexists _, _. reflexivity.
  - unfold JsMap.size, CACHE_CONFIG.MAX_SIZE. simpl. lia.
Defined.

(** ** The controller: the [start] branch *)

(** Neither [deepgram] nor [updateLeadInfo] is bound where the handlers
    run. *)
Lemma controller_unbound :
  identifier "deepgram" controller_scope
  = Throw (ReferenceError "deepgram is not defined")
  ∧ identifier "updateLeadInfo" controller_scope
    = Throw (ReferenceError "updateLeadInfo is not defined").
Proof. split; reflexivity. Qed.

(** What the [start] branch comes to. *)
Lemma step_MsgStart stream call phone s :
  step (MsgStart stream call phone) s
  = {| streamSid := Some stream; callSid := Some call; dgLive := dgLive s;
       audioBufferQueue := audioBufferQueue s;
       phoneNumber := (if nonempty phone then phone else phoneNumber s);
       interactionCount := interactionCount s;
       ws_readyState := ws_readyState s; sent := sent s;
       transmissions := transmissions s; turns := turns s |}.
Proof. reflexivity. Qed.

(** ** The controller: what a closed socket stops *)

Lemma is_open_false s : ws_readyState s ≠ OPEN → is_open s = false.
Proof. intros Hne. unfold is_open. by apply bool_decide_eq_false. Qed.

Lemma after_loop_closed t s :
  ws_readyState s ≠ OPEN →
  sent (after_loop t s) = sent s
  ∧ ws_readyState (after_loop t s) = ws_readyState s.
Proof. intros Hne. unfold after_loop. by rewrite is_open_false. Qed.

Lemma sendBufferedAudio_closed t s :
  ws_readyState s ≠ OPEN →
  sent (sendBufferedAudio t s) = sent s ∧ ws_readyState (sendBufferedAudio t s) = ws_readyState s.
Proof.
  intros Hne. unfold sendBufferedAudio. rewrite is_open_false by done.
  case_decide; by apply after_loop_closed.
Qed.

Lemma ws_close_not_open s : ws_readyState (ws_close s) ≠ OPEN.
Proof.
  unfold ws_close, is_open. case_bool_decide; simpl; [done|]. done.
Qed.

Lemma ws_close_sent s : sent (ws_close s) = sent s.
Proof. unfold ws_close. by destruct (is_open s). Qed.

Lemma finish_dgLive_sent s : sent (finish_dgLive s) = sent s.
Proof. unfold finish_dgLive. by destruct (dgLive s). Qed.

Lemma finish_dgLive_ws s : ws_readyState (finish_dgLive s) = ws_readyState s.
Proof. unfold finish_dgLive. by destruct (dgLive s). Qed.

(** Once the socket is not open, no delivery sends anything, and the
    socket does not open again. *)
Lemma step_closed ev s :
  ws_readyState s ≠ OPEN →
  sent (step ev s) = sent s ∧ ws_readyState (step ev s) ≠ OPEN.
Proof.
  intros Hne. destruct ev as [stream call phone|payload| | | | | | |audio|n|n];
    simpl.
  - done.
  - destruct (dgLive s) as [d|]; [case_decide|]; done.
  - split; [by rewrite ws_close_sent, finish_dgLive_sent | apply ws_close_not_open].
  - split; [by rewrite ws_close_sent, finish_dgLive_sent | apply ws_close_not_open].
  - split; [apply ws_close_sent | apply ws_close_not_open].
  - split; [|by rewrite finish_dgLive_ws]. by rewrite finish_dgLive_sent.
  - destruct (dgLive s) as [d|]; [case_decide|]; done.
  - by destruct (dgLive s) as [d|].
  - destruct (dgLive s) as [d|]; [|done].
    unfold sendAudioFrames. rewrite is_open_false by done.
    by case_decide.
  - destruct (find_transmission n s) as [t|]; [|done].
    destruct (returned t); [done|].
    destruct (sendBufferedAudio_closed (with_offset (offset t + frameSize) t) s Hne) as [-> ->].
    done.
  - destruct (find_transmission n s) as [t|]; [|done].
    by destruct (returned t).
Qed.

Lemma run_closed evs : ∀ s,
  ws_readyState s ≠ OPEN →
  sent (run evs s) = sent s ∧ ws_readyState (run evs s) ≠ OPEN.
Proof.
  induction evs as [|ev evs IH]; intros s Hne; simpl; [done|].
  destruct (step_closed ev s Hne) as [Hsent Hws].
  destruct (IH _ Hws) as [Hsent' Hws']. split; [congruence | done].
Qed.

(** A stop message and the socket's close event send nothing and leave
    the socket not open. *)
Lemma step_closes ev s :
  ev ∈ [MsgStop; WsStop; WsClose] →
  sent (step ev s) = sent s ∧ ws_readyState (step ev s) ≠ OPEN.
Proof.
  intros Hev. repeat (apply elem_of_cons in Hev as [->|Hev]); simpl.
  - split; [by rewrite ws_close_sent, finish_dgLive_sent | apply ws_close_not_open].
  - split; [by rewrite ws_close_sent, finish_dgLive_sent | apply ws_close_not_open].
  - split; [|by rewrite finish_dgLive_ws]. by rewrite finish_dgLive_sent.
  - by apply elem_of_nil in Hev.
Qed.

Lemma sendBufferedAudio_dgLive t s : dgLive (sendBufferedAudio t s) = dgLive s.
Proof.
  unfold sendBufferedAudio, after_loop. case_decide; destruct (is_open s); done.
Qed.

Lemma ws_close_dgLive s : dgLive (ws_close s) = dgLive s.
Proof. unfold ws_close. by destruct (is_open s). Qed.

Lemma step_finishes ev s :
  ev ∈ [MsgStop; WsStop; WsClose] →
  is_Some (dgLive s) →
  ∃ d, dgLive (step ev s) = Some d ∧ finished d = true.
Proof.
  intros Hev [d Hd].
  repeat (apply elem_of_cons in Hev as [->|Hev]); simpl.
  - rewrite ws_close_dgLive. unfold finish_dgLive. rewrite Hd. by eexists.
  - rewrite ws_close_dgLive. unfold finish_dgLive. rewrite Hd. by eexists.
  - unfold finish_dgLive. simpl. rewrite Hd. by eexists.
  - by apply elem_of_nil in Hev.
Qed.

(** C3. When a stop message or the socket's close event arrives while a
    frame loop is in progress, nothing more is ever sent on the socket, no
    frame and no mark, whatever is delivered next, and the transcription
    connection the session has is told to finish. The socket is tested
    before every send: a delivery to a session whose socket is not open
    sends nothing. This holds of every state of a session; the
    connection is a hypothesis. *)
Theorem closed_socket_halts_transmission :
  (∀ (s : session) (ev : event) (after : list event),
     ev ∈ [MsgStop; WsStop; WsClose] →
     in_progress s = true →
     is_Some (dgLive s) →
     sent (run after (step ev s)) = sent s
     ∧ ∃ d, dgLive (step ev s) = Some d ∧ finished d = true)
  ∧ (∀ (ev : event) (s : session),
       ws_readyState s ≠ OPEN → sent (step ev s) = sent s).
Proof.
  split.
  - intros s ev after Hev Hprog Hconn.
    destruct (step_closes ev s Hev) as [Hsent Hws].
    destruct (run_closed after _ Hws) as [Hsent' _].
    split; [congruence | by apply step_finishes].
  - intros ev s Hne. by apply step_closed.
Qed.

(** A stop message after the third of five frames, in a session that has
    its connection. *)
Lemma closed_socket_halts_transmission_witness :
  sent (run [Timer 0; Timer 0; Timer 0; Resume 0]
          (step MsgStop (run three_frames_out connected_session)))
  = sent (run three_frames_out connected_session)
  ∧ ∃ d, dgLive (step MsgStop (run three_frames_out connected_session)) = Some d
         ∧ finished d = true.
Proof.
  apply (proj1 closed_socket_halts_transmission
           (run three_frames_out connected_session) MsgStop
           [Timer 0; Timer 0; Timer 0; Resume 0]).
  - apply list_elem_of_here.
  - vm_compute. reflexivity.
  - vm_compute. by eexists.
Defined.

(** The three frames that went out before the stop are all there is. *)
Example scenario_stop_at_frame_three :
  sent (run [Timer 0; Timer 0; Timer 0; Resume 0]
          (step MsgStop (run three_frames_out connected_session)))
  = [(0, Media (Some "MZ0001") (repeat Byte.x11 160));
     (0, Media (Some "MZ0001") (repeat Byte.x22 160));
     (0, Media (Some "MZ0001") (repeat Byte.x33 160))].
Proof. vm_compute. reflexivity. Qed.

(** ** The controller: the index check of [sendAudioFrames] *)




(** ** The controller: a session of the code as written *)





(** ** The controller: audio that arrives before the connection is open *)

(** A connection is handed the chunk of a media message that finds it
    open, and nothing else. *)
Lemma relayed_step ev s :
  relayed (step ev s) = relayed s
  ∨ ∃ payload, ev = MsgMedia payload ∧ relayed (step ev s) = relayed s ++ [payload].
Proof.
  unfold relayed.
  destruct ev as [stream call phone|payload| | | | | | |audio|n|n];
    rewrite ?step_MsgStart; simpl.
  - by left.
  - destruct (dgLive s) as [d|] eqn:Hd; [case_decide|]; simpl; rewrite ?Hd;
      eauto.
  - rewrite ws_close_dgLive. unfold finish_dgLive.
    destruct (dgLive s) as [d|] eqn:Hd; simpl; rewrite ?Hd; by left.
  - rewrite ws_close_dgLive. unfold finish_dgLive.
    destruct (dgLive s) as [d|] eqn:Hd; simpl; rewrite ?Hd; by left.
  - rewrite ws_close_dgLive. by left.
  - unfold finish_dgLive. simpl.
    destruct (dgLive s) as [d|] eqn:Hd; simpl; rewrite ?Hd; by left.
  - destruct (dgLive s) as [d|] eqn:Hd; [case_decide|]; simpl; rewrite ?Hd;
      by left.
  - destruct (dgLive s) as [d|] eqn:Hd; simpl; rewrite ?Hd; by left.
  - destruct (dgLive s) as [d|] eqn:Hd; [|rewrite Hd; by left].
    unfold sendAudioFrames.
    case_decide; [destruct (is_open s)|]; rewrite ?sendBufferedAudio_dgLive;
      simpl; rewrite Hd; by left.
  - destruct (find_transmission n s) as [t|]; [destruct (returned t)|];
      rewrite ?sendBufferedAudio_dgLive; by left.
  - destruct (find_transmission n s) as [t|]; [destruct (returned t)|];
      by left.
Qed.

(** C2 fails on the code. The open event of the transcription connection
    flushes nothing, in any session: the queue and what the connection
    has been handed are as before it. No delivery hands a connection
    anything but the chunk that is arriving, so a chunk that was queued
    never reaches it. In a call as the code receives it the [start] branch
    throws, no connection exists, both chunks are queued in order, and the
    end of the call empties the queue. In a session that has a connection
    waiting to open, the open event sends neither queued chunk, a chunk
    that arrives after it is sent, they are not. *)
Theorem queued_audio_is_never_flushed :
  (∀ s : session,
     audioBufferQueue (step DgOpen s) = audioBufferQueue s
     ∧ relayed (step DgOpen s) = relayed s)
  ∧ (∀ (ev : event) (s : session),
       relayed (step ev s) = relayed s
       ∨ ∃ payload, ev = MsgMedia payload
                    ∧ relayed (step ev s) = relayed s ++ [payload])
  ∧ (let heard := run call_begins Controller.initial in
     let ended := run [MsgStop; WsClose] heard in
     dgLive heard = None
     ∧ audioBufferQueue heard = [chunk1; chunk2]
     ∧ relayed ended = []
     ∧ audioBufferQueue ended = [])
  ∧ (let opened := run [MsgMedia chunk1; MsgMedia chunk2; DgOpen] awaiting_open in
     let ended := run [MsgMedia chunk3; MsgStop; WsClose] opened in
     audioBufferQueue opened = [chunk1; chunk2]
     ∧ relayed opened = []
     ∧ relayed ended = [chunk3]
     ∧ audioBufferQueue ended = []).
Proof.
  split_and!.
  - intros s. unfold relayed. simpl.
    destruct (dgLive s) as [d|] eqn:Hd; [case_decide|]; simpl; by rewrite ?Hd.
  - apply relayed_step.
  - vm_compute. split_and!; reflexivity.
  - vm_compute. split_and!; reflexivity.
Qed.

(** ** The orchestrator: name extraction *)

(** When the model asks for [extractName] with a true confidence flag and
    a string for a name, the reply is the acknowledgment and the trimmed
    name is returned. *)
Lemma extractName_acknowledged transcript sid currentName llm db s message
    fields name :
  trim transcript ≠ EmptyString →
  answers llm message →
  llm_function_call message
  = Some {| fc_name := "extractName"; fc_arguments := Ok (VObj fields) |} →
  truthy (lookup_field "confidence" fields) = true →
  lookup_field "name" fields = VStr name →
  JsMap.size (conversationCache s) ≤ CACHE_CONFIG.MAX_SIZE →
  (processTranscript (Some transcript) sid currentName llm db s).1
  = Ok {| response := Some ("Nice to meet you, " ++ trim name
                            ++ "! How can I assist you today?")%string;
          extractedName := Some (trim name) |}.
Proof.
  intros Htext Hllm Hfc Hconf Hname Hsz.
  destruct (processTranscript_answered transcript sid currentName llm db s message
              Htext Hllm Hsz) as (fr & s' & (fr2 & -> & _ & _) & Hrun & _).
  rewrite Hrun. simpl. clear Hrun.
  unfold interpret, interpret_function_call, assign_aiResponse,
    assign_extractedName, modify, try_catch, lift_exc, mbind, M_bind, mret, M_ret.
  simpl. rewrite Hfc. simpl. rewrite Hconf, Hname. simpl. done.
Qed.

(** ** The orchestrator: the appointment store is never asked to create *)

#[local] Instance no_create_refl : Reflexive no_create.
Proof. by intros fr r. Qed.

#[local] Instance no_create_trans : Transitive no_create.
Proof. intros a b c H1 H2 r Hr Hc. apply H1; [by apply H2|done]. Qed.

Lemma no_create_same_requests (f : frame → frame) :
  (∀ fr, requests (global (f fr)) = requests (global fr)) →
  preserves no_create (modify f).
Proof.
  intros Hf. apply preserves_modify. intros fr r Hr _. by rewrite Hf in Hr.
Qed.

Lemma no_create_log r :
  ¬ is_create r → preserves no_create (modify (on_global (log r))).
Proof.
  intros Hr. apply preserves_modify. intros fr r' Hin Hc. simpl in Hin.
  apply elem_of_app in Hin as [?|Hin]; [done|].
  apply list_elem_of_singleton in Hin as ->. done.
Qed.

Lemma no_create_ask r answer :
  ¬ is_create r → preserves no_create (ask r answer).
Proof.
  intros Hr. unfold ask. preserves_step; [|preserves_step].
  by apply no_create_log.
Qed.

Lemma no_create_push m : preserves no_create (push m).
Proof.
  unfold push. preserves_step; [preserves_step|].
  destruct a as [k|l].
  - preserves_step; [unfold history; preserves_step|].
    by apply no_create_same_requests.
  - by apply no_create_same_requests.
Qed.

Ltac no_create_step :=
  first [ preserves_step
        | apply no_create_ask; solve [intros []]
        | apply no_create_log; solve [intros []]
        | apply no_create_push
        | apply no_create_same_requests; solve [done] ].

(** The arguments of [createAppointment] cannot be evaluated: no scope
    binds [phoneNumber]. *)
Lemma phoneNumber_unbound transcript currentName args appointmentTime action
    isAvailable :
  identifier "phoneNumber"
    (scope_in_schedule transcript currentName args appointmentTime action
       isAvailable)
  = Throw (ReferenceError "phoneNumber is not defined").
Proof. reflexivity. Qed.

Ltac create_unreachable :=
  match goal with
  | |- preserves no_create (mbind _ (lift_exc (identifier _ _))) =>
      let fr := fresh "fr" in
      intros fr; unfold mbind, M_bind, lift_exc;
      rewrite ?phoneNumber_unbound; simpl; reflexivity
  end.

Lemma no_create_schedule transcript currentName args db :
  preserves no_create (schedule_appointment transcript currentName args db).
Proof.
  unfold schedule_appointment.
  repeat first [create_unreachable | no_create_step].
Qed.

Lemma no_create_interpret transcript currentName message db :
  preserves no_create (interpret transcript currentName message db).
Proof.
  unfold interpret, interpret_function_call, assign_aiResponse,
    assign_extractedName.
  repeat first [apply no_create_schedule | no_create_step].
Qed.

Lemma no_create_process_body transcript sid currentName llm db :
  preserves no_create (process_body transcript sid currentName llm db).
Proof.
  unfold process_body, open_history, ask_model, chat_with_timeout,
    close_history, history, assign_conversationHistory, assign_aiResponse.
  repeat first [apply no_create_interpret | no_create_step].
Qed.

(** Whatever the model asks for and whatever the store answers,
    [processTranscript] never asks the store to create an appointment. *)
Lemma appointment_never_created transcript sid currentName llm db s r :
  r ∈ requests (processTranscript transcript sid currentName llm db s).2 →
  is_create r → r ∈ requests s.
Proof.
  unfold processTranscript. destruct transcript as [transcript|]; [|done].
  destruct (String.eqb (trim transcript) EmptyString); [done|].
  unfold call. intros Hr Hc.
  pose proof (preserves_try_catch no_create _ _
    (no_create_process_body transcript sid currentName llm db)
    (fun _ => preserves_ret no_create
       {| response := Some unable; extractedName := None |})
    (fresh_frame s)) as Hp.
  unfold fresh_frame in Hp.
  destruct (try_catch _ _ _) as [res fr]. simpl in *. by apply Hp.
Qed.

(** C4 fails on the code. The model asks to schedule, the slot is free and
    the store would create the appointment: availability is checked, then
    reading [phoneNumber] throws, the store is not asked to create
    anything, and the reply is the apology of the [catch], not the
    confirmation. *)
Theorem schedule_with_free_slot_apologizes :
  let result := processTranscript (Some "Yes, please book it")
                  (KStr "MZ0001") (Some "Alex")
                  (llm_calls "scheduleAppointment" (Ok schedule_request))
                  open_calendar Service.initial in
  result.1 = Ok {| response := Some apology; extractedName := None |}
  ∧ drop 1 (requests result.2)
    = [ReqCheckAvailability (VStr "2025-03-03T10:00:00Z")]
  ∧ createAppointment open_calendar (VStr "Alex") (VStr "+15551234567")
      (VStr "2025-03-03T10:00:00Z") = Ok (VBool true).
Proof. vm_compute. split_and!; reflexivity. Qed.

(** When the slot is no longer free, the store is asked for the next one
    and the reply offers it, or says that there is none. *)
Example schedule_with_taken_slot_suggests_next :
  let result := processTranscript (Some "Yes, please book it")
                  (KStr "MZ0001") (Some "Alex")
                  (llm_calls "scheduleAppointment" (Ok schedule_request))
                  (taken_calendar (VStr "2025-03-04T09:00:00Z"))
                  Service.initial in
  result.1
  = Ok {| response := Some "I apologize, but that time was just taken. The next available time is 2025-03-04T09:00:00Z. Would you like this time instead?"%string;
          extractedName := None |}
  ∧ drop 1 (requests result.2)
    = [ReqCheckAvailability (VStr "2025-03-03T10:00:00Z");
       ReqNextTime (VStr "2025-03-03T10:00:00Z")].
Proof. vm_compute. split_and!; reflexivity. Qed.

Example schedule_with_taken_slot_and_no_other :
  (processTranscript (Some "Yes, please book it")
     (KStr "MZ0001") (Some "Alex")
     (llm_calls "scheduleAppointment" (Ok schedule_request))
     (taken_calendar VNull) Service.initial).1
  = Ok {| response := Some "I apologize, but that time is no longer available. Could you please provide another preferred time?"%string;
          extractedName := None |}.
Proof. vm_compute. reflexivity. Qed.

(** ** The orchestrator: the length of the history *)

Lemma capped_length (h : list chat_message) :
  length (capped h) ≤ CACHE_CONFIG.MAX_HISTORY.
Proof.
  unfold capped, slice_last. case_decide; [|lia].
  rewrite length_drop. lia.
Qed.

Lemma capped_suffix (h : list chat_message) : capped h `suffix_of` h.
Proof.
  unfold capped, slice_last. case_decide; [|done].
  apply suffix_drop.
Qed.

(** When the model answers, the history stored for the session is within
    the cap and is the tail of the turns so far. *)
Lemma answered_history_within_cap transcript sid currentName llm db s message :
  trim transcript ≠ EmptyString →
  answers llm message →
  JsMap.size (conversationCache s) ≤ CACHE_CONFIG.MAX_SIZE →
  ∃ h a,
    JsMap.get sid
      (conversationCache (processTranscript (Some transcript) sid currentName
                            llm db s).2) = Some h
    ∧ length h ≤ CACHE_CONFIG.MAX_HISTORY
    ∧ h `suffix_of` (stored_history sid s ++ [caller_turn transcript] ++ [a]).
Proof.
  intros Htext Hllm Hsz.
  destruct (processTranscript_answered transcript sid currentName llm db s message
              Htext Hllm Hsz) as (fr & s' & _ & Hrun & Hget & _).
  rewrite Hrun. simpl. eexists _, _. split; [exact Hget|].
  split; [apply capped_length | apply capped_suffix].
Qed.

Lemma model_answers_or_fails llm :
  (∃ message, answers llm message) ∨ model_fails llm.
Proof.
  unfold answers, model_fails.
  destruct (Z.ltb_spec (llm_latency llm) 10000) as [Hlt|Hge]; [|by right; left].
  destruct (llm_result_of llm) as [e|[|m rest]] eqn:Hres.
  - right. right. left. by exists e.
  - right. right. by right.
  - left. exists m. split; [done | by exists rest].
Qed.

(** When the model does not answer, the call returns its reply from the
    outer [catch], and the cache is as [open_history] left it. *)
Lemma processTranscript_unanswered transcript sid currentName llm db s :
  trim transcript ≠ EmptyString →
  model_fails llm →
  ∃ fr1 s',
    open_history transcript sid (fresh_frame s) = (Ok (), fr1)
    ∧ processTranscript (Some transcript) sid currentName llm db s
      = (Ok {| response := Some unable; extractedName := None |}, s')
    ∧ conversationCache s' = conversationCache (global fr1).
Proof.
  intros Htext Hfail. unfold processTranscript.
  rewrite trim_nonempty by done.
  unfold call, try_catch, process_body. fold (fresh_frame s).
  destruct (open_history_run transcript sid s) as (fr1 & Hopen & _).
  rewrite (bind_ok _ _ _ _ _ Hopen).
  assert (∃ e fr2, ask_model currentName llm fr1 = (Throw e, fr2)
                   ∧ conversationCache (global fr2)
                     = conversationCache (global fr1)) as (e & fr2 & Hask & Hc).
  { unfold ask_model, chat_with_timeout, history, gets, modify, throw,
      mbind, M_bind, mret, M_ret. simpl.
    destruct (llm_latency llm <? 10000)%Z eqn:Hlat; simpl; [|by eexists _, _].
    destruct Hfail as [Hlate|[[e He]| Hnone]].
    - apply Z.ltb_lt in Hlat. lia.
    - rewrite He. simpl. by eexists _, _.
    - rewrite Hnone. simpl. by eexists _, _. }
  rewrite (bind_throw _ _ _ _ _ Hask). simpl. by eexists fr1, _.
Qed.

(** When the model does not answer for a session that has a record, the
    caller's turn stays in the cached array, which nothing has cut. *)
Lemma unanswered_history_grows transcript sid currentName llm db s old :
  trim transcript ≠ EmptyString →
  model_fails llm →
  JsMap.get sid (conversationCache s) = Some old →
  let result := processTranscript (Some transcript) sid currentName llm db s in
  result.1 = Ok {| response := Some unable; extractedName := None |}
  ∧ JsMap.get sid (conversationCache result.2)
    = Some (old ++ [caller_turn transcript]).
Proof.
  intros Htext Hfail Hget result. unfold result.
  destruct (processTranscript_unanswered transcript sid currentName llm db s
              Htext Hfail) as (fr1 & s' & Hopen & -> & Hcache).
  simpl. split; [done|]. rewrite Hcache.
  destruct (open_history_run transcript sid s)
    as (fr1' & Hopen' & Hrec1 & _).
  rewrite Hopen in Hopen'. injection Hopen' as <-.
  assert (conversationHistory fr1 = Cached sid) as Hcached.
  { revert Hopen. unfold open_history, push, history, assign_conversationHistory,
      gets, modify, mbind, M_bind, mret, M_ret, fresh_frame. simpl.
    rewrite Hget. simpl. rewrite Hget. simpl. by intros [= <-]. }
  unfold record_of, stored_history in Hrec1. rewrite Hcached, Hget in Hrec1.
  simpl in Hrec1.
  destruct (JsMap.get sid (conversationCache (global fr1))) as [h|] eqn:Hh;
    simpl in Hrec1; [by subst h|].
  by destruct old.
Qed.

(** The conversation cache stays within its cap, on every path. *)
Lemma processTranscript_size transcript sid currentName llm db s :
  JsMap.size (conversationCache s) ≤ CACHE_CONFIG.MAX_SIZE →
  JsMap.size (conversationCache
                (processTranscript transcript sid currentName llm db s).2)
  ≤ CACHE_CONFIG.MAX_SIZE.
Proof.
  intros Hsz. destruct transcript as [transcript|]; [|done].
  destruct (decide (trim transcript = EmptyString)) as [Hblank|Htext].
  { unfold processTranscript. by rewrite Hblank. }
  destruct (model_answers_or_fails llm) as [[message Hllm]|Hfail].
  - destruct (processTranscript_answered transcript sid currentName llm db s
                message Htext Hllm Hsz) as (fr & s' & _ & Hrun & _ & Hsz').
    by rewrite Hrun.
  - destruct (processTranscript_unanswered transcript sid currentName llm db s
                Htext Hfail) as (fr1 & s' & Hopen & -> & Hcache).
    destruct (open_history_run transcript sid s)
      as (fr1' & Hopen' & _ & _ & Hsz1 & _).
    rewrite Hopen in Hopen'. injection Hopen' as <-.
    simpl. by rewrite Hcache, Hsz1.
Qed.

(** C10 fails on the code. The history of the session is at the cap; the
    model times out on the next utterance; the call returns its reply, and
    the history in the cache has one turn more than the cap allows. *)
Theorem history_exceeds_cap_when_model_fails :
  let full := converse 5 Service.initial in
  let result := processTranscript (Some "Hello? Are you there?") (KStr "MZ0001")
                  (Some "Alex") llm_times_out open_calendar full in
  length <$> JsMap.get (KStr "MZ0001") (conversationCache full)
  = Some CACHE_CONFIG.MAX_HISTORY
  ∧ result.1 = Ok {| response := Some unable; extractedName := None |}
  ∧ length <$> JsMap.get (KStr "MZ0001") (conversationCache result.2)
    = Some (S CACHE_CONFIG.MAX_HISTORY)
  ∧ last (default [] (JsMap.get (KStr "MZ0001") (conversationCache result.2)))
    = Some {| msg_role := user; content := Some "Hello? Are you there?" |}.
Proof. vm_compute. split_and!; reflexivity. Qed.

(** ** The controller: what it tells the orchestrator *)

Lemma in_service_invocations {A} (m : M state A) h :
  invocations (in_service m h).2 = invocations h.
Proof. unfold in_service. by destruct (m (service h)). Qed.

(** Every call of [processTranscript] the transcript handler makes leaves
    [currentName] to its default. *)
Lemma handler_never_passes_name is_final transcript llm db speak h i :
  i ∈ invocations (on_transcript is_final transcript llm db speak h).2 →
  i ∈ invocations h ∨ inv_currentName i = None.
Proof.
  unfold on_transcript.
  destruct is_final; [|by left].
  destruct (negb _); [|by left].
  unfold invoke, assign_callerName, gets, modify, mbind, M_bind, mret, M_ret.
  simpl.
  destruct (negb (name_set (callerName h))); simpl;
    repeat match goal with
    | |- context [in_service ?m ?h0] =>
        let H := fresh "Hinv" in
        pose proof (in_service_invocations m h0) as H;
        destruct (in_service m h0) as [[?|?] ?]; simpl in *
    end;
    intros Hi;
    repeat match goal with
    | H : invocations _ = _ |- _ => rewrite H in Hi; clear H
    end;
    (apply elem_of_app in Hi as [?| ->%list_elem_of_singleton];
     [by left | by right]).
Qed.

(** C5 fails on the code. For "My name is Alex" the orchestrator returns
    the name and the acknowledgment, as C5 says. The controller
    keeps the whole reply as the caller's name and, on the next utterance
    as on the first, calls [processTranscript] without a name. *)
Theorem known_name_is_never_passed :
  let first := on_transcript true "My name is Alex" alex_introduces open_calendar
                 (speak_ok greeting_audio) handler_initial in
  let second := on_transcript true "I would like a cleaning"
                  (llm_says "Sure, when would you like to come in?")
                  open_calendar (speak_ok greeting_audio) first.2 in
  callerName first.2
  = NameReply {| response := Some "Nice to meet you, Alex! How can I assist you today?";
                 extractedName := Some "Alex" |}
  ∧ invocations second.2
    = [ {| inv_transcript := Some "My name is Alex";
           inv_sessionId := KBool true; inv_currentName := None |};
        {| inv_transcript := Some "I would like a cleaning";
           inv_sessionId := KUndefined; inv_currentName := None |} ]
  ∧ second.1 = Throw (TypeError "text.trim is not a function").
Proof. vm_compute. split_and!; reflexivity. Qed.

(** ** More about [Map], [trim] and the pieces of [process_body] *)

Lemma get_set_other {K V} `{EqDecision K} (k k' : K) (v : V) (m : JsMap.t K V) :
  k ≠ k' → JsMap.get k' (JsMap.set k v m) = JsMap.get k' m.
Proof.
  intros Hne. induction m as [|[k0 v0] m IH]; simpl.
  - by rewrite decide_False.
  - destruct (decide (k = k0)) as [->|Hk]; simpl.
    + by rewrite !decide_False.
    + destruct (decide (k' = k0)); [done | apply IH].
Qed.

Lemma set_set {K V} `{EqDecision K} (k : K) (v1 v2 : V) (m : JsMap.t K V) :
  JsMap.set k v2 (JsMap.set k v1 m) = JsMap.set k v2 m.
Proof.
  induction m as [|[k0 v0] m IH]; simpl.
  - by rewrite decide_True.
  - destruct (decide (k = k0)) as [->|Hk]; simpl.
    + by rewrite decide_True.
    + rewrite decide_False by done. by rewrite IH.
Qed.

Lemma trim_start_all_space s : all_space s = true → trim_start s = EmptyString.
Proof.
  induction s as [|c r IH]; simpl; [done|].
  intros [Hc Hr]%andb_true_iff. rewrite Hc. by apply IH.
Qed.

Lemma trim_end_head c r : is_space c = false → trim_end (String c r) ≠ EmptyString.
Proof. intros Hc. simpl. destruct (trim_end r); [by rewrite Hc | done]. Qed.

Lemma trim_start_not_all_space s :
  all_space s = false →
  ∃ c r, trim_start s = String c r ∧ is_space c = false.
Proof.
  induction s as [|c r IH]; simpl; [done|].
  destruct (is_space c) eqn:Hc; simpl; [exact IH|].
  intros _. by exists c, r.
Qed.

(** [trim] leaves nothing exactly when the text is white space only. *)
Lemma trim_empty_iff s : trim s = EmptyString ↔ all_space s = true.
Proof.
  unfold trim. split.
  - intros Hempty. destruct (all_space s) eqn:Hs; [done|].
    destruct (trim_start_not_all_space s Hs) as (c & r & Heq & Hc).
    rewrite Heq in Hempty. by apply trim_end_head in Hempty.
  - intros Hs. by rewrite trim_start_all_space.
Qed.

Lemma open_history_exact transcript sid s :
  let turns := stored_history sid s ++ [caller_turn transcript] in
  let present := bool_decide (is_Some (JsMap.get sid (conversationCache s))) in
  open_history transcript sid (fresh_frame s)
  = (Ok (),
     {| global := if present then set_conversationCache (JsMap.set sid turns) s
                  else s;
        conversationHistory := if present then Cached sid else Fresh turns;
        aiResponse := None; extractedName_var := None |}).
Proof.
  unfold open_history, push, history, assign_conversationHistory, gets, modify,
    mbind, M_bind, mret, M_ret, fresh_frame, stored_history, caller_turn.
  simpl. destruct (JsMap.get sid (conversationCache s)) as [old|] eqn:Hget; simpl.
  - by rewrite Hget.
  - done.
Qed.

Lemma ask_model_exact transcript sid currentName llm message s fr1 :
  answers llm message →
  open_history transcript sid (fresh_frame s) = (Ok (), fr1) →
  ask_model currentName llm fr1
  = (Ok message, frame_at_answer transcript sid currentName llm s).
Proof.
  intros [Hlat [rest Hres]] Hopen. apply Z.ltb_lt in Hlat.
  rewrite open_history_exact in Hopen. injection Hopen as <-.
  unfold ask_model, chat_with_timeout, history, gets, modify, mbind, M_bind,
    mret, M_ret, frame_at_answer, prompt_context. simpl.
  rewrite Hlat. simpl. rewrite Hres. simpl.
  case_bool_decide as Hpresent; simpl; [|done].
  by rewrite get_set_same.
Qed.

(** What [close_history] leaves in the cache is one write under the
    session's key, and the cap. *)
Lemma close_history_exact sid message fr :
  (conversationHistory fr = Cached sid ∨ ∃ l, conversationHistory fr = Fresh l) →
  let ai := final_reply (aiResponse fr) message in
  let h := capped (record_of fr ++ [{| msg_role := assistant; content := ai |}]) in
  ∃ fr',
    close_history sid message fr
    = (Ok {| response := ai; extractedName := extractedName_var fr |}, fr')
    ∧ global fr'
      = set_conversationCache (fun c => manageCache (JsMap.set sid h c)) (global fr).
Proof.
  intros Href ai h.
  unfold close_history, push, history, assign_aiResponse,
    assign_conversationHistory, gets, modify, mbind, M_bind, mret, M_ret.
  destruct fr as [g r a n]. unfold record_of in *. simpl in *.
  unfold final_reply in ai. simpl in ai. unfold capped in h.
  destruct (nonempty a) eqn:Ha; simpl;
    (destruct Href as [->|[l ->]]; simpl; rewrite ?get_set_same; simpl);
    (destruct (decide (CACHE_CONFIG.MAX_HISTORY < _)) as [Hlong|Hshort] in h |- *;
     simpl; eexists; (split; [reflexivity|]); simpl;
     rewrite ?get_set_same; simpl;
     unfold set_conversationCache; simpl; by rewrite ?set_set).
Qed.

(** An answered call, in full: the reply is read off the frame the
    interpretation leaves, and the conversation cache gets one [put] of the
    session's capped history; the rest of the state is as the
    interpretation left it. *)
Lemma processTranscript_answered_exact transcript sid currentName llm db s message :
  trim transcript ≠ EmptyString →
  answers llm message →
  let fr := frame_interpreted transcript sid currentName llm db message s in
  let ai := final_reply (aiResponse fr) message in
  let h := capped (stored_history sid s ++ [caller_turn transcript]
                   ++ [{| msg_role := assistant; content := ai |}]) in
  processTranscript (Some transcript) sid currentName llm db s
  = (Ok {| response := ai; extractedName := extractedName_var fr |},
     set_conversationCache (fun _ => put sid h (conversationCache s)) (global fr)).
Proof.
  intros Htext Hllm fr ai h.
  pose proof (open_history_exact transcript sid s) as Hopen. simpl in Hopen.
  pose proof (ask_model_exact transcript sid currentName llm message s _
                Hllm Hopen) as Hask.
  set (fr2 := frame_at_answer transcript sid currentName llm s) in *.
  pose proof (interpret_completes transcript currentName message db fr2) as Hok.
  pose proof (interpret_same_record transcript currentName message db fr2)
    as [Hh3 Hc3].
  change (conversationHistory fr = conversationHistory fr2) in Hh3.
  change (conversationCache (global fr) = conversationCache (global fr2)) in Hc3.
  assert (interpret transcript currentName message db fr2 = (Ok (), fr)) as Hrun.
  { unfold fr, frame_interpreted. fold fr2.
    destruct (interpret transcript currentName message db fr2) as [r3 fr3].
    simpl in *. by subst r3. }
  assert (conversationHistory fr = Cached sid
          ∨ ∃ l, conversationHistory fr = Fresh l) as Href.
  { rewrite Hh3. unfold fr2, frame_at_answer. simpl.
    case_bool_decide; [by left | right; by eexists]. }
  assert (record_of fr = stored_history sid s ++ [caller_turn transcript])
    as Hrec.
  { unfold record_of. rewrite Hh3. unfold items_of. rewrite Hc3.
    unfold fr2, frame_at_answer. simpl.
    case_bool_decide; simpl; [|done]. by rewrite get_set_same. }
  destruct (close_history_exact sid message fr Href) as (fr4 & Hclose & Hglobal).
  unfold processTranscript. rewrite trim_nonempty by done.
  unfold call, try_catch, process_body. fold (fresh_frame s).
  rewrite (bind_ok _ _ _ _ _ Hopen).
  rewrite (bind_ok _ _ _ _ _ Hask).
  rewrite (bind_ok _ _ _ _ _ Hrun).
  rewrite Hclose. f_equal. rewrite Hglobal.
  unfold set_conversationCache, put. rewrite Hc3, Hrec.
  unfold ai, h, fr2, frame_at_answer. simpl.
  rewrite <- app_assoc.
  case_bool_decide; simpl; [by rewrite set_set | done].
Qed.

(** *** The two caches keep apart *)

#[local] Instance same_ttsCache_refl : Reflexive same_ttsCache.
Proof. by intros fr. Qed.

#[local] Instance same_ttsCache_trans : Transitive same_ttsCache.
Proof. unfold same_ttsCache. intros a b c H1 H2. congruence. Qed.

Lemma process_body_same_ttsCache transcript sid currentName llm db :
  preserves same_ttsCache (process_body transcript sid currentName llm db).
Proof.
  unfold process_body, open_history, ask_model, chat_with_timeout, interpret,
    interpret_function_call, schedule_appointment, ask, close_history, push,
    history, assign_conversationHistory, assign_aiResponse, assign_extractedName.
  repeat first [preserves_step | apply preserves_modify; by intros []].
Qed.

Lemma processTranscript_ttsCache transcript sid currentName llm db s :
  ttsCache (processTranscript transcript sid currentName llm db s).2 = ttsCache s.
Proof.
  unfold processTranscript. destruct transcript as [transcript|]; [|done].
  destruct (String.eqb (trim transcript) EmptyString); [done|].
  unfold call.
  pose proof (preserves_try_catch same_ttsCache _ _
    (process_body_same_ttsCache transcript sid currentName llm db)
    (fun _ => preserves_ret same_ttsCache
       {| response := Some unable; extractedName := None |})
    (fresh_frame s)) as Hp.
  unfold fresh_frame in Hp.
  destruct (try_catch _ _ _) as [res fr]. exact Hp.
Qed.

Lemma request_speech_conversationCache text out s :
  conversationCache (request_speech text out s).2 = conversationCache s.
Proof.
  unfold request_speech, try_catch, throw, modify, gets, mbind, M_bind, mret, M_ret.
  simpl. destruct (speak_result_of out) as [e|status body]; simpl; [done|].
  by destruct (status =? 200)%Z.
Qed.

Lemma generateTTS_conversationCache text out s :
  conversationCache (generateTTS text out s).2 = conversationCache s.
Proof.
  destruct (generateTTS_cases text out s) as [->|(t & -> & ->)]; [done|].
  apply request_speech_conversationCache.
Qed.

Lemma serve_all_snoc cs c s : serve_all (cs ++ [c]) s = serve c (serve_all cs s).
Proof. unfold serve_all. by rewrite fold_left_app. Qed.

(** X1. Over any sequence of calls to [generateTTS] and
    [processTranscript], with any answers from the outside and any time
    in between, neither cache grows beyond [MAX_SIZE] entries. *)
Theorem caches_never_exceed_MAX_SIZE (cs : list service_call) (s : state) :
  JsMap.size (ttsCache s) ≤ CACHE_CONFIG.MAX_SIZE →
  JsMap.size (conversationCache s) ≤ CACHE_CONFIG.MAX_SIZE →
  JsMap.size (ttsCache (serve_all cs s)) ≤ CACHE_CONFIG.MAX_SIZE
  ∧ JsMap.size (conversationCache (serve_all cs s)) ≤ CACHE_CONFIG.MAX_SIZE.
Proof.
  intros Htts Hconv. induction cs as [|c cs IH] using rev_ind; [done|].
  rewrite serve_all_snoc. destruct IH as [IHt IHc].
  destruct c as [text out|transcript sid currentName llm db|dt]; simpl.
  - rewrite generateTTS_conversationCache. split; [|done].
    by apply generateTTS_size.
  - rewrite processTranscript_ttsCache. split; [done|].
    by apply processTranscript_size.
  - done.
Qed.

Lemma caches_never_exceed_MAX_SIZE_witness :
  JsMap.size (ttsCache (serve_all busy_hour Service.initial)) ≤ CACHE_CONFIG.MAX_SIZE
  ∧ JsMap.size (conversationCache (serve_all busy_hour Service.initial))
    ≤ CACHE_CONFIG.MAX_SIZE.
Proof.
  apply (caches_never_exceed_MAX_SIZE busy_hour Service.initial);
    unfold CACHE_CONFIG.MAX_SIZE; simpl; lia.
Defined.

(** *** The requests a call makes *)

#[local] Instance adds_only_refl P : Reflexive (adds_only P).
Proof. intros fr. exists []. by rewrite app_nil_r. Qed.

#[local] Instance adds_only_trans P : Transitive (adds_only P).
Proof.
  intros a b c (m1 & H1 & F1) (m2 & H2 & F2). exists (m1 ++ m2). split.
  - by rewrite H2, H1, app_assoc.
  - by apply Forall_app.
Qed.

Lemma adds_only_same P (f : frame → frame) :
  (∀ fr, requests (global (f fr)) = requests (global fr)) →
  preserves (adds_only P) (modify f).
Proof.
  intros Hf. apply preserves_modify. intros fr. exists [].
  by rewrite Hf, app_nil_r.
Qed.

Lemma adds_only_log (P : request → Prop) r :
  P r → preserves (adds_only P) (modify (on_global (log r))).
Proof.
  intros Hr. apply preserves_modify. intros fr. exists [r].
  split; [done | by constructor].
Qed.

Lemma interpret_adds_only_store transcript currentName message db :
  preserves (adds_only is_store) (interpret transcript currentName message db).
Proof.
  unfold interpret, interpret_function_call, schedule_appointment, ask,
    assign_aiResponse, assign_extractedName.
  repeat first [ preserves_step
               | apply adds_only_log; exact I
               | apply adds_only_same; by intros [] ].
Qed.

(** When the model does not answer, the request has been made all the
    same, and the call has waited for the answer or for the timer. *)
Lemma ask_model_fails transcript sid currentName llm s fr1 :
  model_fails llm →
  open_history transcript sid (fresh_frame s) = (Ok (), fr1) →
  ∃ e fr2,
    ask_model currentName llm fr1 = (Throw e, fr2)
    ∧ global fr2
      = elapse (Z.min (llm_latency llm) 10000)
          (log (chat_request transcript sid currentName s) (global fr1)).
Proof.
  intros Hfail Hopen. rewrite open_history_exact in Hopen.
  injection Hopen as <-.
  assert (∀ c, default [] (JsMap.get sid (JsMap.set sid
            (stored_history sid s ++ [caller_turn transcript]) c))
          = stored_history sid s ++ [caller_turn transcript]) as Hget.
  { intros c. by rewrite get_set_same. }
  unfold ask_model, chat_with_timeout, history, gets, modify, throw, mbind,
    M_bind, mret, M_ret, chat_request, prompt_context. simpl.
  destruct (llm_latency llm <? 10000)%Z eqn:Hlat; simpl.
  - apply Z.ltb_lt in Hlat. rewrite Z.min_l by lia.
    destruct Hfail as [Hlate|[[e He]| Hnone]]; [lia | |].
    + rewrite He. simpl. case_bool_decide; simpl; rewrite ?Hget;
        by eexists _, _.
    + rewrite Hnone. simpl. case_bool_decide; simpl; rewrite ?Hget;
        by eexists _, _.
  - apply Z.ltb_ge in Hlat. rewrite Z.min_r by lia.
    case_bool_decide; simpl; rewrite ?Hget; by eexists _, _.
Qed.

(** The state an unanswered call leaves. *)
Lemma processTranscript_unanswered_exact transcript sid currentName llm db s :
  trim transcript ≠ EmptyString →
  model_fails llm →
  let turns := stored_history sid s ++ [caller_turn transcript] in
  processTranscript (Some transcript) sid currentName llm db s
  = (Ok {| response := Some unable; extractedName := None |},
     elapse (Z.min (llm_latency llm) 10000)
       (log (chat_request transcript sid currentName s)
          (if bool_decide (is_Some (JsMap.get sid (conversationCache s)))
           then set_conversationCache (JsMap.set sid turns) s else s))).
Proof.
  intros Htext Hfail turns.
  pose proof (open_history_exact transcript sid s) as Hopen. simpl in Hopen.
  destruct (ask_model_fails transcript sid currentName llm s _ Hfail Hopen)
    as (e & fr2 & Hask & Hglobal).
  unfold processTranscript. rewrite trim_nonempty by done.
  unfold call, try_catch, process_body. fold (fresh_frame s).
  rewrite (bind_ok _ _ _ _ _ Hopen).
  rewrite (bind_throw _ _ _ _ _ Hask). simpl. by rewrite Hglobal.
Qed.

(** Every call with something in the transcript makes one chat request,
    first, and after it only requests to the appointment store. *)
Lemma processTranscript_requests transcript sid currentName llm db s :
  trim transcript ≠ EmptyString →
  ∃ more,
    requests (processTranscript (Some transcript) sid currentName llm db s).2
    = requests s ++ chat_request transcript sid currentName s :: more
    ∧ Forall is_store more.
Proof.
  intros Htext.
  destruct (model_answers_or_fails llm) as [[message Hllm]|Hfail].
  - rewrite (processTranscript_answered_exact _ _ _ _ db _ _ Htext Hllm).
    simpl. unfold frame_interpreted.
    destruct (interpret_adds_only_store transcript currentName message db
                (frame_at_answer transcript sid currentName llm s))
      as (more & Hreq & Hmore).
    exists more. split; [|done]. rewrite Hreq.
    unfold frame_at_answer, chat_request. simpl.
    rewrite <- app_assoc. by case_bool_decide.
  - rewrite (processTranscript_unanswered_exact _ _ _ _ db _ Htext Hfail).
    exists []. split; [|done]. simpl. by case_bool_decide.
Qed.

Lemma final_reply_content message :
  final_reply (llm_content message) message = final_reply None message.
Proof.
  unfold final_reply. simpl. by destruct (nonempty (llm_content message)).
Qed.

(** An answered call, read off the interpretation of the message. *)
Lemma processTranscript_interpreted transcript sid currentName llm db s message fr :
  trim transcript ≠ EmptyString →
  answers llm message →
  (interpret transcript currentName message db
     (frame_at_answer transcript sid currentName llm s)).2 = fr →
  let result := processTranscript (Some transcript) sid currentName llm db s in
  result.1 = Ok {| response := final_reply (aiResponse fr) message;
                   extractedName := extractedName_var fr |}
  ∧ requests result.2 = requests (global fr).
Proof.
  intros Htext Hllm <- result. subst result.
  by rewrite (processTranscript_answered_exact _ _ _ _ db _ _ Htext Hllm).
Qed.

Ltac interpreted Htext Hllm :=
  match type of Hllm with
  | answers ?llm ?message =>
      match goal with
      | |- context [processTranscript (Some ?transcript) ?sid ?currentName llm ?db ?s] =>
          let Hres := fresh "Hres" in
          let Hreq := fresh "Hreq" in
          pose proof (processTranscript_interpreted transcript sid currentName
                        llm db s message _ Htext Hllm eq_refl) as [Hres Hreq];
          cbv zeta; rewrite Hres, Hreq; clear Hres Hreq;
          unfold asks_for in *;
          unfold interpret, interpret_function_call, schedule_appointment, ask,
            assign_aiResponse, assign_extractedName, modify, try_catch, lift_exc,
            mbind, M_bind, mret, M_ret; simpl
      end
  end.

Ltac answered :=
  rewrite ?final_reply_content; split; [done|];
  unfold chat_request; rewrite <- ?app_assoc; simpl; by case_bool_decide.

Lemma capped_keeps_exchange (old : list chat_message) (u a : chat_message) :
  [u; a] `suffix_of` capped (old ++ [u; a]).
Proof.
  unfold capped, slice_last. case_decide.
  - rewrite drop_app_le.
    + by eexists.
    + rewrite length_app. unfold CACHE_CONFIG.MAX_HISTORY. simpl. lia.
  - by eexists.
Qed.

Lemma put_other {V} (k k' : key) (v : V) (c : JsMap.t key V) :
  k ≠ k' →
  JsMap.size c ≤ CACHE_CONFIG.MAX_SIZE →
  k ∈ JsMap.keys c ∨ JsMap.size c < CACHE_CONFIG.MAX_SIZE →
  JsMap.get k' (put k v c) = JsMap.get k' c.
Proof.
  intros Hne Hsz Hroom. unfold put. rewrite manageCache_within.
  - by apply get_set_other.
  - destruct Hroom as [Hin|Hlt].
    + by rewrite size_set_present.
    + pose proof (size_set_le k v c). lia.
Qed.

Ltac unreachable :=
  match goal with
  | |- preserves _ (mbind _ (lift_exc (identifier _ _))) =>
      let fr := fresh "fr" in
      intros fr; unfold mbind, M_bind, lift_exc;
      rewrite ?phoneNumber_unbound; simpl; reflexivity
  end.

Lemma process_body_adds_no_create transcript sid currentName llm db :
  preserves (adds_only (fun r => ¬ is_create r))
    (process_body transcript sid currentName llm db).
Proof.
  unfold process_body, open_history, ask_model, chat_with_timeout, interpret,
    interpret_function_call, schedule_appointment, ask, close_history, push,
    history, assign_conversationHistory, assign_aiResponse, assign_extractedName.
  repeat first [ unreachable
               | preserves_step
               | apply adds_only_log; solve [intros []]
               | apply adds_only_same; by intros [] ].
Qed.

(** *** What stays in the caches *)

Lemma keys_set_incl {K V} `{EqDecision K} (k k' : K) (v : V) (m : JsMap.t K V) :
  k ∈ JsMap.keys m → k ∈ JsMap.keys (JsMap.set k' v m).
Proof.
  unfold JsMap.keys. induction m as [|[k0 v0] m IH]; simpl;
    [by intros ?%elem_of_nil|].
  intros [->|Hin]%elem_of_cons; destruct (decide (k' = k0)); simpl.
  - apply list_elem_of_here.
  - apply list_elem_of_here.
  - by apply list_elem_of_further.
  - by apply list_elem_of_further, IH.
Qed.

Lemma keys_delete_other {K V} `{EqDecision K} (k k' : K) (m : JsMap.t K V) :
  k ≠ k' → k ∈ JsMap.keys m → k ∈ JsMap.keys (JsMap.delete k' m).
Proof.
  unfold JsMap.keys. intros Hne. induction m as [|[k0 v0] m IH]; simpl;
    [by intros ?%elem_of_nil|].
  intros [->|Hin]%elem_of_cons; destruct (decide (k' = k0)); simpl.
  - congruence.
  - apply list_elem_of_here.
  - done.
  - by apply list_elem_of_further, IH.
Qed.

Lemma first_key_set {K V} `{EqDecision K} (k : K) (v : V) (m : JsMap.t K V) :
  m ≠ [] → JsMap.first_key (JsMap.set k v m) = JsMap.first_key m.
Proof.
  destruct m as [|[k0 v0] m]; [done|]. intros _. unfold JsMap.first_key. simpl.
  by destruct (decide (k = k0)).
Qed.

(** [manageCache] takes nothing from a cache within its cap, and from a
    cache over it only the first entry. *)
Lemma manageCache_keeps {K V} `{EqDecision K} (k : K) (m : JsMap.t K V) :
  k ∈ JsMap.keys m →
  JsMap.size m ≤ CACHE_CONFIG.MAX_SIZE ∨ JsMap.first_key m ≠ Some k →
  k ∈ JsMap.keys (manageCache m).
Proof.
  intros Hin Hroom. unfold manageCache. case_decide as Hover; [|done].
  destruct Hroom as [?|Hfirst]; [lia|].
  destruct (JsMap.first_key m) as [k0|] eqn:Hk0; [|done].
  apply keys_delete_other; [congruence | done].
Qed.

Lemma put_keeps {V} (k sid : key) (v : V) (c : JsMap.t key V) :
  k ∈ JsMap.keys c →
  JsMap.size c < CACHE_CONFIG.MAX_SIZE ∨ JsMap.first_key c ≠ Some k →
  k ∈ JsMap.keys (put sid v c).
Proof.
  intros Hin Hroom. unfold put. apply manageCache_keeps.
  - by apply keys_set_incl.
  - destruct Hroom as [Hlt|Hfirst].
    + left. pose proof (size_set_le sid v c). lia.
    + right. rewrite first_key_set; [done|]. intros ->. by apply elem_of_nil in Hin.
Qed.

(** A call for any session keeps every record of the conversation cache,
    except the oldest one when the cache is full. *)
Lemma processTranscript_keeps transcript sid currentName llm db s k :
  k ∈ JsMap.keys (conversationCache s) →
  JsMap.size (conversationCache s) < CACHE_CONFIG.MAX_SIZE
  ∨ JsMap.first_key (conversationCache s) ≠ Some k →
  k ∈ JsMap.keys
        (conversationCache (processTranscript transcript sid currentName llm db s).2).
Proof.
  intros Hin Hroom.
  destruct transcript as [t|]; [|done].
  destruct (decide (trim t = EmptyString)) as [Hblank|Htext].
  { unfold processTranscript. by rewrite Hblank. }
  destruct (model_answers_or_fails llm) as [[message Hllm]|Hfail].
  - rewrite (processTranscript_answered_exact _ _ _ _ db _ _ Htext Hllm).
    simpl. by apply put_keeps.
  - rewrite (processTranscript_unanswered_exact _ _ _ _ db _ Htext Hfail).
    simpl. case_bool_decide; simpl; [|done]. by apply keys_set_incl.
Qed.



(** ** The service: what every call does *)

(** X2. The two caches keep apart. [generateTTS] leaves the conversation
    cache alone and asks for nothing but speech; [processTranscript]
    leaves the audio cache alone and never asks for speech. *)
Theorem speech_and_conversation_keep_apart :
  (∀ text out s,
     conversationCache (generateTTS text out s).2 = conversationCache s
     ∧ ∃ more, requests (generateTTS text out s).2 = requests s ++ more
               ∧ Forall is_speak more)
  ∧ (∀ transcript sid currentName llm db s,
       let s' := (processTranscript transcript sid currentName llm db s).2 in
       ttsCache s' = ttsCache s
       ∧ ∃ more, requests s' = requests s ++ more
                 ∧ Forall (fun r => ¬ is_speak r) more).
Proof.
  split.
  - intros text out s. split; [apply generateTTS_conversationCache|].
    destruct (generateTTS_cases text out s) as [->|(t & -> & ->)].
    + exists []. by rewrite app_nil_r.
    + exists [ReqSpeak t]. split; [apply request_speech_requests|].
      by constructor.
  - intros transcript sid currentName llm db s s'. subst s'.
    split; [apply processTranscript_ttsCache|].
    destruct transcript as [transcript|]; [|exists []; by rewrite app_nil_r].
    destruct (decide (trim transcript = EmptyString)) as [Hblank|Htext].
    + exists []. unfold processTranscript. rewrite Hblank. simpl.
      by rewrite app_nil_r.
    + destruct (processTranscript_requests transcript sid currentName llm db s
                  Htext) as (more & -> & Hmore).
      eexists. split; [done|]. constructor; [exact (fun H => H)|].
      eapply Forall_impl; [exact Hmore|]. intros r Hs Hp. by destruct r.
Qed.

(** X3. A text that is [null], [undefined], empty or white space only is
    refused with the error of the guard; any other value that is not a
    string makes [trim] throw. Either way nothing is requested and nothing
    changes. *)
Theorem generateTTS_refuses_unspeakable_text (text : value)
    (out : speak_outcome) (s : state) :
  speakable text = false →
  generateTTS text out s = (Throw (refusal text), s).
Proof.
  destruct text as [| |b|z|t|l|fields]; simpl; try done.
  intros Hblank%negb_false_iff%trim_empty_iff. by rewrite Hblank.
Qed.

Lemma generateTTS_refuses_unspeakable_text_witness :
  generateTTS (VStr "   ") (speak_ok greeting_audio) stale_greeting
  = (Throw empty_text, stale_greeting)
  ∧ generateTTS (VObj []) (speak_ok greeting_audio) stale_greeting
    = (Throw (TypeError "text.trim is not a function"), stale_greeting).
Proof.
  split.
  - exact (generateTTS_refuses_unspeakable_text (VStr "   ")
             (speak_ok greeting_audio) stale_greeting eq_refl).
  - exact (generateTTS_refuses_unspeakable_text (VObj [])
             (speak_ok greeting_audio) stale_greeting eq_refl).
Defined.

(** X4. Synthesizing a text again after its entry has expired overwrites
    the entry where it is: the new audio and the new time are stored, and
    the order of the keys, which decides what is evicted next, is the old
    one. *)
Theorem expired_entry_is_refreshed_in_place (text : string) (c : tts_entry)
    (out : speak_outcome) (body : buffer) (s : state) :
  trim text ≠ EmptyString →
  JsMap.get text (ttsCache s) = Some c →
  (CACHE_CONFIG.TTL ≤ now s - timestamp c)%Z →
  speak_result_of out = SpeakResponds 200 body →
  JsMap.size (ttsCache s) ≤ CACHE_CONFIG.MAX_SIZE →
  let s' := (generateTTS (VStr text) out s).2 in
  JsMap.keys (ttsCache s') = JsMap.keys (ttsCache s)
  ∧ JsMap.get text (ttsCache s')
    = Some {| data := body; timestamp := now s + speak_latency out |}.
Proof.
  intros Htext Hget Hold Hout Hsz s'. subst s'.
  rewrite generateTTS_miss; [|done|].
  2: { intros c' Hc'. by simplify_eq. }
  rewrite (request_speech_ok _ _ _ _ Hout). simpl.
  pose proof (get_Some_keys _ _ _ Hget) as Hin.
  rewrite manageCache_within by (by rewrite size_set_present).
  split; [by apply keys_set_present | apply get_set_same].
Qed.

Lemma expired_entry_is_refreshed_in_place_witness :
  let s' := (generateTTS (VStr greeting_text) (speak_ok chunk1) stale_greeting).2 in
  JsMap.keys (ttsCache s') = JsMap.keys (ttsCache stale_greeting)
  ∧ JsMap.get greeting_text (ttsCache s')
    = Some {| data := chunk1; timestamp := now stale_greeting + 350 |}.
Proof.
  apply (expired_entry_is_refreshed_in_place greeting_text
           {| data := greeting_audio; timestamp := 0 |} (speak_ok chunk1) chunk1
           stale_greeting); try reflexivity; try done.
  unfold CACHE_CONFIG.MAX_SIZE. simpl. lia.
Defined.

(** X5. A transcript that is missing, empty or white space only is
    answered with the request to repeat; the model is not asked and
    nothing is stored. *)
Theorem blank_transcript_is_not_processed (transcript : option string)
    (sid : key) (currentName : option string) (llm : llm_outcome)
    (db : appointment_store) (s : state) :
  blank_transcript transcript = true →
  processTranscript transcript sid currentName llm db s
  = (Ok {| response := Some not_caught; extractedName := None |}, s).
Proof.
  destruct transcript as [t|]; simpl; [|done].
  intros Hblank%trim_empty_iff. by rewrite Hblank.
Qed.

Lemma blank_transcript_is_not_processed_witness :
  processTranscript (Some "  ") (KStr "MZ0001") None alex_introduces
    open_calendar after_first_turn
  = (Ok {| response := Some not_caught; extractedName := None |}, after_first_turn).
Proof.
  exact (blank_transcript_is_not_processed (Some "  ") (KStr "MZ0001") None
           alex_introduces open_calendar after_first_turn eq_refl).
Defined.

(** X6. Whatever the transcript, the model and the store do,
    [processTranscript] returns a reply with some text in it: never
    [null], never the empty string. *)
Theorem reply_is_never_empty (transcript : option string) (sid : key)
    (currentName : option string) (llm : llm_outcome) (db : appointment_store)
    (s : state) :
  ∃ text name,
    (processTranscript transcript sid currentName llm db s).1
    = Ok {| response := Some text; extractedName := name |}
    ∧ text ≠ EmptyString.
Proof.
  destruct transcript as [t|]; [|by eexists _, _].
  destruct (decide (trim t = EmptyString)) as [Hblank|Htext].
  - unfold processTranscript. rewrite Hblank. by eexists _, _.
  - destruct (model_answers_or_fails llm) as [[message Hllm]|Hfail].
    + rewrite (processTranscript_answered_exact _ _ _ _ db _ _ Htext Hllm).
      simpl. unfold final_reply.
      destruct (aiResponse _) as [a|] eqn:Ha; simpl.
      * destruct (String.eqb a EmptyString) eqn:Hempty; simpl.
        -- destruct (llm_content message) as [m|]; simpl;
             [destruct (String.eqb m EmptyString) eqn:Hm; simpl|];
             eexists _, _; (split; [reflexivity|]); try done.
           by apply String.eqb_neq.
        -- eexists _, _. split; [reflexivity|]. by apply String.eqb_neq.
      * destruct (llm_content message) as [m|]; simpl;
          [destruct (String.eqb m EmptyString) eqn:Hm; simpl|];
          eexists _, _; (split; [reflexivity|]); try done.
        by apply String.eqb_neq.
    + rewrite (processTranscript_unanswered_exact _ _ _ _ db _ Htext Hfail).
      by eexists _, _.
Qed.

(** X7. When the model does not answer the first utterance of a session,
    the caller's words are not kept: the conversation cache is as it was
    before the call. *)
Theorem unanswered_first_utterance_is_forgotten (transcript : string)
    (sid : key) (currentName : option string) (llm : llm_outcome)
    (db : appointment_store) (s : state) :
  trim transcript ≠ EmptyString →
  model_fails llm →
  JsMap.get sid (conversationCache s) = None →
  let result := processTranscript (Some transcript) sid currentName llm db s in
  result.1 = Ok {| response := Some unable; extractedName := None |}
  ∧ conversationCache result.2 = conversationCache s.
Proof.
  intros Htext Hfail Hnew result. subst result.
  rewrite (processTranscript_unanswered_exact _ _ _ _ db _ Htext Hfail).
  simpl. rewrite Hnew. by rewrite bool_decide_eq_false_2 by (by intros [? ?]).
Qed.

Lemma unanswered_first_utterance_is_forgotten_witness :
  let result := processTranscript (Some "Hello?") (KStr "MZ0002") None llm_silent
                  open_calendar after_first_turn in
  result.1 = Ok {| response := Some unable; extractedName := None |}
  ∧ conversationCache result.2 = conversationCache after_first_turn.
Proof.
  apply (unanswered_first_utterance_is_forgotten "Hello?" (KStr "MZ0002") None
           llm_silent open_calendar after_first_turn).
  - done.
  - right. by right.
  - reflexivity.
Defined.

(** X8. An answer that takes ten seconds or more is discarded, whatever it
    says: the reply is the one of the outer [catch], the call has waited
    exactly ten seconds, and the chat request is the only request made. *)
Theorem late_answer_is_discarded (transcript : string) (sid : key)
    (currentName : option string) (llm : llm_outcome) (db : appointment_store)
    (s : state) :
  trim transcript ≠ EmptyString →
  (10000 ≤ llm_latency llm)%Z →
  let result := processTranscript (Some transcript) sid currentName llm db s in
  result.1 = Ok {| response := Some unable; extractedName := None |}
  ∧ now result.2 = (now s + 10000)%Z
  ∧ requests result.2 = requests s ++ [chat_request transcript sid currentName s].
Proof.
  intros Htext Hlate result. subst result.
  rewrite (processTranscript_unanswered_exact _ _ _ _ db _ Htext) by (by left).
  simpl. rewrite Z.min_r by lia. by case_bool_decide.
Qed.

Lemma late_answer_is_discarded_witness :
  let result := processTranscript (Some "Are you there?") (KStr "MZ0001")
                  (Some "Alex") llm_times_out open_calendar after_first_turn in
  result.1 = Ok {| response := Some unable; extractedName := None |}
  ∧ now result.2 = (now after_first_turn + 10000)%Z
  ∧ requests result.2
    = requests after_first_turn
      ++ [chat_request "Are you there?" (KStr "MZ0001") (Some "Alex")
            after_first_turn].
Proof.
  apply (late_answer_is_discarded "Are you there?" (KStr "MZ0001") (Some "Alex")
           llm_times_out open_calendar after_first_turn).
  - done.
  - simpl. lia.
Defined.

(** ** The service: what the model's function calls come to *)

(** X9. When the model calls [extractName] without confidence, no name is
    returned and the reply is the model's text, or the stock question when
    it sent none; nothing but the chat request is made. *)
Theorem unconfident_name_is_ignored (transcript : string) (sid : key)
    (currentName : option string) (llm : llm_outcome) (db : appointment_store)
    (s : state) (message : llm_message) (args confidence : value) :
  trim transcript ≠ EmptyString →
  answers llm message →
  asks_for message "extractName" args →
  get_prop args "confidence" = Ok confidence →
  truthy confidence = false →
  let result := processTranscript (Some transcript) sid currentName llm db s in
  result.1 = Ok {| response := final_reply None message; extractedName := None |}
  ∧ requests result.2 = requests s ++ [chat_request transcript sid currentName s].
Proof.
  intros Htext Hllm Hfc Hprop Hconf.
  interpreted Htext Hllm. rewrite Hfc. simpl. rewrite Hprop. simpl.
  rewrite Hconf. simpl.
  by answered.
Qed.

Lemma unconfident_name_is_ignored_witness :
  let result := processTranscript (Some "It is, um") (KStr "MZ0001") None
                  (llm_calls "extractName" (Ok unsure_of_name)) open_calendar
                  Service.initial in
  result.1 = Ok {| response := Some "How can I assist you today?"%string;
                   extractedName := None |}
  ∧ requests result.2
    = requests Service.initial
      ++ [chat_request "It is, um" (KStr "MZ0001") None Service.initial].
Proof.
  apply (unconfident_name_is_ignored "It is, um" (KStr "MZ0001") None
           (llm_calls "extractName" (Ok unsure_of_name)) open_calendar
           Service.initial
           {| llm_content := None;
              llm_function_call :=
                Some {| fc_name := "extractName";
                        fc_arguments := Ok unsure_of_name |} |}
           unsure_of_name (VBool false)).
  - done.
  - split; [simpl; lia | by exists []].
  - reflexivity.
  - reflexivity.
  - reflexivity.
Defined.

(** X10. A function call that is neither [extractName] nor
    [scheduleAppointment] has no effect once its arguments parse, and
    [extractAppointmentTime], which the request offers to the model, is
    such a call: the reply is the model's text or the stock question, no
    name is returned and the appointment store is not asked. *)
Theorem unhandled_function_is_a_plain_reply (transcript : string) (sid : key)
    (currentName : option string) (llm : llm_outcome) (db : appointment_store)
    (s : state) (message : llm_message) (name : string) (args : value) :
  trim transcript ≠ EmptyString →
  answers llm message →
  asks_for message name args →
  name ≠ "extractName"%string →
  name ≠ "scheduleAppointment"%string →
  let result := processTranscript (Some transcript) sid currentName llm db s in
  result.1 = Ok {| response := final_reply None message; extractedName := None |}
  ∧ requests result.2 = requests s ++ [chat_request transcript sid currentName s].
Proof.
  intros Htext Hllm Hfc Hname1%String.eqb_neq Hname2%String.eqb_neq.
  interpreted Htext Hllm. rewrite Hfc. simpl. rewrite Hname1, Hname2. simpl.
  by answered.
Qed.

Lemma unhandled_function_is_a_plain_reply_witness :
  "extractAppointmentTime"%string ∈ function_names
  ∧ let result := processTranscript (Some "Monday at ten") (KStr "MZ0001")
                    (Some "Alex")
                    (llm_calls "extractAppointmentTime" (Ok time_request))
                    open_calendar Service.initial in
    result.1 = Ok {| response := Some "How can I assist you today?"%string;
                     extractedName := None |}
    ∧ requests result.2
      = requests Service.initial
        ++ [chat_request "Monday at ten" (KStr "MZ0001") (Some "Alex")
              Service.initial].
Proof.
  split; [apply list_elem_of_further, list_elem_of_here|].
  apply (unhandled_function_is_a_plain_reply "Monday at ten" (KStr "MZ0001")
           (Some "Alex") (llm_calls "extractAppointmentTime" (Ok time_request))
           open_calendar Service.initial
           {| llm_content := None;
              llm_function_call :=
                Some {| fc_name := "extractAppointmentTime";
                        fc_arguments := Ok time_request |} |}
           "extractAppointmentTime" time_request).
  - done.
  - split; [simpl; lia | by exists []].
  - reflexivity.
  - done.
  - done.
Defined.

(** X11. The action ["check"] asks the store once whether the time is
    free and says what it answered; nothing is booked. *)
Theorem check_reports_availability (transcript : string) (sid : key)
    (currentName : option string) (llm : llm_outcome) (db : appointment_store)
    (s : state) (message : llm_message) (args time available : value) :
  trim transcript ≠ EmptyString →
  answers llm message →
  asks_for message "scheduleAppointment" args →
  get_prop args "appointmentTime" = Ok time →
  get_prop args "action" = Ok (VStr "check") →
  checkAvailability db time = Ok available →
  let result := processTranscript (Some transcript) sid currentName llm db s in
  result.1
  = Ok {| response := Some (
            if truthy available
            then "Yes, " ++ to_string time ++ " is available. Would you like me to schedule this appointment for you?"
            else "I apologize, but " ++ to_string time ++ " is not available. Would you like me to find the next available time?")%string;
          extractedName := None |}
  ∧ requests result.2
    = requests s ++ [chat_request transcript sid currentName s;
                     ReqCheckAvailability time].
Proof.
  intros Htext Hllm Hfc Htime Haction Hfree.
  interpreted Htext Hllm. rewrite Hfc. simpl. rewrite Htime. simpl.
  rewrite Haction. simpl. rewrite Hfree. simpl.
  destruct (truthy available); by answered.
Qed.

Lemma check_reports_availability_witness :
  let result := processTranscript (Some "Is Monday at ten free?") (KStr "MZ0001")
                  (Some "Alex")
                  (llm_calls "scheduleAppointment" (Ok check_request))
                  (taken_calendar VNull) Service.initial in
  result.1
  = Ok {| response := Some "I apologize, but 2025-03-03T10:00:00Z is not available. Would you like me to find the next available time?"%string;
          extractedName := None |}
  ∧ requests result.2
    = requests Service.initial
      ++ [chat_request "Is Monday at ten free?" (KStr "MZ0001") (Some "Alex")
            Service.initial;
          ReqCheckAvailability (VStr "2025-03-03T10:00:00Z")].
Proof.
  apply (check_reports_availability "Is Monday at ten free?" (KStr "MZ0001")
           (Some "Alex") (llm_calls "scheduleAppointment" (Ok check_request))
           (taken_calendar VNull) Service.initial
           {| llm_content := None;
              llm_function_call :=
                Some {| fc_name := "scheduleAppointment";
                        fc_arguments := Ok check_request |} |}
           check_request (VStr "2025-03-03T10:00:00Z") (VBool false)).
  - done.
  - split; [simpl; lia | by exists []].
  - reflexivity.
  - reflexivity.
  - reflexivity.
  - reflexivity.
Defined.

(** X12. The action ["suggest_next"] asks the store once for the next time
    and offers it, or says that none was found; availability is not
    checked and nothing is booked. *)
Theorem suggest_next_offers_next_time (transcript : string) (sid : key)
    (currentName : option string) (llm : llm_outcome) (db : appointment_store)
    (s : state) (message : llm_message) (args time next : value) :
  trim transcript ≠ EmptyString →
  answers llm message →
  asks_for message "scheduleAppointment" args →
  get_prop args "appointmentTime" = Ok time →
  get_prop args "action" = Ok (VStr "suggest_next") →
  nextTime db time = Ok next →
  let result := processTranscript (Some transcript) sid currentName llm db s in
  result.1
  = Ok {| response := Some (
            if truthy next
            then "The next available appointment time is " ++ to_string next ++ ". Would you like to schedule this time instead?"
            else "I'm having trouble finding the next available appointment time. Could you please try a different date or time?")%string;
          extractedName := None |}
  ∧ requests result.2
    = requests s ++ [chat_request transcript sid currentName s; ReqNextTime time].
Proof.
  intros Htext Hllm Hfc Htime Haction Hnext.
  interpreted Htext Hllm. rewrite Hfc. simpl. rewrite Htime. simpl.
  rewrite Haction. simpl. rewrite Hnext. simpl.
  destruct (truthy next); by answered.
Qed.

Lemma suggest_next_offers_next_time_witness :
  let result := processTranscript (Some "What else do you have?") (KStr "MZ0001")
                  (Some "Alex")
                  (llm_calls "scheduleAppointment" (Ok suggest_request))
                  open_calendar Service.initial in
  result.1
  = Ok {| response := Some "The next available appointment time is 2025-03-04T09:00:00Z. Would you like to schedule this time instead?"%string;
          extractedName := None |}
  ∧ requests result.2
    = requests Service.initial
      ++ [chat_request "What else do you have?" (KStr "MZ0001") (Some "Alex")
            Service.initial;
          ReqNextTime (VStr "2025-03-03T10:00:00Z")].
Proof.
  apply (suggest_next_offers_next_time "What else do you have?" (KStr "MZ0001")
           (Some "Alex") (llm_calls "scheduleAppointment" (Ok suggest_request))
           open_calendar Service.initial
           {| llm_content := None;
              llm_function_call :=
                Some {| fc_name := "scheduleAppointment";
                        fc_arguments := Ok suggest_request |} |}
           suggest_request (VStr "2025-03-03T10:00:00Z")
           (VStr "2025-03-04T09:00:00Z")).
  - done.
  - split; [simpl; lia | by exists []].
  - reflexivity.
  - reflexivity.
  - reflexivity.
  - reflexivity.
Defined.

(** X13. The action ["schedule"] for a time the store reports taken asks
    for the next time and offers it, or asks for another time when there
    is none. *)
Theorem schedule_of_taken_slot_offers_next (transcript : string) (sid : key)
    (currentName : option string) (llm : llm_outcome) (db : appointment_store)
    (s : state) (message : llm_message) (args time available next : value) :
  trim transcript ≠ EmptyString →
  answers llm message →
  asks_for message "scheduleAppointment" args →
  get_prop args "appointmentTime" = Ok time →
  get_prop args "action" = Ok (VStr "schedule") →
  checkAvailability db time = Ok available →
  truthy available = false →
  nextTime db time = Ok next →
  let result := processTranscript (Some transcript) sid currentName llm db s in
  result.1
  = Ok {| response := Some (
            if truthy next
            then "I apologize, but that time was just taken. The next available time is " ++ to_string next ++ ". Would you like this time instead?"
            else "I apologize, but that time is no longer available. Could you please provide another preferred time?")%string;
          extractedName := None |}
  ∧ requests result.2
    = requests s ++ [chat_request transcript sid currentName s;
                     ReqCheckAvailability time; ReqNextTime time].
Proof.
  intros Htext Hllm Hfc Htime Haction Hfree Htaken Hnext.
  interpreted Htext Hllm. rewrite Hfc. simpl. rewrite Htime. simpl.
  rewrite Haction. simpl. rewrite Hfree. simpl. rewrite Htaken. simpl.
  rewrite Hnext. simpl.
  destruct (truthy next); by answered.
Qed.

Lemma schedule_of_taken_slot_offers_next_witness :
  let result := processTranscript (Some "Please book it") (KStr "MZ0001")
                  (Some "Alex")
                  (llm_calls "scheduleAppointment" (Ok schedule_request))
                  (taken_calendar VNull) after_first_turn in
  result.1
  = Ok {| response := Some "I apologize, but that time is no longer available. Could you please provide another preferred time?"%string;
          extractedName := None |}
  ∧ requests result.2
    = requests after_first_turn
      ++ [chat_request "Please book it" (KStr "MZ0001") (Some "Alex")
            after_first_turn;
          ReqCheckAvailability (VStr "2025-03-03T10:00:00Z");
          ReqNextTime (VStr "2025-03-03T10:00:00Z")].
Proof.
  apply (schedule_of_taken_slot_offers_next "Please book it" (KStr "MZ0001")
           (Some "Alex") (llm_calls "scheduleAppointment" (Ok schedule_request))
           (taken_calendar VNull) after_first_turn
           {| llm_content := None;
              llm_function_call :=
                Some {| fc_name := "scheduleAppointment";
                        fc_arguments := Ok schedule_request |} |}
           schedule_request (VStr "2025-03-03T10:00:00Z") (VBool false) VNull).
  - done.
  - split; [simpl; lia | by exists []].
  - reflexivity.
  - reflexivity.
  - reflexivity.
  - reflexivity.
  - reflexivity.
  - reflexivity.
Defined.

(** X14. The action ["schedule"] for a time the store reports free never
    books it, whatever the caller, the time and the store: availability is
    checked, reading [phoneNumber] throws before the store is asked to
    create anything, and the reply is the apology of the inner [catch]. *)
Theorem free_slot_is_never_booked (transcript : string) (sid : key)
    (currentName : option string) (llm : llm_outcome) (db : appointment_store)
    (s : state) (message : llm_message) (args time available : value) :
  trim transcript ≠ EmptyString →
  answers llm message →
  asks_for message "scheduleAppointment" args →
  get_prop args "appointmentTime" = Ok time →
  get_prop args "action" = Ok (VStr "schedule") →
  checkAvailability db time = Ok available →
  truthy available = true →
  let result := processTranscript (Some transcript) sid currentName llm db s in
  result.1 = Ok {| response := Some apology; extractedName := None |}
  ∧ requests result.2
    = requests s ++ [chat_request transcript sid currentName s;
                     ReqCheckAvailability time].
Proof.
  intros Htext Hllm Hfc Htime Haction Hfree Hyes.
  interpreted Htext Hllm. rewrite Hfc. simpl. rewrite Htime. simpl.
  rewrite Haction. simpl. rewrite Hfree. simpl. rewrite Hyes. simpl.
  by answered.
Qed.

Lemma free_slot_is_never_booked_witness :
  let result := processTranscript (Some "Please book it") (KStr "MZ0002")
                  (Some "Sam")
                  (llm_calls "scheduleAppointment" (Ok schedule_request))
                  open_calendar after_first_turn in
  result.1 = Ok {| response := Some apology; extractedName := None |}
  ∧ requests result.2
    = requests after_first_turn
      ++ [chat_request "Please book it" (KStr "MZ0002") (Some "Sam")
            after_first_turn;
          ReqCheckAvailability (VStr "2025-03-03T10:00:00Z")].
Proof.
  apply (free_slot_is_never_booked "Please book it" (KStr "MZ0002")
           (Some "Sam") (llm_calls "scheduleAppointment" (Ok schedule_request))
           open_calendar after_first_turn
           {| llm_content := None;
              llm_function_call :=
                Some {| fc_name := "scheduleAppointment";
                        fc_arguments := Ok schedule_request |} |}
           schedule_request (VStr "2025-03-03T10:00:00Z") (VBool true)).
  - done.
  - split; [simpl; lia | by exists []].
  - reflexivity.
  - reflexivity.
  - reflexivity.
  - reflexivity.
  - reflexivity.
Defined.

(** ** The service: the conversation record *)

(** X15. An answered call writes the conversation cache once: it is the
    cache before the call after one [put], under the session's key, of the
    record so far followed by the caller's trimmed words and the reply
    returned, cut to the last [MAX_HISTORY] turns. *)
Theorem answered_call_is_one_put (transcript : string) (sid : key)
    (currentName : option string) (llm : llm_outcome) (db : appointment_store)
    (s : state) (message : llm_message) :
  trim transcript ≠ EmptyString →
  answers llm message →
  ∃ r s',
    processTranscript (Some transcript) sid currentName llm db s = (Ok r, s')
    ∧ conversationCache s'
      = put sid (capped (stored_history sid s
                         ++ [caller_turn transcript; reply_turn r]))
          (conversationCache s).
Proof.
  intros Htext Hllm.
  rewrite (processTranscript_answered_exact _ _ _ _ db _ _ Htext Hllm).
  by eexists _, _.
Qed.

Lemma answered_call_is_one_put_witness :
  ∃ r s',
    processTranscript (Some "Are you open on Sunday?") (KStr "MZ0001") (Some "Alex")
      (llm_says "We are closed on Sundays.") open_calendar after_first_turn
    = (Ok r, s')
    ∧ conversationCache s'
      = put (KStr "MZ0001")
          (capped (stored_history (KStr "MZ0001") after_first_turn
                   ++ [caller_turn "Are you open on Sunday?"; reply_turn r]))
          (conversationCache after_first_turn).
Proof.
  apply (answered_call_is_one_put "Are you open on Sunday?" (KStr "MZ0001")
           (Some "Alex") (llm_says "We are closed on Sundays.") open_calendar
           after_first_turn
           {| llm_content := Some "We are closed on Sundays.";
              llm_function_call := None |}).
  - done.
  - split; [simpl; lia | by exists []].
Defined.

(** X16. After an answered call the record stored for the session holds
    at most [MAX_HISTORY] turns, it is a tail of the turns so far, and it
    ends with the caller's words and the reply returned. *)
Theorem answered_history_ends_with_exchange (transcript : string) (sid : key)
    (currentName : option string) (llm : llm_outcome) (db : appointment_store)
    (s : state) (message : llm_message) :
  trim transcript ≠ EmptyString →
  answers llm message →
  JsMap.size (conversationCache s) ≤ CACHE_CONFIG.MAX_SIZE →
  ∃ r s' h,
    processTranscript (Some transcript) sid currentName llm db s = (Ok r, s')
    ∧ JsMap.get sid (conversationCache s') = Some h
    ∧ length h ≤ CACHE_CONFIG.MAX_HISTORY
    ∧ [caller_turn transcript; reply_turn r] `suffix_of` h
    ∧ h `suffix_of` stored_history sid s ++ [caller_turn transcript; reply_turn r].
Proof.
  intros Htext Hllm Hsz.
  rewrite (processTranscript_answered_exact _ _ _ _ db _ _ Htext Hllm).
  eexists _, _, _. split; [reflexivity|]. simpl.
  split; [by apply get_after_store|].
  split; [apply capped_length|].
  split; [apply capped_keeps_exchange | apply capped_suffix].
Qed.

Lemma answered_history_ends_with_exchange_witness :
  ∃ r s' h,
    processTranscript (Some "And then?") (KStr "MZ0001") (Some "Alex")
      (llm_says "Let me check.") open_calendar (converse 5 Service.initial)
    = (Ok r, s')
    ∧ JsMap.get (KStr "MZ0001") (conversationCache s') = Some h
    ∧ length h ≤ CACHE_CONFIG.MAX_HISTORY
    ∧ [caller_turn "And then?"; reply_turn r] `suffix_of` h
    ∧ h `suffix_of` stored_history (KStr "MZ0001") (converse 5 Service.initial)
                    ++ [caller_turn "And then?"; reply_turn r].
Proof.
  apply (answered_history_ends_with_exchange "And then?" (KStr "MZ0001")
           (Some "Alex") (llm_says "Let me check.") open_calendar
           (converse 5 Service.initial)
           {| llm_content := Some "Let me check."; llm_function_call := None |}).
  - done.
  - split; [simpl; lia | by exists []].
  - vm_compute. lia.
Defined.

(** X17. A call for one session leaves the record of every other session
    as it was, as long as the cache has room: the session is known already
    or the cache is not full. *)
Theorem other_sessions_are_untouched (transcript : option string)
    (sid other : key) (currentName : option string) (llm : llm_outcome)
    (db : appointment_store) (s : state) :
  other ≠ sid →
  JsMap.size (conversationCache s) ≤ CACHE_CONFIG.MAX_SIZE →
  sid ∈ JsMap.keys (conversationCache s)
  ∨ JsMap.size (conversationCache s) < CACHE_CONFIG.MAX_SIZE →
  JsMap.get other
    (conversationCache (processTranscript transcript sid currentName llm db s).2)
  = JsMap.get other (conversationCache s).
Proof.
  intros Hne Hsz Hroom.
  destruct transcript as [t|]; [|done].
  destruct (decide (trim t = EmptyString)) as [Hblank|Htext].
  { unfold processTranscript. by rewrite Hblank. }
  destruct (model_answers_or_fails llm) as [[message Hllm]|Hfail].
  - rewrite (processTranscript_answered_exact _ _ _ _ db _ _ Htext Hllm).
    simpl. by apply put_other.
  - rewrite (processTranscript_unanswered_exact _ _ _ _ db _ Htext Hfail).
    simpl. case_bool_decide; simpl; [|done]. by apply get_set_other.
Qed.

Lemma other_sessions_are_untouched_witness :
  JsMap.get (KStr "MZ0001")
    (conversationCache
       (processTranscript (Some "Good morning") (KStr "MZ0002") None
          alex_introduces open_calendar after_first_turn).2)
  = JsMap.get (KStr "MZ0001") (conversationCache after_first_turn).
Proof.
  apply (other_sessions_are_untouched (Some "Good morning") (KStr "MZ0002")
           (KStr "MZ0001") None alex_introduces open_calendar after_first_turn).
  - done.
  - vm_compute. lia.
  - right. vm_compute. lia.
Defined.

(** X18. Every call with something in the transcript makes exactly one
    chat request, before any other: the system prompt, then the turns
    stored for the session and the caller's trimmed words, with
    [extractName] forced as long as no name is passed. Whatever else is
    requested goes to the appointment store. *)
Theorem chat_request_comes_first (transcript : string) (sid : key)
    (currentName : option string) (llm : llm_outcome) (db : appointment_store)
    (s : state) :
  trim transcript ≠ EmptyString →
  ∃ more,
    requests (processTranscript (Some transcript) sid currentName llm db s).2
    = requests s
      ++ ReqChat
           ({| msg_role := system;
               content := Some (if nonempty currentName then prompt
                                else (prompt ++ ask_for_name)%string) |}
            :: List.filter (fun msg => bool_decide (content msg ≠ None))
                 (stored_history sid s ++ [caller_turn transcript]))
           function_names
           (if nonempty currentName then Auto else Forced "extractName")
         :: more
    ∧ Forall is_store more.
Proof. apply processTranscript_requests. Qed.

Lemma chat_request_comes_first_witness :
  ∃ more,
    requests (processTranscript (Some "Please book it") (KStr "MZ0001") None
                (llm_calls "scheduleAppointment" (Ok schedule_request))
                open_calendar after_first_turn).2
    = requests after_first_turn
      ++ ReqChat
           ({| msg_role := system;
               content := Some (prompt ++ ask_for_name)%string |}
            :: List.filter (fun msg => bool_decide (content msg ≠ None))
                 (stored_history (KStr "MZ0001") after_first_turn
                  ++ [caller_turn "Please book it"]))
           function_names (Forced "extractName")
         :: more
    ∧ Forall is_store more.
Proof.
  apply (chat_request_comes_first "Please book it" (KStr "MZ0001") None
           (llm_calls "scheduleAppointment" (Ok schedule_request))
           open_calendar after_first_turn).
  done.
Defined.

(** X19. No call of [processTranscript], whatever the model asks for and
    whatever the store answers, asks the store to create an appointment. *)
Theorem store_is_never_asked_to_create (transcript : option string) (sid : key)
    (currentName : option string) (llm : llm_outcome) (db : appointment_store)
    (s : state) :
  ∃ more,
    requests (processTranscript transcript sid currentName llm db s).2
    = requests s ++ more
    ∧ Forall (fun r => ¬ is_create r) more.
Proof.
  unfold processTranscript.
  destruct transcript as [transcript|]; [|exists []; by rewrite app_nil_r].
  destruct (String.eqb (trim transcript) EmptyString);
    [exists []; by rewrite app_nil_r|].
  unfold call.
  pose proof (preserves_try_catch (adds_only (fun r => ¬ is_create r)) _ _
    (process_body_adds_no_create transcript sid currentName llm db)
    (fun _ => preserves_ret (adds_only (fun r => ¬ is_create r))
       {| response := Some unable; extractedName := None |})
    (fresh_frame s)) as Hp.
  unfold fresh_frame in Hp.
  destruct (try_catch _ _ _) as [res fr]. exact Hp.
Qed.

(** ** The controller: the transcript handler *)

Arguments processTranscript : simpl never.
Arguments generateTTS : simpl never.

(** X20. Interim results and final transcripts with nothing but white
    space in them are skipped: no call is made and nothing changes. *)
Theorem interim_and_blank_transcripts_are_skipped (is_final : bool)
    (transcript : string) (llm : llm_outcome) (db : appointment_store)
    (speak : speak_outcome) (h : handler_state) :
  is_final = false ∨ all_space transcript = true →
  on_transcript is_final transcript llm db speak h = (Ok None, h).
Proof.
  unfold on_transcript. intros [->|Hblank%trim_empty_iff]; [done|].
  rewrite Hblank. by destruct is_final.
Qed.

Lemma interim_and_blank_transcripts_are_skipped_witness :
  on_transcript false "My name is" alex_introduces open_calendar
    (speak_ok greeting_audio) handler_initial
  = (Ok None, handler_initial).
Proof.
  apply (interim_and_blank_transcripts_are_skipped false "My name is"
           alex_introduces open_calendar (speak_ok greeting_audio)
           handler_initial).
  by left.
Defined.

(** X21. The first final transcript with something in it settles the
    caller's name, whether a name was understood or not, and is never
    answered: the handler makes one call, with [true] for a session and no
    name, keeps the whole reply as [callerName], and throws at
    [updateLeadInfo], which nothing binds. The speech service is not asked
    and the handler has no audio to send. *)
Theorem first_utterance_always_names_caller (transcript : string)
    (llm : llm_outcome) (db : appointment_store) (speak : speak_outcome)
    (h : handler_state) :
  name_set (callerName h) = false →
  trim transcript ≠ EmptyString →
  let call := processTranscript (Some transcript) (KBool true) None llm db
                (service h) in
  ∃ r,
    call.1 = Ok r
    ∧ on_transcript true transcript llm db speak h
      = (Throw (ReferenceError "updateLeadInfo is not defined"),
         {| service := call.2; callerName := NameReply r;
            invocations := invocations h ++ [first_call transcript] |}).
Proof.
  intros Hname Htext call. subst call.
  destruct (processTranscript_returns (Some transcript) (KBool true) None llm db
              (service h)) as (r & s1 & Hcall).
  exists r. rewrite Hcall. split; [done|].
  unfold on_transcript. rewrite trim_nonempty by done.
  unfold invoke, in_service, assign_callerName, gets, modify, lift_exc, mbind,
    M_bind, mret, M_ret. simpl. rewrite Hname. simpl. by rewrite Hcall.
Qed.

Lemma first_utterance_always_names_caller_witness :
  let call := processTranscript (Some "What are your hours?") (KBool true) None
                (llm_calls "extractName" (Ok unsure_of_name)) open_calendar
                (service handler_initial) in
  ∃ r,
    call.1 = Ok r
    ∧ on_transcript true "What are your hours?"
        (llm_calls "extractName" (Ok unsure_of_name)) open_calendar
        (speak_ok greeting_audio) handler_initial
      = (Throw (ReferenceError "updateLeadInfo is not defined"),
         {| service := call.2; callerName := NameReply r;
            invocations := invocations handler_initial
                           ++ [first_call "What are your hours?"] |}).
Proof.
  apply (first_utterance_always_names_caller "What are your hours?"
           (llm_calls "extractName" (Ok unsure_of_name)) open_calendar
           (speak_ok greeting_audio) handler_initial).
  - reflexivity.
  - done.
Defined.

(** X22. Once [callerName] is set, no reply is ever spoken: the handler
    calls [processTranscript] with no session and no name, hands the whole
    reply object to [generateTTS], and [trim] throws on it. The speech
    service is not asked and the handler has no audio to send. *)
Theorem named_caller_is_never_answered (transcript : string)
    (llm : llm_outcome) (db : appointment_store) (speak : speak_outcome)
    (h : handler_state) :
  name_set (callerName h) = true →
  trim transcript ≠ EmptyString →
  let call := processTranscript (Some transcript) KUndefined None llm db
                (service h) in
  on_transcript true transcript llm db speak h
  = (Throw (TypeError "text.trim is not a function"),
     {| service := call.2; callerName := callerName h;
        invocations := invocations h ++ [later_call transcript] |}).
Proof.
  intros Hname Htext call. subst call.
  destruct (processTranscript_returns (Some transcript) KUndefined None llm db
              (service h)) as (r & s1 & Hcall).
  rewrite Hcall.
  unfold on_transcript. rewrite trim_nonempty by done.
  unfold invoke, in_service, assign_callerName, gets, modify, mbind, M_bind,
    mret, M_ret. simpl. rewrite Hname. simpl. by rewrite Hcall.
Qed.

Lemma named_caller_is_never_answered_witness :
  let call := processTranscript (Some "I would like a cleaning") KUndefined None
                (llm_says "Sure, when would you like to come in?") open_calendar
                (service alex_known) in
  on_transcript true "I would like a cleaning"
    (llm_says "Sure, when would you like to come in?") open_calendar
    (speak_ok greeting_audio) alex_known
  = (Throw (TypeError "text.trim is not a function"),
     {| service := call.2; callerName := callerName alex_known;
        invocations := invocations alex_known
                       ++ [later_call "I would like a cleaning"] |}).
Proof.
  apply (named_caller_is_never_answered "I would like a cleaning"
           (llm_says "Sure, when would you like to come in?") open_calendar
           (speak_ok greeting_audio) alex_known).
  - reflexivity.
  - done.
Defined.

(** X23. The handler never tells [processTranscript] which call it is
    serving nor who is calling: every call it makes has [true] or nothing
    for a session and no name, so all callers share two conversation
    records. *)
Theorem handler_calls_share_two_sessions (is_final : bool) (transcript : string)
    (llm : llm_outcome) (db : appointment_store) (speak : speak_outcome)
    (h : handler_state) :
  ∃ more,
    invocations (on_transcript is_final transcript llm db speak h).2
    = invocations h ++ more
    ∧ Forall (fun i => inv_currentName i = None
                       ∧ (inv_sessionId i = KBool true
                          ∨ inv_sessionId i = KUndefined)) more.
Proof.
  unfold on_transcript.
  destruct is_final; [|exists []; by rewrite app_nil_r].
  destruct (negb _); [|exists []; by rewrite app_nil_r].
  unfold invoke, assign_callerName, gets, modify, mbind, M_bind, mret, M_ret.
  simpl.
  destruct (negb (name_set (callerName h))); simpl;
    repeat match goal with
    | |- context [in_service ?m ?h0] =>
        let H := fresh "Hinv" in
        pose proof (in_service_invocations m h0) as H;
        destruct (in_service m h0) as [[?|?] ?]; simpl in *
    end;
    repeat match goal with
    | H : invocations _ = _ |- _ => rewrite H; clear H
    end;
    (eexists; split; [reflexivity|]; repeat constructor;
     first [by left | by right]).
Qed.

(** ** Synthesizing the same text twice *)




(** ** What expires and what does not *)

(** C6, as the code has it. An entry of the synthesized-audio cache that
    is [TTL] old or older is treated as absent, whatever the size of the
    cache: [generateTTS] does what it does on a miss and asks the speech
    service. The conversation-history cache keeps no time stamp and has no
    expiry: [processTranscript] reads, answers and stores the same however
    much time has passed; and through any call to the module and any
    passing of time a record stays in the cache, unless the cache is full
    and the record is its oldest entry. *)
Theorem tts_entry_expires_and_history_does_not :
  (∀ (s : state) (text : string) (c : tts_entry) (out : speak_outcome),
     trim text ≠ EmptyString →
     JsMap.get text (ttsCache s) = Some c →
     (CACHE_CONFIG.TTL ≤ now s - timestamp c)%Z →
     generateTTS (VStr text) out s = request_speech text out s
     ∧ requests (generateTTS (VStr text) out s).2
       = requests s ++ [ReqSpeak text])
  ∧ (∀ transcript sessionId currentName llm db (dt : Z) (s : state),
       let result := processTranscript transcript sessionId currentName llm db s in
       processTranscript transcript sessionId currentName llm db (elapse dt s)
       = (result.1, elapse dt result.2))
  ∧ (∀ (c : service_call) (s : state) (k : key),
       k ∈ JsMap.keys (conversationCache s) →
       JsMap.size (conversationCache s) < CACHE_CONFIG.MAX_SIZE
       ∨ JsMap.first_key (conversationCache s) ≠ Some k →
       k ∈ JsMap.keys (conversationCache (serve c s))).
Proof.
  split_and!.
  - intros s text c out Htext Hget Hold.
    assert (generateTTS (VStr text) out s = request_speech text out s) as Heq.
    { apply generateTTS_miss; [done|]. intros c' Hc'. congruence. }
    split; [done|]. rewrite Heq. apply request_speech_requests.
  - intros. apply processTranscript_timeless.
  - intros c s k Hin Hroom.
    destruct c as [text out|transcript sid currentName llm db|dt]; simpl.
    + by rewrite generateTTS_conversationCache.
    + by apply processTranscript_keeps.
    + done.
Qed.

(** The greeting stored exactly [TTL] ago, in a cache of one entry, is
    requested again; the record of a session is still there after a call
    for another session. *)
Lemma tts_entry_expires_witness :
  (generateTTS (VStr greeting_text) speak_unavailable stale_greeting
   = request_speech greeting_text speak_unavailable stale_greeting
   ∧ requests (generateTTS (VStr greeting_text) speak_unavailable stale_greeting).2
     = requests stale_greeting ++ [ReqSpeak greeting_text])
  ∧ KStr "MZ0001"
    ∈ JsMap.keys
        (conversationCache
           (serve (Utter (Some "Good morning") (KStr "MZ0002") None
                     alex_introduces open_calendar)
              after_first_turn)).
Proof.
  split.
  - apply (proj1 tts_entry_expires_and_history_does_not stale_greeting greeting_text
             {| data := greeting_audio; timestamp := 0 |} speak_unavailable).
    + vm_compute. discriminate.
    + reflexivity.
    + vm_compute. discriminate.
  - apply (proj2 (proj2 tts_entry_expires_and_history_does_not)
             (Utter (Some "Good morning") (KStr "MZ0002") None alex_introduces
                open_calendar)
             after_first_turn (KStr "MZ0001")).
    + apply list_elem_of_here.
    + left. vm_compute. lia.
Defined.

(** C6 as stated fails for the conversation-history cache: more than [TTL]
    after a history was stored, the cache still returns it, and the next
    call sends its turns to the model. *)
Lemma conversation_history_outlives_ttl :
  let s := elapse (CACHE_CONFIG.TTL + 1) after_first_turn in
  (CACHE_CONFIG.TTL < now s - now after_first_turn)%Z
  ∧ JsMap.get (KStr "MZ0001") (conversationCache s)
    = Some [ {| msg_role := user; content := Some "Hi there" |};
             {| msg_role := assistant; content := Some "Hello Alex, how can I help?" |} ]
  ∧ last (requests (processTranscript (Some "Are you open on Sunday?")
                      (KStr "MZ0001") (Some "Alex") (llm_says "We are closed on Sundays.")
                      open_calendar s).2)
    = Some (ReqChat
              [ {| msg_role := system; content := Some prompt |};
                {| msg_role := user; content := Some "Hi there" |};
                {| msg_role := assistant; content := Some "Hello Alex, how can I help?" |};
                {| msg_role := user; content := Some "Are you open on Sunday?" |} ]
              function_names Auto).
Proof. vm_compute. split_and!; reflexivity. Qed.

(** ** The controller: what is sent for a turn *)

Lemma run_snoc evs ev s : run (evs ++ [ev]) s = step ev (run evs s).
Proof. unfold run. by rewrite fold_left_app. Qed.

Lemma frames_of_app n out items :
  frames_of n (out ++ items) = frames_of n out ++ frames_of n items.
Proof. unfold frames_of. apply flat_map_app. Qed.

Lemma frames_of_other n k items :
  Forall (fun km => km.1 = k) items → k ≠ n → frames_of n items = [].
Proof.
  intros Hitems Hne. induction Hitems as [|[k' m] items Hk Hitems IH]; [done|].
  simpl in *. subst k'. unfold frames_of in *. simpl. rewrite IH.
  destruct m as [st p|st]; [|done].
  by rewrite (proj2 (Nat.eqb_neq k n)).
Qed.

Lemma frames_of_fresh n out :
  Forall (fun km => km.1 < n) out → frames_of n out = [].
Proof.
  induction 1 as [|[k m] out Hk Hout IH]; [done|].
  unfold frames_of in *. simpl in *. rewrite IH.
  destruct m as [st p|st]; [|done].
  by rewrite (proj2 (Nat.eqb_neq k n)) by lia.
Qed.

Lemma marked_app_other n k out items :
  Forall (fun km => km.1 = k) items → k ≠ n →
  marked n (out ++ items) → marked n out.
Proof.
  intros Hitems Hne [st Hin]. exists st.
  apply elem_of_app in Hin as [Hin|Hin]; [done|].
  rewrite Forall_forall in Hitems. apply Hitems in Hin. simpl in Hin. congruence.
Qed.

Lemma marked_snoc_media n k st p out :
  marked n (out ++ [(k, Media st p)]) → marked n out.
Proof.
  intros [st' Hin]. exists st'.
  apply elem_of_app in Hin as [Hin|Hin]; [done|].
  by apply list_elem_of_singleton in Hin.
Qed.

Lemma find_transmission_Some n s t :
  find_transmission n s = Some t → t ∈ transmissions s ∧ turn t = n.
Proof.
  unfold find_transmission. intros [Hin Heq]%find_some.
  split; [by apply list_elem_of_In | by apply Nat.eqb_eq].
Qed.

(** The three ways [sendBufferedAudio] goes on from its loop test. *)
Lemma sendBufferedAudio_cases t s :
  (offset t < length (audioBuffer t)
   ∧ sendBufferedAudio t s
     = suspend t
         (ws_send (turn t)
            (Media (to_stream t) (take frameSize (drop (offset t) (audioBuffer t))))
            s))
  ∨ (length (audioBuffer t) ≤ offset t
     ∧ sendBufferedAudio t s
       = suspend (mark_returned t) (ws_send (turn t) (Mark (to_stream t)) s))
  ∨ sendBufferedAudio t s = suspend (mark_returned t) s.
Proof.
  unfold sendBufferedAudio, after_loop.
  destruct (decide (offset t < length (audioBuffer t))) as [Hlt|Hge];
    destruct (is_open s); auto.
  right. left. split; [lia|done].
Qed.

Lemma handed_snoc evs ev : ∀ s,
  handed (evs ++ [ev]) s = handed evs s ++ call_of ev (run evs s).
Proof.
  induction evs as [|ev' evs IH]; intros s; simpl.
  - by rewrite !app_nil_r.
  - by rewrite IH, app_assoc.
Qed.


Section coherence.
Context (h : list buffer).

(** Nothing is sent, no transmission is added. *)
Lemma coherent_weaken s s' :
  coherent h s →
  sent s' = sent s →
  turns s' = turns s →
  (∀ t, t ∈ transmissions s' → t ∈ transmissions s) →
  coherent h s'.
Proof.
  intros (Hlen & Hsent & Htrans & Hturns) Hs Ht Hsub. split_and!.
  - by rewrite Ht.
  - by rewrite Hs, Ht.
  - apply Forall_forall. intros t Hin%Hsub.
    rewrite Forall_forall in Htrans. rewrite Hs. by apply Htrans.
  - intros n audio Hn. rewrite Hs. by apply Hturns.
Qed.

(** The transmission [t'] takes the place of those of its turn, and what
    is sent is sent for that turn. *)
Lemma coherent_emit s s' t' items :
  coherent h s →
  h !! turn t' = Some (audioBuffer t') →
  sent s' = sent s ++ items →
  Forall (fun km => km.1 = turn t') items →
  turns s' = turns s →
  transmissions s' = other_transmissions (turn t') s ++ [t'] →
  on_track (sent s') t' →
  sent_from (audioBuffer t') (turn t') (sent s') →
  coherent h s'.
Proof.
  intros (Hlen & Hsent & Htrans & Hturns) Haudio Hs Hitems Ht Htr Htrack Hfrom.
  assert (turn t' < turns s) as Hlt.
  { rewrite Hlen. by eapply lookup_lt_Some. }
  split_and!.
  - by rewrite Ht.
  - rewrite Hs, Ht. apply Forall_app. split; [done|].
    eapply Forall_impl; [exact Hitems|]. simpl. intros km ->. done.
  - rewrite Htr. apply Forall_app. split.
    + unfold other_transmissions.
      apply Forall_forall. intros t [Hin Hne]%list_elem_of_In%filter_In.
      apply list_elem_of_In in Hin. rewrite Forall_forall in Htrans.
      apply negb_true_iff, Nat.eqb_neq in Hne.
      destruct (Htrans t Hin) as [H1 H2]. split; [done|].
      intros Hret. destruct (H2 Hret) as (Ho & Hf & Hm).
      rewrite Hs, frames_of_app, (frames_of_other _ _ _ Hitems) by done.
      rewrite app_nil_r. split_and!; [done..|].
      intros Hmarked. apply Hm. by eapply marked_app_other.
    + by constructor.
  - intros n audio Hn. destruct (decide (n = turn t')) as [->|Hne].
    + rewrite Haudio in Hn. by injection Hn as <-.
    + destruct (Hturns n audio Hn) as [Hpre Hall].
      assert (frames_of n (sent s') = frames_of n (sent s)) as Hf.
      { rewrite Hs, frames_of_app, (frames_of_other _ _ _ Hitems) by done.
        by rewrite app_nil_r. }
      unfold sent_from. rewrite Hf. split; [done|].
      intros Hmarked. apply Hall. rewrite Hs in Hmarked.
      by eapply marked_app_other.
Qed.

(** [sendBufferedAudio] takes up a transmission where its frames end. *)
Lemma coherent_sendBufferedAudio t s :
  coherent h s →
  h !! turn t = Some (audioBuffer t) →
  returned t = false →
  frames_of (turn t) (sent s) = take (offset t) (audioBuffer t) →
  ¬ marked (turn t) (sent s) →
  coherent h (sendBufferedAudio t s).
Proof.
  intros Hcoh Haudio Hret Hframes Hmark.
  destruct (sendBufferedAudio_cases t s) as [[Hin ->]|[[Hout ->]| ->]].
  - apply (coherent_emit s _ t
             [(turn t, Media (to_stream t)
                         (take frameSize (drop (offset t) (audioBuffer t))))]);
      [done|done|done| |done|done| |].
    + by repeat constructor.
    + intros _. simpl. rewrite frames_of_app, Hframes. unfold frames_of. simpl.
      rewrite Nat.eqb_refl, app_nil_r, take_take_drop.
      split_and!; [done..|]. by intros ?%marked_snoc_media.
    + split; simpl.
      * rewrite frames_of_app, Hframes. unfold frames_of. simpl.
        rewrite Nat.eqb_refl, app_nil_r, take_take_drop. apply prefix_take.
      * by intros ?%marked_snoc_media.
  - apply (coherent_emit s _ (mark_returned t)
             [(turn t, Mark (to_stream t))]);
      [done|done|done| |done|done| |].
    + by repeat constructor.
    + by intros ?.
    + assert (frames_of (turn t) (sent s ++ [(turn t, Mark (to_stream t))])
              = audioBuffer t) as Hall.
      { rewrite frames_of_app, Hframes. unfold frames_of. simpl.
        rewrite app_nil_r. by apply take_ge. }
      split; simpl; [by rewrite Hall | done].
  - apply (coherent_emit s _ (mark_returned t) []);
      [done|done| | |done|done| |].
    + simpl. by rewrite app_nil_r.
    + constructor.
    + by intros ?.
    + split; simpl; [rewrite Hframes; apply prefix_take | done].
Qed.
End coherence.

(** A call of [sendAudioFrames] opens the next turn, for its audio. *)
Lemma coherent_call h audio s :
  coherent h s → coherent (h ++ [audio]) (set_turns (S (turns s)) s).
Proof.
  intros (Hlen & Hsent & Htrans & Hturns). split_and!; simpl.
  - rewrite length_app. simpl. lia.
  - eapply Forall_impl; [exact Hsent|]. simpl. lia.
  - eapply Forall_impl; [exact Htrans|]. simpl. intros t [H1 H2].
    split; [by apply lookup_app_l_Some | done].
  - intros n audio' Hn.
    destruct (decide (n < length h)) as [Hlt|Hge].
    + rewrite lookup_app_l in Hn by done. by apply Hturns.
    + assert (Forall (fun km : nat * message_out => km.1 < n) (sent s)) as Hfresh.
      { eapply Forall_impl; [exact Hsent|]. simpl. lia. }
      split.
      * rewrite frames_of_fresh by done. apply prefix_nil.
      * intros [st Hin]. rewrite Forall_forall in Hfresh.
        apply Hfresh in Hin. simpl in Hin. lia.
Qed.

Lemma coherent_step h ev s :
  coherent h s → coherent (h ++ call_of ev s) (step ev s).
Proof.
  intros Hcoh.
  assert (∀ s', sent s' = sent s → turns s' = turns s →
                transmissions s' = transmissions s →
                coherent h s') as Hsame.
  { intros s' H1 H2 H3.
    apply (coherent_weaken h s s'); [done | done | done | by rewrite H3]. }
  destruct ev as [stream call phone|payload| | | | | | |audio|n|n];
    unfold call_of; rewrite ?app_nil_r; rewrite ?step_MsgStart; simpl.
  - by apply Hsame.
  - destruct (dgLive s) as [d|]; [case_decide|]; by apply Hsame.
  - apply Hsame; unfold ws_close, finish_dgLive;
      destruct (dgLive s); simpl; by destruct (is_open _).
  - apply Hsame; unfold ws_close, finish_dgLive;
      destruct (dgLive s); simpl; by destruct (is_open _).
  - apply Hsame; unfold ws_close; by destruct (is_open _).
  - apply Hsame; unfold finish_dgLive; simpl; by destruct (dgLive s).
  - destruct (dgLive s) as [d|]; [case_decide|]; by apply Hsame.
  - destruct (dgLive s) as [d|]; by apply Hsame.
  - destruct (dgLive s) as [d|]; [|rewrite app_nil_r; by apply Hsame].
    pose proof (coherent_call h audio s Hcoh) as Hnext.
    unfold sendAudioFrames. rewrite decide_True by done.
    destruct (is_open s); [|done].
    destruct Hcoh as (Hlen & Hsent & _ & _).
    apply coherent_sendBufferedAudio; simpl; try done.
    + rewrite Hlen. apply list_lookup_middle. done.
    + rewrite take_0. by apply frames_of_fresh.
    + intros [st Hin]. rewrite Forall_forall in Hsent.
      apply Hsent in Hin. simpl in Hin. lia.
  - destruct (find_transmission n s) as [t|] eqn:Hfind; [|by apply Hsame].
    destruct (returned t) eqn:Hret; [by apply Hsame|].
    apply find_transmission_Some in Hfind as [Hin <-].
    pose proof Hcoh as (_ & _ & Htrans & _).
    rewrite Forall_forall in Htrans.
    destruct (Htrans t Hin) as (Haudio & Htrack).
    destruct (Htrack Hret) as (_ & Hframes & Hmark).
    by apply coherent_sendBufferedAudio.
  - destruct (find_transmission n s) as [t|] eqn:Hfind; [|by apply Hsame].
    destruct (returned t) eqn:Hret; [|by apply Hsame].
    apply (coherent_weaken h s); [done..|]. simpl.
    unfold other_transmissions. intros u [Hu _]%list_elem_of_In%filter_In.
    by apply list_elem_of_In.
Qed.

Lemma coherent_fresh s : fresh s → coherent [] s.
Proof.
  intros (Hturns & Htrans & Hsent). split_and!.
  - done.
  - rewrite Hsent. constructor.
  - rewrite Htrans. constructor.
  - intros n audio Hn. by rewrite lookup_nil in Hn.
Qed.

Lemma coherent_run evs s : fresh s → coherent (handed evs s) (run evs s).
Proof.
  intros Hfresh. induction evs as [|ev evs IH] using rev_ind.
  - by apply coherent_fresh.
  - rewrite run_snoc, handed_snoc. by apply coherent_step.
Qed.

(** X24. A mark closes a complete turn. In a session that starts with no
    call of [sendAudioFrames] behind it, with a connection or without,
    whatever the events and however the turns interleave: when the mark of
    turn [n] has been sent, the payloads sent for turn [n], put end to
    end, are the audio that call number [n] of [sendAudioFrames] was
    handed, every frame of it, once, in order. *)
Theorem mark_follows_the_whole_audio (s : session) (evs : list event) (n : nat)
    (stream : option string) :
  fresh s →
  (n, Mark stream) ∈ sent (run evs s) →
  ∃ audio,
    handed evs s !! n = Some audio
    ∧ frames_of n (sent (run evs s)) = audio.
Proof.
  intros Hfresh Hmark.
  destruct (coherent_run evs s Hfresh) as (Hlen & Hsent & _ & Hturns).
  assert (n < length (handed evs s)) as Hlt.
  { rewrite <- Hlen. rewrite Forall_forall in Hsent. by apply Hsent in Hmark. }
  destruct (lookup_lt_is_Some_2 _ _ Hlt) as [audio Haudio].
  exists audio. split; [done|].
  destruct (Hturns n audio Haudio) as [_ Hall]. apply Hall. by exists stream.
Qed.

(** The second of two interleaved turns, in a session that has its
    connection. *)
Lemma mark_follows_the_whole_audio_witness :
  ∃ audio,
    handed two_turns connected_session !! 1 = Some audio
    ∧ frames_of 1 (sent (run two_turns connected_session)) = audio.
Proof.
  apply (mark_follows_the_whole_audio connected_session two_turns 1
           (Some "MZ0001"%string)).
  - done.
  - apply list_elem_of_In. vm_compute. auto 10.
Defined.


(** *** The size of a frame *)




(** *** The counter of turns *)








(** *** The caller's audio *)



(** ** The review page *)

Section review_list.
Context (time_of : string → Z) (sort : string).

Lemma by_date_in_order a b :
  (ReviewPage.by_date time_of sort a b ≤ 0)%Z ↔ in_order time_of sort a b.
Proof.
  unfold ReviewPage.by_date, in_order.
  destruct (String.eqb sort "newest"); lia.
Qed.

Lemma in_order_total a b : in_order time_of sort a b ∨ in_order time_of sort b a.
Proof. unfold in_order. destruct (String.eqb sort "newest"); lia. Qed.

Lemma in_order_trans a b c :
  in_order time_of sort a b → in_order time_of sort b c → in_order time_of sort a c.
Proof. unfold in_order. destruct (String.eqb sort "newest"); lia. Qed.

Lemma same_day_in_order t a b :
  of_day time_of t a = true → of_day time_of t b = true →
  (ReviewPage.by_date time_of sort a b <=? 0)%Z = true.
Proof.
  unfold of_day, ReviewPage.by_date.
  intros Ha%Z.eqb_eq Hb%Z.eqb_eq. apply Z.leb_le.
  destruct (String.eqb sort "newest"); lia.
Qed.

Lemma insert_perm x l :
  ReviewPage.insert (ReviewPage.by_date time_of sort) x l ≡ₚ x :: l.
Proof.
  induction l as [|y l IH]; simpl; [done|].
  destruct (_ <=? 0)%Z; [done|].
  rewrite IH. apply Permutation_swap.
Qed.

Lemma insert_sorted x l :
  StronglySorted (in_order time_of sort) l →
  StronglySorted (in_order time_of sort)
    (ReviewPage.insert (ReviewPage.by_date time_of sort) x l).
Proof.
  induction 1 as [|y l Hl IH Hy]; simpl; [by repeat constructor|].
  destruct (_ <=? 0)%Z eqn:Hcmp.
  - apply Z.leb_le, by_date_in_order in Hcmp.
    constructor; [by constructor|]. constructor; [done|].
    eapply Forall_impl; [exact Hy|]. intros z Hz. by eapply in_order_trans.
  - apply Z.leb_gt in Hcmp. constructor; [done|].
    rewrite insert_perm. constructor; [|done].
    destruct (in_order_total y x) as [?|Hxy]; [done|].
    apply by_date_in_order in Hxy. lia.
Qed.

Lemma insert_of_day t x l :
  List.filter (of_day time_of t)
    (ReviewPage.insert (ReviewPage.by_date time_of sort) x l)
  = List.filter (of_day time_of t) (x :: l).
Proof.
  induction l as [|y l IH]; [done|].
  cbn [ReviewPage.insert]. destruct (_ <=? 0)%Z eqn:Hcmp; [done|].
  cbn [List.filter] in *. rewrite IH.
  destruct (of_day time_of t x) eqn:Hx, (of_day time_of t y) eqn:Hy; try done.
  by rewrite (same_day_in_order t x y) in Hcmp.
Qed.

Lemma sorted_by_perm l :
  ReviewPage.sorted_by (ReviewPage.by_date time_of sort) l ≡ₚ l.
Proof.
  induction l as [|x l IH]; [done|]. simpl. rewrite insert_perm. by constructor.
Qed.

Lemma sorted_by_sorted l :
  StronglySorted (in_order time_of sort)
    (ReviewPage.sorted_by (ReviewPage.by_date time_of sort) l).
Proof.
  induction l as [|x l IH]; [constructor|]. simpl. by apply insert_sorted.
Qed.

Lemma sorted_by_of_day t l :
  List.filter (of_day time_of t)
    (ReviewPage.sorted_by (ReviewPage.by_date time_of sort) l)
  = List.filter (of_day time_of t) l.
Proof.
  induction l as [|x l IH]; [done|].
  cbn [ReviewPage.sorted_by foldr]. rewrite insert_of_day.
  cbn [List.filter]. fold (ReviewPage.sorted_by (ReviewPage.by_date time_of sort) l).
  by rewrite IH.
Qed.
End review_list.

(** X29. The list of reviews shows the reviews the filter lets through,
    each once; they are in the order of the sort option, newest first for
    ["newest"] and oldest first for anything else; and the reviews of one
    day stay in the order they have on the page. *)
Theorem ReviewList_shows_matching_reviews_in_order
    (parseInt : string → option Z) (time_of : string → Z)
    (reviews : list ReviewPage.review) (filter sort : string) :
  let list := ReviewPage.ReviewList parseInt time_of reviews filter sort in
  let matching := List.filter (ReviewPage.shown parseInt filter) reviews in
  list ≡ₚ matching
  ∧ StronglySorted (in_order time_of sort) list
  ∧ ∀ t, List.filter (of_day time_of t) list
         = List.filter (of_day time_of t) matching.
Proof.
  simpl. unfold ReviewPage.ReviewList. split_and!.
  - apply sorted_by_perm.
  - apply sorted_by_sorted.
  - intros t. apply sorted_by_of_day.
Qed.

(** *** Submitting reviews *)

Lemma ratingCounts_fold reviews : ∀ acc star,
  fold_left
    (fun acc review star =>
       if Nat.eqb star (ReviewPage.rating review) then acc star + 1 else acc star)
    reviews acc star
  = acc star
    + length (List.filter (fun r => Nat.eqb star (ReviewPage.rating r)) reviews).
Proof.
  induction reviews as [|r reviews IH]; intros acc star; simpl; [lia|].
  rewrite IH. destruct (Nat.eqb star (ReviewPage.rating r)); simpl; lia.
Qed.

Lemma ratingCounts_cons r reviews star :
  ReviewPage.ratingCounts (r :: reviews) star
  = (if Nat.eqb star (ReviewPage.rating r) then 1 else 0)
    + ReviewPage.ratingCounts reviews star.
Proof.
  unfold ReviewPage.ratingCounts. rewrite !ratingCounts_fold. simpl.
  destruct (Nat.eqb star (ReviewPage.rating r)); simpl; lia.
Qed.

Lemma bars_total reviews :
  Forall rated reviews → sum_list (bars reviews) = ReviewPage.totalReviews reviews.
Proof.
  unfold bars, ReviewPage.totalReviews.
  induction 1 as [|r reviews [Hr _] Hrs IH]; [done|].
  simpl in *. rewrite !ratingCounts_cons.
  assert (ReviewPage.rating r = 1 ∨ ReviewPage.rating r = 2
          ∨ ReviewPage.rating r = 3 ∨ ReviewPage.rating r = 4
          ∨ ReviewPage.rating r = 5) as Hcases by lia.
  destruct Hcases as [-> |[-> |[-> |[-> | ->]]]]; simpl; lia.
Qed.

Lemma page_ok_act a st : page_ok st → page_ok (ReviewPage.act a st).
Proof.
  destruct st as [d reviews]. intros (Hd & Hids & Hrated).
  destruct a as [s|i|s|today]; simpl.
  - done.
  - destruct (Nat.ltb i 5) eqn:Hi; [|done].
    apply Nat.ltb_lt in Hi. split_and!; simpl; [lia|done..].
  - done.
  - unfold ReviewPage.handleSubmit.
    destruct (negb (String.eqb (ReviewPage.draft_author d) EmptyString)) eqn:Ha;
      [|done].
    destruct (negb (Nat.eqb (ReviewPage.draft_rating d) 0)) eqn:Hr; [|done].
    destruct (negb (String.eqb (ReviewPage.draft_text d) EmptyString)) eqn:Ht;
      [|done].
    simpl in *.
    apply negb_true_iff in Ha, Hr, Ht.
    apply String.eqb_neq in Ha, Ht. apply Nat.eqb_neq in Hr.
    split_and!.
    + simpl. lia.
    + change (length reviews + 1 :: (ReviewPage.id <$> reviews)
              ≡ₚ seq 1 (S (length reviews))).
      rewrite seq_S, Hids, (Nat.add_comm (length reviews) 1).
      apply Permutation_cons_append.
    + constructor; [|done]. split_and!; simpl; [lia| lia |done..].
Qed.

Lemma page_ok_visit actions : page_ok (ReviewPage.visit actions).
Proof.
  unfold ReviewPage.visit.
  induction actions as [|a actions IH] using rev_ind.
  - split_and!; simpl; [lia | done |].
    repeat constructor; simpl; lia || done.
  - rewrite fold_left_app. simpl. by apply page_ok_act.
Qed.

(** X30. Whatever a visitor types, clicks and submits, the reviews on the
    page have pairwise different ids, so every item of the list has a key
    of its own; each has an author, a text and one to five stars; and the
    counts behind the five bars of the summary add up to the number of
    reviews. *)
Theorem reviews_stay_well_formed (actions : list ReviewPage.action) :
  let reviews := (ReviewPage.visit actions).2 in
  NoDup (ReviewPage.id <$> reviews)
  ∧ Forall rated reviews
  ∧ sum_list (bars reviews) = ReviewPage.totalReviews reviews.
Proof.
  simpl. destruct (page_ok_visit actions) as (_ & Hids & Hrated).
  split_and!; [|done|by apply bars_total].
  rewrite Hids. apply NoDup_seq.
Qed.
